(** * Tor-Search-MCP: session coordinator, result indexer and fetch orchestrator

    A shallow embedding of [server.py].  The module-level globals of the
    Python program become one [state] record that every operation threads
    explicitly; exceptions become the [Raise] case of [result]; everything
    the program asks of the outside world (the clock, the search provider,
    the Tor launcher, the Selenium driver, Trafilatura, the JSON parser) is
    an explicit argument, so each function below is a total, executable
    function of its inputs.

    Time: [time.time()] is a floating-point number of seconds.  The model
    reads the clock in whole milliseconds ([Z]); a duration of [n] seconds
    is [seconds n].

    Text: a Python [str] is a sequence of code points, a [string] here a
    sequence of 8-bit characters; [len] and slices count characters in
    both.  Integers are unbounded ([Z]).  Dicts keyed by URL are [gmap
    string], the set of seen URLs is a [gset string]; [tab_url_map], whose
    key order gives the order in which the tabs are polled, is an
    association list. *)

From stdpp Require Import base gmap strings list pretty sorting.

Open Scope Z_scope.

(** ** Strings *)

Definition newline_char : Ascii.ascii := Ascii.ascii_of_nat 10.
Definition nl : string := String newline_char EmptyString.
Definition dquote : string := String (Ascii.ascii_of_nat 34) EmptyString.

(** [sep.join(parts)] *)
Definition join (sep : string) (parts : list string) : string :=
  String.concat sep parts.

(** [s.split("\n")]: always at least one piece. *)
Fixpoint split_nl (s : string) : list string :=
  match s with
  | EmptyString => [EmptyString]
  | String c s' =>
      if Ascii.eqb c newline_char then EmptyString :: split_nl s'
      else match split_nl s' with
           | [] => [String c EmptyString]
           | l :: ls => String c l :: ls
           end
  end.

(** [str.isspace] on the code points below 256: 9..13, 28..31, 32, and
    the next-line and no-break space characters 133 and 160. *)
Definition is_space (c : Ascii.ascii) : bool :=
  let n := Ascii.nat_of_ascii c in
  ((9 <=? n)%nat && (n <=? 13)%nat) || ((28 <=? n)%nat && (n <=? 32)%nat)
  || (n =? 133)%nat || (n =? 160)%nat.

(** [len(s.strip()) > 0]: some character of [s] is not white space. *)
Fixpoint has_visible_char (s : string) : bool :=
  match s with
  | EmptyString => false
  | String c s' => negb (is_space c) || has_visible_char s'
  end.

(** [s[:n]] *)
Definition str_prefix (n : nat) (s : string) : string := String.substring 0 n s.

(** [str(n)] for an integer, and [repr] of a list of integers. *)
Definition str_of_int (n : Z) : string := pretty n.
Definition repr_int_list (l : list Z) : string :=
  "[" +:+ join ", " (str_of_int <$> l) +:+ "]".

(** The truth value Python gives an [Optional[str]]. *)
Definition truthy (o : option string) : bool :=
  match o with
  | Some s => negb (String.eqb s EmptyString)
  | None => false
  end.

(** ** Exceptions *)

Inductive exn :=
| ValueError (msg : string)
| RuntimeError (msg : string)
| OtherError (msg : string).

(** [str(e)] *)
Definition exn_message (e : exn) : string :=
  match e with ValueError m | RuntimeError m | OtherError m => m end.

Inductive result (A : Type) :=
| Return (a : A)
| Raise (e : exn).
Arguments Return {A} a.
Arguments Raise {A} e.

Definition returned {A} (r : result A) : bool :=
  match r with Return _ => true | Raise _ => false end.

(** ** Configuration constants (config.toml, with the defaults of the source) *)

Record config := {
  TOR_KEEPALIVE_SECONDS : Z;
  MAX_CONCURRENT_TABS : Z;
  DEFAULT_PAGE_TIMEOUT : Z;
  DEFAULT_OVERALL_TIMEOUT : Z
}.

Definition default_config : config :=
  {| TOR_KEEPALIVE_SECONDS := 120;
     MAX_CONCURRENT_TABS := 5;
     DEFAULT_PAGE_TIMEOUT := 10;
     DEFAULT_OVERALL_TIMEOUT := 60 |}.

Definition seconds (n : Z) : Z := 1000 * n.

(** ** Global state *)

(** A record of [_last_search_results]. *)
Record item := {
  index : Z;
  title : string;
  url : string;
  snippet : string
}.

Definition process := nat.

Record state := {
  _tor_process : option process;
  _tor_socks_port : option Z;
  _tor_control_port : option Z;
  _tor_start_time : option Z;
  _tbb_path : option string;
  _tbb_profile_path : option string;
  _last_search_results : list item;
  _fetch_pages_called : bool
}.

(** The globals as the module initialises them. *)
Definition initial_state : state :=
  {| _tor_process := None;
     _tor_socks_port := None;
     _tor_control_port := None;
     _tor_start_time := None;
     _tbb_path := None;
     _tbb_profile_path := None;
     _last_search_results := [];
     _fetch_pages_called := false |}.

Definition set_last_search_results (l : list item) (s : state) : state :=
  {| _tor_process := _tor_process s;
     _tor_socks_port := _tor_socks_port s;
     _tor_control_port := _tor_control_port s;
     _tor_start_time := _tor_start_time s;
     _tbb_path := _tbb_path s;
     _tbb_profile_path := _tbb_profile_path s;
     _last_search_results := l;
     _fetch_pages_called := _fetch_pages_called s |}.

Definition set_fetch_pages_called (b : bool) (s : state) : state :=
  {| _tor_process := _tor_process s;
     _tor_socks_port := _tor_socks_port s;
     _tor_control_port := _tor_control_port s;
     _tor_start_time := _tor_start_time s;
     _tbb_path := _tbb_path s;
     _tbb_profile_path := _tbb_profile_path s;
     _last_search_results := _last_search_results s;
     _fetch_pages_called := b |}.

(** ** Tor lifecycle management *)

(** What [_start_tor] finds outside the program. *)
Record tor_env := {
  resolve_tbb_path : option string;
  resolve_profile_path : string → option string;
  makedirs_error : option string;
  launch_tbb_tor_with_stem : string → process + string;
  STEM_SOCKS_PORT : Z;
  STEM_CONTROL_PORT : Z;
  start_clock : Z
}.

Definition tbb_not_found : string :=
  "Tor Browser not found. Set TBB_PATH environment variable or install Tor Browser.".
Definition profile_not_found : string :=
  "Tor Browser profile not found. Open Tor Browser once to create a profile.".

(** [_start_tor]: nothing is stored unless the launch succeeded. *)
Definition _start_tor (e : tor_env) (s : state) : result unit * state :=
  match resolve_tbb_path e with
  | Some tbb_path =>
      if String.eqb tbb_path EmptyString then (Raise (RuntimeError tbb_not_found), s)
      else
        match resolve_profile_path e tbb_path with
        | Some profile_path =>
            if String.eqb profile_path EmptyString
            then (Raise (RuntimeError profile_not_found), s)
            else
              match makedirs_error e with
              | Some msg => (Raise (OtherError msg), s)
              | None =>
                  match launch_tbb_tor_with_stem e tbb_path with
                  | inr msg => (Raise (OtherError msg), s)
                  | inl tor_process =>
                      (Return tt,
                       {| _tor_process := Some tor_process;
                          _tor_socks_port := Some (STEM_SOCKS_PORT e);
                          _tor_control_port := Some (STEM_CONTROL_PORT e);
                          _tor_start_time := Some (start_clock e);
                          _tbb_path := Some tbb_path;
                          _tbb_profile_path := Some profile_path;
                          _last_search_results := _last_search_results s;
                          _fetch_pages_called := _fetch_pages_called s |})
                  end
              end
        | None => (Raise (RuntimeError profile_not_found), s)
        end
  | None => (Raise (RuntimeError tbb_not_found), s)
  end.

(** [_kill_tor]: the [kill()] call itself may fail, the [finally] clears the
    four fields all the same. *)
Definition _kill_tor (s : state) : state :=
  match _tor_process s with
  | Some _ =>
      {| _tor_process := None;
         _tor_socks_port := None;
         _tor_control_port := None;
         _tor_start_time := None;
         _tbb_path := _tbb_path s;
         _tbb_profile_path := _tbb_profile_path s;
         _last_search_results := _last_search_results s;
         _fetch_pages_called := _fetch_pages_called s |}
  | None => s
  end.

(** [_check_tor_timeout], reading the clock at [now]. *)
Definition _check_tor_timeout (cfg : config) (now : Z) (s : state) : bool * state :=
  match _tor_process s, _tor_start_time s with
  | Some _, Some started =>
      let elapsed := now - started in
      if seconds (TOR_KEEPALIVE_SECONDS cfg) <? elapsed then (false, _kill_tor s)
      else (true, s)
  | _, _ => (false, s)
  end.

(** The methods of [NativeBrowserBackend] delegate to the functions above
    (the private mirror of the four fields that the class keeps is read by
    [get_socks_port] only and is left out). *)
Definition is_tor_running (s : state) : bool :=
  match _tor_process s with Some _ => true | None => false end.
Definition stop_tor (s : state) : state := _kill_tor s.
Definition start_tor (e : tor_env) (s : state) : result unit * state := _start_tor e s.
Definition check_tor_timeout (cfg : config) (now : Z) (s : state) : bool * state :=
  _check_tor_timeout cfg now s.

(** ** Fetch outcomes *)

Inductive error_kind :=
| tab_error
| script_error
| connection_error
| empty_response
| capture_error
| timeout
| extraction_error
| browser_error.

(** The value of the ["error"] key. *)
Definition error_name (k : error_kind) : string :=
  match k with
  | tab_error => "tab_error"
  | script_error => "script_error"
  | connection_error => "connection_error"
  | empty_response => "empty_response"
  | capture_error => "capture_error"
  | timeout => "timeout"
  | extraction_error => "extraction_error"
  | browser_error => "browser_error"
  end.

(** What a URL maps to in a result dict: a [str], or a dict with the keys
    ["error"] and ["message"]. *)
Inductive content :=
| Text (html : string)
| Failure (error : error_kind) (message : string).

(** ** The browser as the driver presents it

    The Selenium driver is outside the program.  It is modelled as a
    scripted browser: the [k]-th call made on the driver is answered by
    the [k]-th [response] of a script, which says whether the call raises,
    how long it takes and what the page under focus looks like.  On top of
    the script the model keeps what Selenium itself guarantees: the list
    of open windows, the window under focus (which dangles once that
    window is closed), and that a command on a window that is gone raises.
    Three fields are ghosts that only the theorems read: the log of
    [driver.get] calls, the log of batches handed to [_dispatch_batch], and
    the largest number of windows ever open at once. *)

Definition handle := nat.

Record response := {
  raises : option string;
  elapsed : N;
  ready_state : string;
  connection_error_page : bool;
  page_source : string
}.

Record world := {
  clock : Z;
  window_handles : list handle;
  current_window : handle;
  next_handle : handle;
  calls : nat;
  navigations : list (handle * string);
  dispatched : list (list string);
  peak_tabs : nat
}.

Definition no_such_window : string := "no such window".

(** State and exception monad over [world]: an exception keeps the
    effects made so far. *)
Definition drv (A : Type) : Type := world → result A * world.

#[global] Instance drv_ret : MRet drv := λ A a w, (Return a, w).
#[global] Instance drv_bind : MBind drv := λ A B f m w,
  match m w with
  | (Return a, w1) => f a w1
  | (Raise e, w1) => (Raise e, w1)
  end.

Definition raise {A} (e : exn) : drv A := λ w, (Raise e, w).

(** [try: m except Exception as e: ...] hands the outcome to the handler. *)
Definition attempt {A} (m : drv A) : drv (result A) := λ w,
  let '(r, w1) := m w in (Return r, w1).

(** [time.time()] and [time.sleep(ms)] *)
Definition now : drv Z := λ w, (Return (clock w), w).

Definition advance (ms : Z) (w : world) : world :=
  {| clock := clock w + ms;
     window_handles := window_handles w;
     current_window := current_window w;
     next_handle := next_handle w;
     calls := calls w;
     navigations := navigations w;
     dispatched := dispatched w;
     peak_tabs := peak_tabs w |}.

Definition sleep (ms : Z) : drv unit := λ w, (Return tt, advance ms w).

(** One call on the driver: take the next response of the script, let its
    time pass, raise if the script says so or if the command needs the
    window under focus and that window is gone. *)
Definition answered (r : response) (w : world) : world :=
  {| clock := clock w + Z.of_N (elapsed r);
     window_handles := window_handles w;
     current_window := current_window w;
     next_handle := next_handle w;
     calls := S (calls w);
     navigations := navigations w;
     dispatched := dispatched w;
     peak_tabs := peak_tabs w |}.

Definition focus_alive (w : world) : bool :=
  bool_decide (current_window w ∈ window_handles w).

Definition driver_call {A} (script : nat → response) (needs_window : bool)
    (k : response → world → A * world) : drv A := λ w,
  let r := script (calls w) in
  let w1 := answered r w in
  match raises r with
  | Some msg => (Raise (OtherError msg), w1)
  | None =>
      if needs_window && negb (focus_alive w1)
      then (Raise (OtherError no_such_window), w1)
      else let '(a, w2) := k r w1 in (Return a, w2)
  end.

(** [driver.current_window_handle] *)
Definition current_window_handle (script : nat → response) : drv handle :=
  driver_call script true (λ _ w, (current_window w, w)).

(** [driver.window_handles] *)
Definition get_window_handles (script : nat → response) : drv (list handle) :=
  driver_call script false (λ _ w, (window_handles w, w)).

(** [driver.execute_script("window.open('');")]: a new window, last in
    the list of handles. *)
Definition open_window (w : world) : world :=
  {| clock := clock w;
     window_handles := window_handles w ++ [next_handle w];
     current_window := current_window w;
     next_handle := S (next_handle w);
     calls := calls w;
     navigations := navigations w;
     dispatched := dispatched w;
     peak_tabs := Nat.max (peak_tabs w) (S (length (window_handles w))) |}.

Definition window_open (script : nat → response) : drv unit :=
  driver_call script true (λ _ w, (tt, open_window w)).

(** [driver.switch_to.window(handle)] *)
Definition focus_on (h : handle) (w : world) : world :=
  {| clock := clock w;
     window_handles := window_handles w;
     current_window := h;
     next_handle := next_handle w;
     calls := calls w;
     navigations := navigations w;
     dispatched := dispatched w;
     peak_tabs := peak_tabs w |}.

Definition switch_to_window (script : nat → response) (h : handle) : drv unit := λ w,
  let r := script (calls w) in
  let w1 := answered r w in
  match raises r with
  | Some msg => (Raise (OtherError msg), w1)
  | None =>
      if bool_decide (h ∈ window_handles w1) then (Return tt, focus_on h w1)
      else (Raise (OtherError no_such_window), w1)
  end.

(** [driver.get(url)]: the call is logged whether or not it then raises. *)
Definition log_navigation (u : string) (w : world) : world :=
  {| clock := clock w;
     window_handles := window_handles w;
     current_window := current_window w;
     next_handle := next_handle w;
     calls := calls w;
     navigations := navigations w ++ [(current_window w, u)];
     dispatched := dispatched w;
     peak_tabs := peak_tabs w |}.

Definition driver_get (script : nat → response) (u : string) : drv unit := λ w,
  driver_call script true (λ _ w1, (tt, w1)) (log_navigation u w).

(** [driver.execute_script("return document.readyState;")] *)
Definition read_ready_state (script : nat → response) : drv string :=
  driver_call script true (λ r w, (ready_state r, w)).

(** [hasattr(driver, "is_connection_error_page") and
    driver.is_connection_error_page], as one question to the driver. *)
Definition is_connection_error_page (script : nat → response) : drv bool :=
  driver_call script true (λ r w, (connection_error_page r, w)).

(** [driver.page_source] *)
Definition get_page_source (script : nat → response) : drv string :=
  driver_call script true (λ r w, (page_source r, w)).

(** [driver.close()]: the window under focus goes, the focus dangles. *)
Definition close_focus (w : world) : world :=
  {| clock := clock w;
     window_handles := filter (λ h, h ≠ current_window w) (window_handles w);
     current_window := current_window w;
     next_handle := next_handle w;
     calls := calls w;
     navigations := navigations w;
     dispatched := dispatched w;
     peak_tabs := peak_tabs w |}.

Definition close_window (script : nat → response) : drv unit :=
  driver_call script true (λ _ w, (tt, close_focus w)).

(** [driver.quit()] *)
Definition quit_all (w : world) : world :=
  {| clock := clock w;
     window_handles := [];
     current_window := current_window w;
     next_handle := next_handle w;
     calls := calls w;
     navigations := navigations w;
     dispatched := dispatched w;
     peak_tabs := peak_tabs w |}.

Definition driver_quit (script : nat → response) : drv unit :=
  driver_call script false (λ _ w, (tt, quit_all w)).

(** [driver.set_page_load_timeout(page_timeout)] *)
Definition set_page_load_timeout (script : nat → response) (page_timeout : Z) : drv unit :=
  driver_call script false (λ _ w, (tt, w)).

(** ** Browser fetch helpers *)

(** [tab_url_map], a dict from handle to URL, in insertion order. *)
Fixpoint dict_set (h : handle) (u : string) (m : list (handle * string))
    : list (handle * string) :=
  match m with
  | [] => [(h, u)]
  | (h', u') :: m' =>
      if decide (h' = h) then (h, u) :: m' else (h', u') :: dict_set h u m'
  end.

Fixpoint dict_get (h : handle) (m : list (handle * string)) : option string :=
  match m with
  | [] => None
  | (h', u') :: m' => if decide (h' = h) then Some u' else dict_get h m'
  end.

Definition dict_keys (m : list (handle * string)) : list handle := fst <$> m.

(** The handle a URL of a batch is loaded in: the window under focus for
    the first URL, a new window for every other one. *)
Definition tab_for (script : nat → response) (i : nat) : drv handle :=
  match i with
  | O => current_window_handle script
  | S _ =>
      window_open script;;
      hs ← get_window_handles script;
      match last hs with
      | None => raise (OtherError "list index out of range")
      | Some h => switch_to_window script h;; mret h
      end
  end.

(** The body of the [for i, url in enumerate(urls)] loop, from index [i]. *)
Fixpoint dispatch_from (script : nat → response) (i : nat) (urls : list string)
    (tab_url_map : list (handle * string)) (tab_dispatch_times : gmap string Z)
    : drv (list (handle * string) * gmap string Z) :=
  match urls with
  | [] => mret (tab_url_map, tab_dispatch_times)
  | u :: rest =>
      h ← tab_for script i;
      t ← now;
      _ ← attempt (driver_get script u);
      dispatch_from script (S i) rest (dict_set h u tab_url_map) (<[u := t]> tab_dispatch_times)
  end.

Definition log_batch (urls : list string) : drv unit := λ w,
  (Return tt,
   {| clock := clock w;
      window_handles := window_handles w;
      current_window := current_window w;
      next_handle := next_handle w;
      calls := calls w;
      navigations := navigations w;
      dispatched := dispatched w ++ [urls];
      peak_tabs := peak_tabs w |}).

(** [_dispatch_batch(driver, urls)] *)
Definition _dispatch_batch (script : nat → response) (urls : list string)
    : drv (list (handle * string) * gmap string Z) :=
  log_batch urls;;
  dispatch_from script 0 urls [] ∅.

(** The three locals of [_collect_batch]. *)
Record collecting := {
  results : gmap string content;
  tab_load_times : gmap string Z;
  pending : list handle
}.

Definition lookup_tab (tab_url_map : list (handle * string)) (h : handle) : drv string :=
  match dict_get h tab_url_map with
  | Some u => mret u
  | None => raise (OtherError "KeyError")
  end.

(** [if url in tab_dispatch_times: tab_load_times[url] = round(time.time() -
    tab_dispatch_times[url], 3)] *)
Definition record_load_time (tab_dispatch_times : gmap string Z) (u : string)
    (load_times : gmap string Z) : drv (gmap string Z) :=
  match tab_dispatch_times !! u with
  | Some t0 => t ← now; mret (<[u := t - t0]> load_times)
  | None => mret load_times
  end.

(** [pending.remove(handle)] *)
Definition remove_pending (h : handle) (p : list handle) : list handle :=
  filter (λ x, x ≠ h) p.

Definition resolve (u : string) (c : content) (load_times : gmap string Z)
    (h : handle) (st : collecting) : collecting :=
  {| results := <[u := c]> (results st);
     tab_load_times := load_times;
     pending := remove_pending h (pending st) |}.

(** The capture of a loaded page, with its [except] clause. *)
Definition capture (script : nat → response) (u : string) : drv content :=
  r ← attempt (
        failed ← is_connection_error_page script;
        if failed : bool then mret (Failure connection_error ("Site unreachable: " +:+ u))
        else
          html ← get_page_source script;
          if String.eqb html EmptyString
          then mret (Failure empty_response "No HTML content")
          else mret (Text html));
  match r with
  | Return c => mret c
  | Raise e => mret (Failure capture_error (exn_message e))
  end.

(** [try: if len(driver.window_handles) > 1: driver.close() except: pass] *)
Definition close_if_not_last (script : nat → response) : drv unit :=
  _ ← attempt (
        hs ← get_window_handles script;
        if (1 <? length hs)%nat then close_window script else mret tt);
  mret tt.

(** One tab of one sweep of the [while] loop. *)
Definition sweep_tab (script : nat → response)
    (tab_url_map : list (handle * string)) (tab_dispatch_times : gmap string Z)
    (h : handle) (st : collecting) : drv collecting :=
  switched ← attempt (switch_to_window script h);
  match switched with
  | Raise e =>
      u ← lookup_tab tab_url_map h;
      lt ← record_load_time tab_dispatch_times u (tab_load_times st);
      mret (resolve u (Failure tab_error (exn_message e)) lt h st)
  | Return _ =>
      u ← lookup_tab tab_url_map h;
      state ← attempt (read_ready_state script);
      match state with
      | Raise e =>
          lt ← record_load_time tab_dispatch_times u (tab_load_times st);
          mret (resolve u (Failure script_error (exn_message e)) lt h st)
      | Return ready =>
          if String.eqb ready "complete" || String.eqb ready "interactive" then
            lt ← record_load_time tab_dispatch_times u (tab_load_times st);
            c ← capture script u;
            close_if_not_last script;;
            mret (resolve u c lt h st)
          else mret st
      end
  end.

(** [for handle in list(pending)] *)
Fixpoint sweep (script : nat → response)
    (tab_url_map : list (handle * string)) (tab_dispatch_times : gmap string Z)
    (snapshot : list handle) (st : collecting) : drv collecting :=
  match snapshot with
  | [] => mret st
  | h :: rest =>
      st' ← sweep_tab script tab_url_map tab_dispatch_times h st;
      sweep script tab_url_map tab_dispatch_times rest st'
  end.

(** [deadline is not None and time.time() > deadline] *)
Definition deadline_exceeded (deadline : option Z) (w : world) : bool :=
  match deadline with
  | Some d => d <? clock w
  | None => false
  end.

(** The condition of the [while] loop of [_collect_batch]. *)
Definition keep_polling (page_timeout : Z) (deadline : option Z) (start : Z)
    (st : collecting) (w : world) : bool :=
  negb (bool_decide (pending st = []))
  && (clock w - start <? seconds page_timeout)
  && negb (deadline_exceeded deadline w).

(** [if pending and not _deadline_exceeded(): time.sleep(0.5)] *)
Definition pause (deadline : option Z) (st : collecting) : drv unit := λ w,
  if negb (bool_decide (pending st = [])) && negb (deadline_exceeded deadline w)
  then sleep 500 w
  else (Return tt, w).

(** The [while] loop, at most [fuel] sweeps; [enough_sweeps] below is the
    bound the loop cannot pass. *)
Fixpoint poll (fuel : nat) (script : nat → response)
    (tab_url_map : list (handle * string)) (tab_dispatch_times : gmap string Z)
    (page_timeout : Z) (deadline : option Z) (start : Z) (st : collecting)
    : drv collecting := λ w,
  if keep_polling page_timeout deadline start st w then
    match fuel with
    | O => (Return st, w)
    | S fuel' =>
        (st' ← sweep script tab_url_map tab_dispatch_times (pending st) st;
         pause deadline st';;
         poll fuel' script tab_url_map tab_dispatch_times page_timeout deadline start st') w
    end
  else (Return st, w).

Definition enough_sweeps (page_timeout : Z) : nat := Z.to_nat (2 * page_timeout).

Definition page_load_timed_out : string := "Page load timed out".

(** One tab of the loop over the tabs still pending when polling stops. *)
Definition last_chance (script : nat → response)
    (tab_url_map : list (handle * string)) (tab_dispatch_times : gmap string Z)
    (h : handle) (st : collecting) : drv collecting :=
  r ← attempt (
        switch_to_window script h;;
        u ← lookup_tab tab_url_map h;
        lt ← record_load_time tab_dispatch_times u (tab_load_times st);
        got ← attempt (get_page_source script);
        let c :=
          match got with
          | Return html =>
              if negb (String.eqb html EmptyString) && has_visible_char html
              then Text html
              else Failure timeout page_load_timed_out
          | Raise _ => Failure timeout page_load_timed_out
          end in
        close_if_not_last script;;
        mret {| results := <[u := c]> (results st);
                tab_load_times := lt;
                pending := pending st |});
  match r with
  | Return st' => mret st'
  | Raise e =>
      let u := default "unknown" (dict_get h tab_url_map) in
      lt ← record_load_time tab_dispatch_times u (tab_load_times st);
      mret {| results := <[u := Failure timeout ("Tab error: " +:+ exn_message e)]> (results st);
              tab_load_times := lt;
              pending := pending st |}
  end.

Fixpoint last_chances (script : nat → response)
    (tab_url_map : list (handle * string)) (tab_dispatch_times : gmap string Z)
    (snapshot : list handle) (st : collecting) : drv collecting :=
  match snapshot with
  | [] => mret st
  | h :: rest =>
      st' ← last_chance script tab_url_map tab_dispatch_times h st;
      last_chances script tab_url_map tab_dispatch_times rest st'
  end.

(** [_collect_batch(driver, tab_url_map, tab_dispatch_times, timeout,
    deadline)]; the set [pending] is swept in the order of the keys of
    [tab_url_map]. *)
Definition _collect_batch (script : nat → response)
    (tab_url_map : list (handle * string)) (tab_dispatch_times : gmap string Z)
    (page_timeout : Z) (deadline : option Z)
    : drv (gmap string content * gmap string Z) :=
  start ← now;
  st ← poll (enough_sweeps page_timeout) script tab_url_map tab_dispatch_times
         page_timeout deadline start
         {| results := ∅; tab_load_times := ∅; pending := dict_keys tab_url_map |};
  st' ← last_chances script tab_url_map tab_dispatch_times (pending st) st;
  mret (results st', tab_load_times st').

(** ** Fetching a list of URLs *)

(** [range(0, stop, step)] for [stop >= 0] *)
Definition py_range (stop step : Z) : result (list Z) :=
  if step =? 0 then Raise (ValueError "range() arg 3 must not be zero")
  else if step <? 0 then Return []
  else Return ((λ k, k * step) <$> seqZ 0 ((stop + step - 1) `div` step)).

(** [urls[i:]] and [urls[i:i + n]] for [i >= 0] and [n >= 0] *)
Definition slice_from {A} (i : Z) (l : list A) : list A := drop (Z.to_nat i) l.
Definition slice {A} (i n : Z) (l : list A) : list A :=
  take (Z.to_nat n) (drop (Z.to_nat i) l).

Definition overall_timeout_reached : content :=
  Failure timeout "Overall timeout reached".

(** [for url in remaining: all_results[url] = {"error": "timeout", ...}] *)
Definition mark_remaining (remaining : list string) (all_results : gmap string content)
    : gmap string content :=
  foldl (λ m u, <[u := overall_timeout_reached]> m) all_results remaining.

(** The loop [for i in range(0, len(urls), MAX_CONCURRENT_TABS)], over the
    indexes still to come. *)
Fixpoint fetch_batches (cfg : config) (script : nat → response)
    (page_timeout : Z) (deadline : option Z) (urls : list string)
    (starts : list Z) (all_results : gmap string content)
    : drv (gmap string content) :=
  match starts with
  | [] => mret all_results
  | i :: later => λ w,
      if deadline_exceeded deadline w
      then (Return (mark_remaining (slice_from i urls) all_results), w)
      else
        (let batch := slice i (MAX_CONCURRENT_TABS cfg) urls in
         '(tab_url_map, tab_dispatch_times) ← _dispatch_batch script batch;
         '(batch_results, _) ← _collect_batch script tab_url_map tab_dispatch_times
                                 page_timeout deadline;
         fetch_batches cfg script page_timeout deadline urls later
           (batch_results ∪ all_results)) w
  end.

(** What happens when the program needs a virtual display. *)
Inductive display_outcome :=
| DisplayNotNeeded
| DisplayStarted
| DisplayImportError
| DisplayStartError (msg : string).

(** What [import trafilatura], the first statement of
    [_extract_with_trafilatura], does.  It stands outside the [try] of that
    function, so when the module cannot be imported the [ImportError]
    ([msg] is its message) leaves the content-extraction loop at the first
    page text it comes to.  The error outcomes that the loop had copied to
    [results] by then are the ones that come before that text in the order
    of the dict; the model keeps no order in a dict (neither does Python in
    the set [pending], which decides the order in which the outcomes of a
    batch are stored), so the URLs of these outcomes are given with the
    failure, as [copied]. *)
Inductive import_outcome :=
| Imported
| ImportFails (msg : string) (copied : gset string).

(** What [_fetch_urls_with_browser] finds outside the program. *)
Record browser_env := {
  total_start : Z;
  virtual_display : display_outcome;
  driver_launch_error : option string;
  driver_script : nat → response;
  trafilatura_import : import_outcome;
  trafilatura_extract : string → string → result (option string)
}.

(** [_extract_with_trafilatura(html, url)], once the module is imported: an
    exception of the extraction gives [None]. *)
Definition _extract_with_trafilatura (e : browser_env) (html u : string) : option string :=
  match trafilatura_extract e html u with
  | Return extracted => extracted
  | Raise _ => None
  end.

Definition pyvirtualdisplay_required : string :=
  "pyvirtualdisplay is required for headless execution on Linux. "
  +:+ "Install with: pip install pyvirtualdisplay && sudo apt-get install xvfb".

Definition start_virtual_display (e : browser_env) : drv unit :=
  match virtual_display e with
  | DisplayNotNeeded | DisplayStarted => mret tt
  | DisplayImportError => raise (RuntimeError pyvirtualdisplay_required)
  | DisplayStartError msg => raise (OtherError msg)
  end.

(** A browser that has just started: one window, under focus. *)
Definition fresh_browser (w : world) : world :=
  {| clock := clock w;
     window_handles := [0%nat];
     current_window := 0%nat;
     next_handle := 1%nat;
     calls := calls w;
     navigations := navigations w;
     dispatched := dispatched w;
     peak_tabs := 1 |}.

(** [TorBrowserDriver(...)] *)
Definition launch_driver (e : browser_env) : drv unit := λ w,
  match driver_launch_error e with
  | Some msg => (Raise (OtherError msg), w)
  | None => (Return tt, fresh_browser w)
  end.

(** No browser yet, the clock at [total_start]. *)
Definition before_launch (e : browser_env) : world :=
  {| clock := total_start e;
     window_handles := [];
     current_window := 0%nat;
     next_handle := 0%nat;
     calls := 0;
     navigations := [];
     dispatched := [];
     peak_tabs := 0 |}.

(** The content-extraction loop over [all_results.items()]. *)
Definition extract_content (e : browser_env) (u : string) (c : content) : content :=
  match c with
  | Text html =>
      match _extract_with_trafilatura e html u with
      | Some extracted =>
          if String.eqb extracted EmptyString
          then Failure extraction_error "Trafilatura failed to extract content"
          else Text extracted
      | None => Failure extraction_error "Trafilatura failed to extract content"
      end
  | Failure _ _ => c
  end.

Definition extract_all (e : browser_env) (all_results : gmap string content)
    : gmap string content :=
  map_imap (λ u c, Some (extract_content e u c)) all_results.

(** [isinstance(content, str)] *)
Definition is_text (c : content) : bool :=
  match c with Text _ => true | Failure _ _ => false end.

(** Some value of the dict is a page text: the loop calls
    [_extract_with_trafilatura]. *)
Definition holds_text (all_results : gmap string content) : bool :=
  existsb is_text (map_to_list all_results).*2.

(** The error outcomes of the URLs of [copied]. *)
Definition copied_before (copied : gset string) (all_results : gmap string content)
    : gmap string content :=
  filter (λ p, p.1 ∈ copied ∧ is_text p.2 = false) all_results.

(** The content-extraction loop as a whole: what it leaves in [results],
    and the exception that ended it, if one did. *)
Definition extraction_loop (e : browser_env) (all_results : gmap string content)
    : gmap string content * option exn :=
  match trafilatura_import e with
  | Imported => (extract_all e all_results, None)
  | ImportFails msg copied =>
      if holds_text all_results
      then (copied_before copied all_results, Some (OtherError msg))
      else (extract_all e all_results, None)
  end.

(** The [except Exception as e] clause: [results[url]] is set for every
    URL that is not in [results] yet. *)
Definition fill_browser_error (msg : string) (urls : list string)
    (res : gmap string content) : gmap string content :=
  foldl (λ m u, match m !! u with
                | Some _ => m
                | None => <[u := Failure browser_error msg]> m
                end) res urls.

(** The body of the [try] block: an exception before the extraction loop,
    or what that loop leaves in [results] and how it ends. *)
Definition fetch_body (cfg : config) (e : browser_env) (urls : list string)
    (page_timeout overall_timeout : Z) : drv (gmap string content * option exn) :=
  start_virtual_display e;;
  launch_driver e;;
  set_page_load_timeout (driver_script e) page_timeout;;
  let deadline :=
    if 0 <? overall_timeout then Some (total_start e + seconds overall_timeout)
    else None in
  starts ← (λ w, (py_range (Z.of_nat (length urls)) (MAX_CONCURRENT_TABS cfg), w));
  all_results ← fetch_batches cfg (driver_script e) page_timeout deadline urls starts ∅;
  mret (extraction_loop e all_results).

(** [results] after the [try] block and its [except] clause. *)
Definition after_except (urls : list string)
    (r : result (gmap string content * option exn)) : gmap string content :=
  match r with
  | Return (res, None) => res
  | Return (res, Some err) => fill_browser_error (exn_message err) urls res
  | Raise err => fill_browser_error (exn_message err) urls ∅
  end.

(** The [finally] clause: [driver.quit()] if a driver was created. *)
Definition fetch_cleanup (e : browser_env) : drv unit :=
  match driver_launch_error e, virtual_display e with
  | None, (DisplayNotNeeded | DisplayStarted) =>
      _ ← attempt (driver_quit (driver_script e)); mret tt
  | _, _ => mret tt
  end.

Definition paths_not_initialized : string :=
  "Tor Browser paths not initialized. Call _start_tor() first.".

(** [_fetch_urls_with_browser(urls, page_timeout, overall_timeout)]; the
    final [world] is returned with the dict for the theorems to read.
    [results] is filled by the content-extraction loop only, the last
    statement of the [try] block, so it is still empty when the [except]
    clause runs for an exception of an earlier statement. *)
Definition _fetch_urls_with_browser (cfg : config) (e : browser_env) (s : state)
    (urls : list string) (page_timeout overall_timeout : Z)
    : result (gmap string content) * world :=
  if negb (truthy (_tbb_path s)) || negb (truthy (_tbb_profile_path s))
  then (Raise (RuntimeError paths_not_initialized), before_launch e)
  else
    let '(r, w) := fetch_body cfg e urls page_timeout overall_timeout (before_launch e) in
    let '(_, w') := fetch_cleanup e w in
    (Return (after_except urls r), w').

(** [BACKEND.fetch_urls] *)
Definition fetch_urls (cfg : config) (e : browser_env) (s : state)
    (urls : list string) (page_timeout overall_timeout : Z)
    : result (gmap string content) :=
  fst (_fetch_urls_with_browser cfg e s urls page_timeout overall_timeout).

(** ** MCP tools *)

(** *** get_sources *)

(** What [ddgs.text(query, ...)] gives back: a list of dicts, or an
    exception. *)
Inductive provider_result :=
| Hits (hits : list (gmap string string))
| ProviderError (msg : string).

(** What [get_sources] finds outside the program. *)
Record search_env := {
  tor : tor_env;
  ddgs_text : string → provider_result
}.

(** [if len(snippet) > 125: snippet = snippet[:125] + "..."] *)
Definition truncate_snippet (body : string) : string :=
  if (125 <? String.length body)%nat then str_prefix 125 body +:+ "..." else body.

(** The locals that the two nested loops of [get_sources] update:
    [seen_urls], [_last_search_results] (a global), [current_index] and, for
    the query at hand, [query_results]. *)
Record indexing := {
  seen_urls : gset string;
  last_results : list item;
  current_index : Z;
  query_results : list item
}.

(** [r.get(key, "")] *)
Definition field (key : string) (r : gmap string string) : string :=
  default EmptyString (r !! key).

(** The body of [for r in results]. *)
Definition index_hit (ix : indexing) (r : gmap string string) : indexing :=
  let u := field "href" r in
  if bool_decide (u ∈ seen_urls ix) then ix
  else
    let it := {| index := current_index ix;
                 title := field "title" r;
                 url := u;
                 snippet := truncate_snippet (field "body" r) |} in
    {| seen_urls := {[u]} ∪ seen_urls ix;
       last_results := last_results ix ++ [it];
       current_index := current_index ix + 1;
       query_results := query_results ix ++ [it] |}.

Definition index_hits (ix : indexing) (hits : list (gmap string string)) : indexing :=
  foldl index_hit ix hits.

Definition next_query (ix : indexing) : indexing :=
  {| seen_urls := seen_urls ix;
     last_results := last_results ix;
     current_index := current_index ix;
     query_results := [] |}.

(** The loop [for query in queries]: the groups built so far, and what
    [_last_search_results] holds when the loop ends or a query raises. *)
Fixpoint search_queries (ddgs_text : string → provider_result) (queries : list string)
    (ix : indexing) (results_by_query : list (string * list item))
    : result (list (string * list item)) * list item :=
  match queries with
  | [] => (Return results_by_query, last_results ix)
  | query :: later =>
      match ddgs_text query with
      | ProviderError msg => (Raise (OtherError msg), last_results ix)
      | Hits hits =>
          let ix' := index_hits (next_query ix) hits in
          search_queries ddgs_text later ix' (results_by_query ++ [(query, query_results ix')])
      end
  end.

Definition start_indexing : indexing :=
  {| seen_urls := ∅; last_results := []; current_index := 1; query_results := [] |}.

(** The Markdown that [get_sources] returns. *)
Definition format_entry (it : item) : string :=
  "### " +:+ str_of_int (index it) +:+ ". [" +:+ title it +:+ "](" +:+ url it +:+ ")"
  +:+ nl +:+ join nl ((λ line, "> " +:+ line) <$> split_nl (snippet it)).

Definition format_group (group : string * list item) : list string :=
  let '(query, query_results) := group in
  [ "## Query: " +:+ dquote +:+ query +:+ dquote;
    match query_results with
    | [] => "_No unique results for this query._" +:+ nl
    | _ => join (nl +:+ nl) (format_entry <$> query_results)
    end;
    EmptyString ].

Definition format_sources (results_by_query : list (string * list item)) : string :=
  join nl (concat (format_group <$> results_by_query)).

Definition no_query : string := "At least one query is required.".
Definition too_many_queries : string := "Maximum of 3 queries allowed.".

(** [get_sources(queries)] *)
Definition get_sources (e : search_env) (queries : list string) (s : state)
    : result string * state :=
  match queries with
  | [] => (Raise (ValueError no_query), s)
  | _ =>
      if (3 <? length queries)%nat then (Raise (ValueError too_many_queries), s)
      else
        let s1 := if is_tor_running s then stop_tor s else s in
        match start_tor (tor e) s1 with
        | (Raise err, s2) => (Raise err, stop_tor s2)
        | (Return _, s2) =>
            match search_queries (ddgs_text e) queries start_indexing [] with
            | (Raise err, partial) =>
                (Raise err, stop_tor (set_last_search_results partial s2))
            | (Return results_by_query, found) =>
                (Return (format_sources results_by_query),
                 set_fetch_pages_called false (set_last_search_results found s2))
            end
        end
  end.

(** *** fetch_pages *)

(** What [json.loads(content)] followed by [data.get("text", content)]
    can do: fail to decode; give an object whose value under ["text"] is a
    [str], or that has no such key; give an object whose value under
    ["text"] is not a [str] ([type_name] is the name of its type and
    [shown] what [str] makes of it); or give a value that is no object and
    has no [get] ([type_name] is the name of its type: [list], [str],
    [int], [float], [bool] or [NoneType]). *)
Inductive json_value :=
| JsonDecodeError
| JsonObject (text : option string)
| JsonObjectOther (type_name shown : string)
| JsonOther (type_name : string).

(** The message of the [AttributeError] of [data.get] on a value that is
    no object. *)
Definition no_attribute_get (type_name : string) : string :=
  "'" +:+ type_name +:+ "' object has no attribute 'get'".

(** An element of [output_parts]: a [str], or a value of another type,
    kept by the name of its type. *)
Inductive part :=
| Str (s : string)
| NotStr (type_name : string).

(** The first element of [parts], from position [i] on, that is no [str]. *)
Fixpoint first_not_str (i : Z) (parts : list part) : option (Z * string) :=
  match parts with
  | [] => None
  | Str _ :: later => first_not_str (i + 1) later
  | NotStr type_name :: _ => Some (i, type_name)
  end.

(** The strings of [parts]. *)
Definition strings_of (parts : list part) : list string :=
  omap (λ p, match p with Str s => Some s | NotStr _ => None end) parts.

(** [sep.join(parts)]: a [TypeError] at the first element that is no
    [str]. *)
Definition join_parts (sep : string) (parts : list part) : result string :=
  match first_not_str 0 parts with
  | Some (i, type_name) =>
      Raise (OtherError ("sequence item " +:+ str_of_int i +:+ ": expected str instance, "
                         +:+ type_name +:+ " found"))
  | None => Return (join sep (strings_of parts))
  end.

(** What [fetch_pages] and [fetch_specific_page] find outside the program. *)
Record fetch_env := {
  check_clock : Z;
  browser : browser_env;
  json_loads : string → json_value
}.

Definition no_search_results : string :=
  "No search results available. You must call get_sources first before fetch_pages.".
Definition already_fetched : string :=
  "fetch_pages has already been called for this search. "
  +:+ "Call get_sources again to perform a new search.".
Definition tor_timed_out : string :=
  "Tor connection has timed out. Call get_sources again to start a new search.".
Definition too_many_indexes (requested : nat) : string :=
  "Maximum of 5 pages can be fetched per call. You requested "
  +:+ str_of_int (Z.of_nat requested) +:+ ". "
  +:+ "Choose the most relevant indexes based on snippets and source credibility.".
Definition invalid_index (idx : Z) (valid_indexes : gset Z) : string :=
  "Invalid index " +:+ str_of_int idx +:+ ". Valid indexes are: "
  +:+ repr_int_list (merge_sort Z.le (elements valid_indexes)).
Definition no_valid_urls : string :=
  "No valid URLs to fetch based on provided indexes.".

(** [{item["index"] for item in _last_search_results}] *)
Definition valid_indexes_of (found : list item) : gset Z :=
  list_to_set (index <$> found).

(** The first index of the request that is not a valid one. *)
Definition first_invalid (valid_indexes : gset Z) (indexes : list Z) : option Z :=
  List.find (λ idx, negb (bool_decide (idx ∈ valid_indexes))) indexes.

(** The items the request selects, in the order of [_last_search_results]. *)
Definition selected (found : list item) (indexes : list Z) : list item :=
  filter (λ it, index it ∈ indexes) found.

Definition urls_to_fetch (found : list item) (indexes : list Z) : list string :=
  url <$> selected found indexes.

(** The part of the output for one selected item; [data.get] raises an
    [AttributeError] when the decoded JSON is not an object, and a value
    under ["text"] that is no [str] is appended as it is. *)
Definition format_page (json_loads : string → json_value)
    (fetched : gmap string content) (it : item) : result (list part) :=
  let head := [ Str ("## " +:+ str_of_int (index it) +:+ ". " +:+ title it);
                Str ("URL: " +:+ url it +:+ nl) ] in
  let rule := [ Str (nl +:+ "---" +:+ nl) ] in
  match fetched !! url it with
  | Some (Text c) =>
      match json_loads c with
      | JsonObject (Some text) => Return (head ++ [Str text] ++ rule)
      | JsonObject None => Return (head ++ [Str c] ++ rule)
      | JsonObjectOther type_name _ => Return (head ++ [NotStr type_name] ++ rule)
      | JsonDecodeError => Return (head ++ [Str c] ++ rule)
      | JsonOther type_name => Raise (OtherError (no_attribute_get type_name))
      end
  | Some (Failure error_type error_msg) =>
      Return (head ++ [ Str ("**Error fetching page:** [" +:+ error_name error_type +:+ "] "
                             +:+ error_msg) ] ++ rule)
  | None => Return (head ++ [ Str "**Error:** No content retrieved" ] ++ rule)
  end.

Fixpoint format_pages (json_loads : string → json_value)
    (fetched : gmap string content) (items : list item) (output_parts : list part)
    : result (list part) :=
  match items with
  | [] => Return output_parts
  | it :: later =>
      match format_page json_loads fetched it with
      | Return parts => format_pages json_loads fetched later (output_parts ++ parts)
      | Raise err => Raise err
      end
  end.


(** The [try] block of [fetch_pages]. *)
Definition fetch_and_format (cfg : config) (e : fetch_env) (s : state)
    (indexes : list Z) : result string :=
  match fetch_urls cfg (browser e) s (urls_to_fetch (_last_search_results s) indexes)
          (DEFAULT_PAGE_TIMEOUT cfg) (DEFAULT_OVERALL_TIMEOUT cfg) with
  | Raise err => Raise err
  | Return fetched =>
      match format_pages (json_loads e) fetched
              (selected (_last_search_results s) indexes) [] with
      | Return output_parts => join_parts nl output_parts
      | Raise err => Raise err
      end
  end.

(** The checks of [fetch_pages] that come before [# Mark as fetched], in
    the order of the source; when all of them pass, the URLs to fetch. *)
Definition validate_request (cfg : config) (e : fetch_env) (indexes : list Z) (s : state)
    : result (list string) * state :=
  match _last_search_results s with
  | [] => (Raise (RuntimeError no_search_results), s)
  | _ =>
      if _fetch_pages_called s then (Raise (RuntimeError already_fetched), s)
      else
        let '(alive, s1) := check_tor_timeout cfg (check_clock e) s in
        if negb alive then (Raise (RuntimeError tor_timed_out), s1)
        else if (5 <? length indexes)%nat
        then (Raise (ValueError (too_many_indexes (length indexes))), s1)
        else
          let valid_indexes := valid_indexes_of (_last_search_results s1) in
          match first_invalid valid_indexes indexes with
          | Some idx => (Raise (ValueError (invalid_index idx valid_indexes)), s1)
          | None =>
              match urls_to_fetch (_last_search_results s1) indexes with
              | [] => (Raise (ValueError no_valid_urls), s1)
              | urls => (Return urls, s1)
              end
          end
  end.

(** [fetch_pages(indexes)]: the checks, then the flag, then the [try]
    block with its [finally: BACKEND.stop_tor()]. *)
Definition fetch_pages (cfg : config) (e : fetch_env) (indexes : list Z) (s : state)
    : result string * state :=
  match validate_request cfg e indexes s with
  | (Raise err, s1) => (Raise err, s1)
  | (Return _, s1) =>
      let s2 := set_fetch_pages_called true s1 in
      (fetch_and_format cfg e s2 indexes, stop_tor s2)
  end.

(** *** fetch_specific_page *)

(** What [fetch_specific_page] finds outside the program. *)
Record direct_env := {
  direct_tor : tor_env;
  direct_fetch : fetch_env
}.

(** The [try] block of [fetch_specific_page], after [BACKEND.start_tor()]. *)
Definition fetch_one (cfg : config) (e : fetch_env) (s : state) (u : string)
    : result string :=
  match fetch_urls cfg (browser e) s [u]
          (DEFAULT_PAGE_TIMEOUT cfg) (DEFAULT_OVERALL_TIMEOUT cfg) with
  | Raise err => Raise err
  | Return fetched =>
      let head := "## Content from " +:+ u +:+ nl +:+ nl in
      match fetched !! u with
      | Some (Text c) =>
          match json_loads e c with
          | JsonObject (Some text) => Return (head +:+ text)
          | JsonObject None => Return (head +:+ c)
          | JsonObjectOther _ shown => Return (head +:+ shown)
          | JsonDecodeError => Return (head +:+ c)
          | JsonOther type_name => Raise (OtherError (no_attribute_get type_name))
          end
      | Some (Failure error_type error_msg) =>
          Raise (RuntimeError ("Failed to fetch page: [" +:+ error_name error_type +:+ "] "
                               +:+ error_msg))
      | None => Raise (RuntimeError "No content retrieved from page")
      end
  end.

(** [fetch_specific_page(url)] *)
Definition fetch_specific_page (cfg : config) (e : direct_env) (u : string) (s : state)
    : result string * state :=
  let s1 := if is_tor_running s then stop_tor s else s in
  match start_tor (direct_tor e) s1 with
  | (Raise err, s2) => (Raise err, stop_tor s2)
  | (Return _, s2) => (fetch_one cfg (direct_fetch e) s2 u, stop_tor s2)
  end.

(** ** Sequences of calls *)

(** A call of one of the three tools, with what it finds outside. *)
Inductive call :=
| Search (e : search_env) (queries : list string)
| FetchByIndex (e : fetch_env) (indexes : list Z)
| FetchDirect (e : direct_env) (u : string).

Definition run_call (cfg : config) (c : call) (s : state) : result string * state :=
  match c with
  | Search e queries => get_sources e queries s
  | FetchByIndex e indexes => fetch_pages cfg e indexes s
  | FetchDirect e u => fetch_specific_page cfg e u s
  end.

(** The calls of a sequence in order, each paired with its outcome. *)
Fixpoint run_calls (cfg : config) (calls : list call) (s : state)
    : list (call * result string) * state :=
  match calls with
  | [] => ([], s)
  | c :: later =>
      let '(r, s1) := run_call cfg c s in
      let '(trace, s2) := run_calls cfg later s1 in
      ((c, r) :: trace, s2)
  end.

(** ** Vocabulary of the properties *)

(** The same state with another start timestamp. *)
Definition set_tor_start_time (t : option Z) (s : state) : state :=
  {| _tor_process := _tor_process s;
     _tor_socks_port := _tor_socks_port s;
     _tor_control_port := _tor_control_port s;
     _tor_start_time := t;
     _tbb_path := _tbb_path s;
     _tbb_profile_path := _tbb_profile_path s;
     _last_search_results := _last_search_results s;
     _fetch_pages_called := _fetch_pages_called s |}.

(** ** Sample surroundings

    Concrete surroundings on which the properties below are instantiated:
    a Tor Browser that is found and starts at time 0, a provider with five
    hits for each of two queries (two of the URLs are shared), and a
    browser in which every page loads at once. *)

Definition demo_tor : tor_env :=
  {| resolve_tbb_path := Some "/opt/tor-browser";
     resolve_profile_path := λ _, Some "/opt/tor-browser/profile.default";
     makedirs_error := None;
     launch_tbb_tor_with_stem := λ _, inl 4242%nat;
     STEM_SOCKS_PORT := 9250;
     STEM_CONTROL_PORT := 9251;
     start_clock := 0 |}.

Definition demo_tor_missing : tor_env :=
  {| resolve_tbb_path := None;
     resolve_profile_path := λ _, None;
     makedirs_error := None;
     launch_tbb_tor_with_stem := λ _, inr "not launched";
     STEM_SOCKS_PORT := 9250;
     STEM_CONTROL_PORT := 9251;
     start_clock := 0 |}.

Definition hit (href title body : string) : gmap string string :=
  <["href" := href]> (<["title" := title]> (<["body" := body]> ∅)).

Definition hits_a : list (gmap string string) :=
  [ hit "https://a.example/1" "A1" "first";
    hit "https://a.example/2" "A2" "second";
    hit "https://shared.example/x" "X" "shared x";
    hit "https://a.example/3" "A3" "third";
    hit "https://shared.example/y" "Y" "shared y" ].

Definition hits_b : list (gmap string string) :=
  [ hit "https://shared.example/y" "Y again" "shared y";
    hit "https://b.example/1" "B1" "first";
    hit "https://b.example/2" "B2" "second";
    hit "https://shared.example/x" "X again" "shared x";
    hit "https://b.example/3" "B3" "third" ].

Definition demo_provider (query : string) : provider_result :=
  if String.eqb query "a" then Hits hits_a
  else if String.eqb query "b" then Hits hits_b
  else if String.eqb query "down" then ProviderError "connection refused"
  else Hits [].

Definition demo_search : search_env :=
  {| tor := demo_tor; ddgs_text := demo_provider |}.

Definition demo_search_no_tor : search_env :=
  {| tor := demo_tor_missing; ddgs_text := demo_provider |}.

Definition loaded_page : response :=
  {| raises := None;
     elapsed := 10%N;
     ready_state := "complete";
     connection_error_page := false;
     page_source := "<html><body>page</body></html>" |}.

Definition failing_call : response :=
  {| raises := Some "javascript error";
     elapsed := 10%N;
     ready_state := EmptyString;
     connection_error_page := false;
     page_source := EmptyString |}.

Definition demo_browser (script : nat → response) : browser_env :=
  {| total_start := 1000;
     virtual_display := DisplayNotNeeded;
     driver_launch_error := None;
     driver_script := script;
     trafilatura_import := Imported;
     trafilatura_extract := λ html u, Return (Some ("{text of " +:+ u +:+ "}")) |}.

Definition demo_fetch (at_clock : Z) : fetch_env :=
  {| check_clock := at_clock;
     browser := demo_browser (λ _, loaded_page);
     json_loads := λ c, JsonObject (Some c) |}.

Definition demo_direct : direct_env :=
  {| direct_tor := demo_tor; direct_fetch := demo_fetch 1000 |}.

(** The state after [get_sources(["a", "b"])] on the sample surroundings. *)
Definition demo_searched : state :=
  Eval vm_compute in snd (get_sources demo_search ["a"; "b"] initial_state).

(** ** The result indexer in the words of the specification *)

(** All the hits of a search call, query after query. *)
Fixpoint all_hits (ddgs_text : string → provider_result) (queries : list string)
    : list (gmap string string) :=
  match queries with
  | [] => []
  | query :: later =>
      match ddgs_text query with
      | Hits hits => hits ++ all_hits ddgs_text later
      | ProviderError _ => all_hits ddgs_text later
      end
  end.

(** The hits that survive: a hit is dropped when its URL is the URL of a
    hit at an earlier position, [earlier] being the hits that came before
    (of this query or of an earlier one). *)
Fixpoint surviving (earlier hits : list (gmap string string))
    : list (gmap string string) :=
  match hits with
  | [] => []
  | r :: rest =>
      if bool_decide (field "href" r ∈ field "href" <$> earlier)
      then surviving (earlier ++ [r]) rest
      else r :: surviving (earlier ++ [r]) rest
  end.

(** The record of the [i]-th surviving hit (counting from 0). *)
Definition record_of (i : nat) (r : gmap string string) : item :=
  {| index := 1 + Z.of_nat i;
     title := field "title" r;
     url := field "href" r;
     snippet := truncate_snippet (field "body" r) |}.

(** The Markdown of [get_sources(["a", "b"])] on the sample surroundings. *)
Definition demo_output : string :=
  Eval vm_compute in
    match fst (get_sources demo_search ["a"; "b"] initial_state) with
    | Return out => out
    | Raise _ => EmptyString
    end.

(** ** The checks of [fetch_pages] in the words of the specification *)

(** A session is alive at [now]: a process is held and no more than the
    keepalive period has passed since its start timestamp. *)
Definition session_alive (cfg : config) (now : Z) (s : state) : Prop :=
  ∃ p started,
    _tor_process s = Some p ∧ _tor_start_time s = Some started
    ∧ now - started ≤ seconds (TOR_KEEPALIVE_SECONDS cfg).

(** The reasons for which a request is turned down. *)
Inductive rejection :=
| NoPriorSearch
| AlreadyFetched
| SessionExpired
| TooManyIndexes (requested : nat)
| UnknownIndex (idx : Z)
| NothingToFetch.

(** The exception each reason is reported with. *)
Definition rejection_error (found : list item) (r : rejection) : exn :=
  match r with
  | NoPriorSearch => RuntimeError no_search_results
  | AlreadyFetched => RuntimeError already_fetched
  | SessionExpired => RuntimeError tor_timed_out
  | TooManyIndexes requested => ValueError (too_many_indexes requested)
  | UnknownIndex idx => ValueError (invalid_index idx (valid_indexes_of found))
  | NothingToFetch => ValueError no_valid_urls
  end.

(** The conditions in their order: each reason applies when its condition
    holds and none of the conditions before it does. *)
Inductive turned_down (cfg : config) (e : fetch_env) (indexes : list Z) (s : state)
    : rejection → Prop :=
| no_prior_search :
    _last_search_results s = [] →
    turned_down cfg e indexes s NoPriorSearch
| already_fetched_once :
    _last_search_results s ≠ [] →
    _fetch_pages_called s = true →
    turned_down cfg e indexes s AlreadyFetched
| session_expired :
    _last_search_results s ≠ [] →
    _fetch_pages_called s = false →
    ¬ session_alive cfg (check_clock e) s →
    turned_down cfg e indexes s SessionExpired
| too_many_requested :
    _last_search_results s ≠ [] →
    _fetch_pages_called s = false →
    session_alive cfg (check_clock e) s →
    (5 < length indexes)%nat →
    turned_down cfg e indexes s (TooManyIndexes (length indexes))
| unknown_index (before after : list Z) (idx : Z) :
    _last_search_results s ≠ [] →
    _fetch_pages_called s = false →
    session_alive cfg (check_clock e) s →
    (length indexes ≤ 5)%nat →
    indexes = before ++ idx :: after →
    (∀ i, i ∈ before → i ∈ index <$> _last_search_results s) →
    idx ∉ index <$> _last_search_results s →
    turned_down cfg e indexes s (UnknownIndex idx)
| nothing_to_fetch :
    _last_search_results s ≠ [] →
    _fetch_pages_called s = false →
    session_alive cfg (check_clock e) s →
    indexes = [] →
    turned_down cfg e indexes s NothingToFetch.

(** The five conditions of the claim as it is stated. *)
Definition stated_conditions (cfg : config) (e : fetch_env) (indexes : list Z) (s : state)
    : Prop :=
  _last_search_results s = []
  ∨ _fetch_pages_called s = true
  ∨ ¬ session_alive cfg (check_clock e) s
  ∨ (5 < length indexes)%nat
  ∨ ∃ idx, idx ∈ indexes ∧ idx ∉ index <$> _last_search_results s.

(** A request is accepted when all the checks pass: the flag is set, the
    pages are fetched and the session is stopped. *)
Definition accepted (cfg : config) (e : fetch_env) (indexes : list Z) (s : state) : Prop :=
  returned (fst (validate_request cfg e indexes s)) = true.

(** ** Generations *)

(** A call that starts a new search: a [get_sources] call that gets past
    the validation of its queries. *)
Definition starts_search (c : call) : bool :=
  match c with
  | Search _ queries =>
      negb (bool_decide (queries = [])) && (length queries <=? 3)%nat
  | _ => false
  end.

(** What holds of the globals after any sequence of calls: a session that
    runs has a start timestamp and the two paths, and its generation has
    not been fetched; the stored records have distinct URLs and the
    indexes 1, 2, ... in order. *)
Definition consistent (s : state) : Prop :=
  (is_tor_running s = true →
     is_Some (_tor_start_time s)
     ∧ truthy (_tbb_path s) = true ∧ truthy (_tbb_profile_path s) = true
     ∧ _fetch_pages_called s = false)
  ∧ NoDup (url <$> _last_search_results s)
  ∧ index <$> _last_search_results s
    = seqZ 1 (Z.of_nat (length (_last_search_results s))).

(** Every [fetch_pages] call of a trace raised the exception [err]. *)
Definition fetches_raise (err : exn) (trace : list (call * result string)) : Prop :=
  ∀ e indexes r, (FetchByIndex e indexes, r) ∈ trace → r = Raise err.

(** ** Vocabulary of the fetch orchestrator *)

(** What no step of the browser undoes: the log of dispatched batches stays
    and the clock does not go back. *)
Definition steady (w w' : world) : Prop :=
  dispatched w' = dispatched w ∧ clock w ≤ clock w'.

Definition keeps {A} (m : drv A) : Prop := ∀ w, steady w (snd (m w)).

(** The [k]-th run of [n] consecutive elements of [l]. *)
Definition chunk {A} (n : nat) (l : list A) (k : nat) : list A :=
  take n (drop (k * n) l).

(** ** More sample surroundings *)

(** The state and the Markdown after [get_sources(["nothing"])], a search
    that finds nothing. *)
Definition demo_empty : state :=
  Eval vm_compute in snd (get_sources demo_search ["nothing"] initial_state).

Definition demo_empty_output : string :=
  Eval vm_compute in
    match fst (get_sources demo_search ["nothing"] initial_state) with
    | Return out => out
    | Raise _ => EmptyString
    end.

(** A configuration with a concurrency bound of 2. *)
Definition two_tabs : config :=
  {| TOR_KEEPALIVE_SECONDS := 120;
     MAX_CONCURRENT_TABS := 2;
     DEFAULT_PAGE_TIMEOUT := 10;
     DEFAULT_OVERALL_TIMEOUT := 60 |}.

(** The driver calls of a run on four URLs with a bound of 2, when every
    call succeeds at once: 0 is [set_page_load_timeout]; 1 to 6 dispatch
    the first batch; 7 and 9 switch to its two tabs, 8 and 10 read their
    [document.readyState].  In this script these two reads raise. *)
Definition ready_state_raises_in_first_batch (k : nat) : response :=
  if bool_decide (k = 8%nat ∨ k = 10%nat) then failing_call else loaded_page.

(** Every driver call takes twenty seconds. *)
Definition slow_page : response :=
  {| raises := None;
     elapsed := 20000%N;
     ready_state := "loading";
     connection_error_page := false;
     page_source := "<html><body>partial</body></html>" |}.

Definition four_urls : list string :=
  Eval vm_compute in urls_to_fetch (_last_search_results demo_searched) [1; 2; 3; 4].

Definition five_urls : list string :=
  Eval vm_compute in urls_to_fetch (_last_search_results demo_searched) [1; 2; 3; 4; 5].

(** ** Vocabulary of the browser run *)

(** Window handles are never reused: every open window has a handle below
    the next one the browser will give out. *)
Definition tidy (w : world) : Prop :=
  Forall (λ h, (h < next_handle w)%nat) (window_handles w).

(** A computation that returns on every world, with a result in [Q]. *)
Definition total {A} (m : drv A) (Q : A → Prop) : Prop :=
  ∀ w, ∃ a w', m w = (Return a, w') ∧ Q a.

Definition preserves {A} (P : world → Prop) (m : drv A) : Prop :=
  ∀ w, P w → P (snd (m w)).

(** The outcomes that [_collect_batch] can give a URL: the raw HTML, never
    empty, or one of six kinds of error. *)
Definition batch_outcome (c : content) : bool :=
  match c with
  | Text html => negb (String.eqb html EmptyString)
  | Failure (tab_error | script_error | connection_error | empty_response
             | capture_error | timeout) _ => true
  | Failure (extraction_error | browser_error) _ => false
  end.

(** The outcomes that the sweeps of the polling loop give: those of
    [_collect_batch] but for the timeout. *)
Definition sweep_outcome (c : content) : bool :=
  match c with
  | Failure timeout _ => false
  | _ => batch_outcome c
  end.

(** The URLs of the tabs of [tab_url_map] outside [todo] have an outcome in
    [res], and [res] holds nothing but outcomes, of the kinds that [Q]
    accepts, of URLs of the map. *)
Definition covered (Q : content → bool) (m : list (handle * string)) (todo : list handle)
    (res : gmap string content) : Prop :=
  (∀ h u, dict_get h m = Some u → h ∉ todo → is_Some (res !! u))
  ∧ (∀ u c, res !! u = Some c → (∃ h, dict_get h m = Some u) ∧ Q c = true).

(** ** More browser scripts *)

(** A browser that has just been launched, and a driver whose every
    [driver.get] call of a first batch raises (calls 1, 5, 9, ...). *)
Definition launched : world :=
  fresh_browser (before_launch (demo_browser (λ _, loaded_page))).

Definition navigation_fails (k : nat) : response :=
  if (k `mod` 4 =? 1)%nat then failing_call else loaded_page.

(** The second batch of a run on four URLs with a bound of 2 starts at
    driver call 18; in this script its [window.open] (call 20) raises. *)
Definition second_batch_cannot_open (k : nat) : response :=
  if (k =? 20)%nat then failing_call else loaded_page.

(** ** The backend object *)

(** ** The backend object
    [NativeBrowserBackend] keeps a copy of the session fields of its own,
    which [start_tor] and [stop_tor] update after the module-level
    functions have run, and which [get_socks_port] reads first. *)
Record backend := {
  self_tor_process : option process;
  self_tor_socks_port : option Z;
  self_tor_control_port : option Z;
  self_tor_start_time : option Z;
  self_tbb_path : option string;
  self_tbb_profile_path : option string
}.

(** [NativeBrowserBackend.__init__] *)
Definition new_backend : backend :=
  {| self_tor_process := None;
     self_tor_socks_port := None;
     self_tor_control_port := None;
     self_tor_start_time := None;
     self_tbb_path := None;
     self_tbb_profile_path := None |}.

(** [NativeBrowserBackend.start_tor]: an exception of [_start_tor] leaves
    the copy as it is. *)
Definition backend_start_tor (e : tor_env) (b : backend) (s : state)
    : result unit * backend * state :=
  match _start_tor e s with
  | (Return _, s') =>
      (Return tt,
       {| self_tor_process := _tor_process s';
          self_tor_socks_port := _tor_socks_port s';
          self_tor_control_port := _tor_control_port s';
          self_tor_start_time := _tor_start_time s';
          self_tbb_path := _tbb_path s';
          self_tbb_profile_path := _tbb_profile_path s' |},
       s')
  | (Raise err, s') => (Raise err, b, s')
  end.

(** [NativeBrowserBackend.stop_tor] *)
Definition backend_stop_tor (b : backend) (s : state) : backend * state :=
  ({| self_tor_process := None;
      self_tor_socks_port := None;
      self_tor_control_port := None;
      self_tor_start_time := None;
      self_tbb_path := self_tbb_path b;
      self_tbb_profile_path := self_tbb_profile_path b |},
   _kill_tor s).

(** The truth value Python gives an [Optional[int]]. *)
Definition truthy_int (o : option Z) : bool :=
  match o with
  | Some n => negb (n =? 0)
  | None => false
  end.

(** [self._tor_socks_port or _tor_socks_port or 9150] *)
Definition get_socks_port (b : backend) (s : state) : Z :=
  if truthy_int (self_tor_socks_port b) then default 0 (self_tor_socks_port b)
  else if truthy_int (_tor_socks_port s) then default 0 (_tor_socks_port s)
  else 9150.

(** The proxy that [get_sources] hands to [DDGS]. *)
Definition ddgs_proxy (b : backend) (s : state) : string :=
  "socks5h://127.0.0.1:" +:+ str_of_int (get_socks_port b s).

(** ** Locating the Tor Browser bundle and its profile
    What the path resolution of [server.py] asks of the operating system
    and of tbselenium: the platform name, the environment variables, the
    file-system predicates and path functions of [os.path], the directory
    listing (None for an [OSError]), whether the platform's tbselenium
    package can be imported, the finders of [tbselenium_macos.utils] and
    [tbselenium_windows.utils], the constant [DEFAULT_TBB_PROFILE_PATH], and
    what [configparser] reads from a [profiles.ini]: its sections in order,
    each with its name and its [parser.get(section, option, fallback=...)],
    None when the option is missing. *)
Record ini_section := {
  section_name : string;
  option_get : string → result (option string)
}.

Record os_env := {
  sys_platform : string;
  environ : gmap string string;
  isdir : string → bool;
  isfile : string → bool;
  path_exists : string → bool;
  path_join : string → string → string;
  abspath : string → string;
  expanduser : string → string;
  script_dir : string;
  listdir : string → option (list string);
  tbselenium_import_error : option string;
  find_tor_browser_app : result (option string);
  find_tor_browser_dir : result (option string);
  DEFAULT_TBB_PROFILE_PATH : string;
  read_profiles_ini : string → result (list ini_section)
}.

Definition _is_macos (o : os_env) : bool := String.eqb (sys_platform o) "darwin".
Definition _is_windows (o : os_env) : bool := String.eqb (sys_platform o) "win32".
Definition _is_linux (o : os_env) : bool := String.prefix "linux" (sys_platform o).

(** [_needs_virtual_display] *)
Definition _needs_virtual_display (o : os_env) : bool :=
  if negb (_is_linux o) then false else negb (truthy (environ o !! "DISPLAY")).

(** [_ensure_tbselenium] *)
Definition _ensure_tbselenium (o : os_env) : result unit :=
  match tbselenium_import_error o with
  | Some msg => Raise (OtherError msg)
  | None => Return tt
  end.

(** [s.endswith(suffix)] *)
Definition ends_with (suffix s : string) : bool :=
  (String.length suffix <=? String.length s)%nat
  && String.eqb (String.substring (String.length s - String.length suffix)
                   (String.length suffix) s) suffix.

(** The places [_find_tor_browser_linux] looks in, in its order. *)
Definition search_paths (o : os_env) : list string :=
  [ path_join o (path_join o (script_dir o) "components") "tor-browser";
    expanduser o "~/tor-browser";
    expanduser o "~/.tor-browser";
    "/opt/tor-browser";
    "/usr/local/tor-browser" ].

(** A directory that holds [Browser/firefox]. *)
Definition is_bundle (o : os_env) (path : string) : bool :=
  isdir o path && path_exists o (path_join o (path_join o path "Browser") "firefox").

(** [_find_tor_browser_linux] *)
Definition _find_tor_browser_linux (o : os_env) : option string :=
  List.find (is_bundle o) (search_paths o).

(** [a or b] on two [Optional[str]] *)
Definition py_or (a b : option string) : option string :=
  if truthy a then a else b.

(** The candidate of [_resolve_tbb_path] before it is normalised. *)
Definition tbb_candidate (o : os_env) (explicit_path : option string)
    : result (option string) :=
  let candidate :=
    if truthy explicit_path then explicit_path
    else py_or (environ o !! "TBB_PATH") (environ o !! "TOR_BROWSER_PATH") in
  if truthy candidate then Return candidate
  else if _is_macos o then
    match _ensure_tbselenium o with
    | Raise err => Raise err
    | Return _ => find_tor_browser_app o
    end
  else if _is_windows o then
    match _ensure_tbselenium o with
    | Raise err => Raise err
    | Return _ => find_tor_browser_dir o
    end
  else Return (_find_tor_browser_linux o).

(** [candidate = abspath(expanduser(candidate)); return candidate if
    isdir(candidate) else None] *)
Definition existing_directory (o : os_env) (candidate : string) : option string :=
  let candidate := abspath o (expanduser o candidate) in
  if isdir o candidate then Some candidate else None.

(** [_resolve_tbb_path(explicit_path)] *)
Definition _resolve_tbb_path (o : os_env) (explicit_path : option string)
    : result (option string) :=
  match tbb_candidate o explicit_path with
  | Raise err => Raise err
  | Return candidate =>
      if truthy candidate
      then Return (existing_directory o (default EmptyString candidate))
      else Return None
  end.

(** The loop over [parser.sections()]: the directory of the first default
    profile that exists. *)
Fixpoint default_profile (o : os_env) (support_base : string) (sections : list ini_section)
    : result (option string) :=
  match sections with
  | [] => Return None
  | section :: later =>
      if negb (String.prefix "Profile" (section_name section))
      then default_profile o support_base later
      else
        match option_get section "Default" with
        | Raise err => Raise err
        | Return is_default =>
            if String.eqb (default "0" is_default) "1" then
              match option_get section "Path" with
              | Raise err => Raise err
              | Return path =>
                  let path_value := default EmptyString path in
                  match option_get section "IsRelative" with
                  | Raise err => Raise err
                  | Return relative =>
                      let is_relative := String.eqb (default "1" relative) "1" in
                      if negb (String.eqb path_value EmptyString) then
                        let candidate :=
                          if is_relative then path_join o support_base path_value
                          else path_value in
                        match existing_directory o candidate with
                        | Some found => Return (Some found)
                        | None => default_profile o support_base later
                        end
                      else default_profile o support_base later
                  end
              end
            else default_profile o support_base later
        end
  end.

(** The final fallback: the first directory whose name ends with
    [.default]. *)
Definition first_default_directory (o : os_env) (support_base : string) : option string :=
  match listdir o support_base with
  | None => None
  | Some names =>
      List.find (isdir o)
        (path_join o support_base <$> filter (λ name, ends_with ".default" name = true) names)
  end.

(** The profile outside the bundle, under [support_base]. *)
Definition profile_under (o : os_env) (support_base : string) : result (option string) :=
  if negb (isdir o support_base) then Return None
  else
    let profiles_ini := path_join o support_base "profiles.ini" in
    let listed :=
      if isfile o profiles_ini then
        match read_profiles_ini o profiles_ini with
        | Raise err => Raise err
        | Return sections => default_profile o support_base sections
        end
      else Return None in
    match listed with
    | Raise err => Raise err
    | Return (Some found) => Return (Some found)
    | Return None => Return (first_default_directory o support_base)
    end.

(** [_resolve_profile_path(tbb_path, explicit_profile_path)] *)
Definition _resolve_profile_path (o : os_env) (tbb_path : string)
    (explicit_profile_path : option string) : result (option string) :=
  if truthy explicit_profile_path
  then Return (existing_directory o (default EmptyString explicit_profile_path))
  else
    match _ensure_tbselenium o with
    | Raise err => Raise err
    | Return _ =>
        let bundle_profile := path_join o tbb_path (DEFAULT_TBB_PROFILE_PATH o) in
        if isdir o bundle_profile then Return (Some bundle_profile)
        else if _is_macos o then
          profile_under o
            (expanduser o "~/Library/Application Support/TorBrowser-Data/Browser")
        else if _is_windows o then Return None
        else
          let support_base := expanduser o "~/.tor-browser/Browser/TorBrowser/Data/Browser" in
          profile_under o
            (if negb (isdir o support_base)
             then expanduser o "~/tor-browser/Browser/TorBrowser/Data/Browser"
             else support_base)
    end.

(** A Linux machine on which only the bundle that the installer puts
    beside the server exists, and a bundle directory is given by hand. *)
Definition demo_os : os_env :=
  {| sys_platform := "linux";
     environ := {[ "TBB_PATH" := "/not/there"; "TOR_BROWSER_PATH" := "/srv/components/tor-browser" ]};
     isdir := λ p, bool_decide (p ∈ [ "/srv/components/tor-browser";
                                      "/srv/components/tor-browser/profile" ]);
     isfile := λ _, false;
     path_exists := λ p, String.eqb p "/srv/components/tor-browser/Browser/firefox";
     path_join := λ a b, a +:+ "/" +:+ b;
     abspath := λ p, p;
     expanduser := λ p, p;
     script_dir := "/srv";
     listdir := λ _, None;
     tbselenium_import_error := None;
     find_tor_browser_app := Return None;
     find_tor_browser_dir := Return None;
     DEFAULT_TBB_PROFILE_PATH := "profile";
     read_profiles_ini := λ _, Return [] |}.

(** ** The installer: what to download *)

(** * The installer ([installer.py]) *)
(** [detect_platform]: [os_name] is [sys.platform] and [machine] is
    [platform.machine().lower()]. *)
Definition detect_platform (os_name machine : string) : result (string * string) :=
  if bool_decide (machine ∈ ["x86_64"; "amd64"]) then Return (os_name, "x86_64")
  else if bool_decide (machine ∈ ["arm64"; "aarch64"])
  then Return (os_name, if String.eqb os_name "darwin" then "arm64" else "aarch64")
  else Raise (RuntimeError ("Unsupported architecture: " +:+ machine)).

(** The name of the release asset that [get_geckodriver_url] picks. *)
Definition geckodriver_filename (version os_name arch : string) : result string :=
  if String.eqb os_name "darwin" then
    if String.eqb arch "arm64"
    then Return ("geckodriver-" +:+ version +:+ "-macos-aarch64.tar.gz")
    else Return ("geckodriver-" +:+ version +:+ "-macos.tar.gz")
  else if String.eqb os_name "linux" then
    if String.eqb arch "aarch64"
    then Return ("geckodriver-" +:+ version +:+ "-linux-aarch64.tar.gz")
    else Return ("geckodriver-" +:+ version +:+ "-linux64.tar.gz")
  else if String.eqb os_name "win32"
  then Return ("geckodriver-" +:+ version +:+ "-win64.zip")
  else Raise (RuntimeError ("Unsupported platform: " +:+ os_name)).

(** [get_geckodriver_url(os_name, arch)]; [latest] is what
    [fetch_latest_geckodriver_version()] gives, the tag of the latest
    release or an exception of the network. *)
Definition get_geckodriver_url (latest : result string) (os_name arch : string)
    : result (string * string) :=
  match latest with
  | Raise err => Raise err
  | Return version =>
      match geckodriver_filename version os_name arch with
      | Raise err => Raise err
      | Return filename =>
          Return (version,
                  "https://github.com/mozilla/geckodriver/releases/download/"
                  +:+ version +:+ "/" +:+ filename)
      end
  end.

(** How step 3 of [main] unpacks the geckodriver archive:
    [setup_geckodriver_windows] opens it with [zipfile], [setup_geckodriver]
    with [tarfile] in mode ["r:gz"]. *)
Inductive archive := TarGz | Zip.

Definition geckodriver_archive (os_name : string) : archive :=
  if String.eqb os_name "win32" then Zip else TarGz.

Definition archive_suffix (a : archive) : string :=
  match a with TarGz => ".tar.gz" | Zip => ".zip" end.

(** The ["downloads"] object of the Tor Project's [downloads.json]:
    platform, then locale, then kind of file. *)
Definition downloads := gmap string (gmap string (gmap string string)).

(** [downloads.get(platform, {}).get("ALL", {}).get("binary")] *)
Definition binary_for (d : downloads) (platform : string) : option string :=
  default ∅ (default ∅ (d !! platform) !! "ALL") !! "binary".

(** [value or fallback] *)
Definition or_else (value : option string) (fallback : string) : string :=
  if truthy value then default EmptyString value else fallback.

(** The dict of URLs that [fetch_latest_tor_browser_version] builds. *)
Definition tor_browser_urls (version : string) (d : downloads) : gmap string string :=
  let base_url := "https://dist.torproject.org/torbrowser/" +:+ version in
  <["darwin" := or_else (binary_for d "macos")
                  (base_url +:+ "/tor-browser-macos-" +:+ version +:+ ".dmg")]>
  (<["linux_x86_64" := or_else (binary_for d "linux-x86_64")
                         (base_url +:+ "/tor-browser-linux-x86_64-" +:+ version +:+ ".tar.xz")]>
  (<["linux_aarch64" := or_else (binary_for d "linux-aarch64")
                          (base_url +:+ "/tor-browser-linux-aarch64-" +:+ version +:+ ".tar.xz")]>
  (<["win32_x86_64" := or_else (binary_for d "win64")
                         (base_url +:+ "/tor-browser-windows-x86_64-portable-" +:+ version
                          +:+ ".exe")]>
  (<["win32_aarch64" := or_else (binary_for d "win64")
                          (base_url +:+ "/tor-browser-windows-x86_64-portable-" +:+ version
                           +:+ ".exe")]> ∅)))).

(** [get_tor_browser_url(os_name, arch)]; [latest] is the version and the
    downloads that the Tor Project's API gives, or an exception of the
    network. *)
Definition get_tor_browser_url (latest : result (string * downloads)) (os_name arch : string)
    : result (string * string) :=
  match latest with
  | Raise err => Raise err
  | Return (version, d) =>
      let urls := tor_browser_urls version d in
      let found :=
        if String.eqb os_name "darwin" then Return (urls !! "darwin")
        else if String.eqb os_name "linux" then Return (urls !! ("linux_" +:+ arch))
        else if String.eqb os_name "win32" then Return (urls !! ("win32_" +:+ arch))
        else Raise (RuntimeError ("Unsupported platform: " +:+ os_name)) in
      match found with
      | Raise err => Raise err
      | Return url =>
          if truthy url then Return (version, default EmptyString url)
          else Raise (RuntimeError ("No Tor Browser download available for "
                                    +:+ os_name +:+ "/" +:+ arch))
      end
  end.

(** The file that step 4 of [main] expects on each platform: a disk image,
    a tarball for [tar -xJf], an installer. *)
Definition tor_browser_suffix (os_name : string) : string :=
  if String.eqb os_name "darwin" then ".dmg"
  else if String.eqb os_name "linux" then ".tar.xz"
  else ".exe".

(** ** The installer: the config file *)

(** ** The region of [config.toml]
    The text of a file is a [string]; [open()] in text mode gives the
    characters that were written as long as they hold no carriage return. *)
(** [str.isspace] on the code points below 256: 9..13, 28..32, 133, 160. *)
Definition is_whitespace (c : Ascii.ascii) : bool :=
  is_space c
  || (Ascii.nat_of_ascii c =? 133)%nat || (Ascii.nat_of_ascii c =? 160)%nat.

(** [s.lstrip(...)], [s.rstrip(...)] and [s.strip(...)] for the characters
    that [p] accepts. *)
Fixpoint lstrip_with (p : Ascii.ascii → bool) (s : string) : string :=
  match s with
  | EmptyString => EmptyString
  | String c s' => if p c then lstrip_with p s' else s
  end.

Fixpoint rstrip_with (p : Ascii.ascii → bool) (s : string) : string :=
  match s with
  | EmptyString => EmptyString
  | String c s' =>
      match rstrip_with p s' with
      | EmptyString => if p c then EmptyString else String c EmptyString
      | r => String c r
      end
  end.

Definition strip_with (p : Ascii.ascii → bool) (s : string) : string :=
  rstrip_with p (lstrip_with p s).

(** [s.strip()] and [s.strip(c)] for a single character [c] *)
Definition strip (s : string) : string := strip_with is_whitespace s.
Definition strip_char (c : Ascii.ascii) (s : string) : string := strip_with (Ascii.eqb c) s.

Definition dquote_char : Ascii.ascii := Ascii.ascii_of_nat 34.
Definition quote_char : Ascii.ascii := Ascii.ascii_of_nat 39.
Definition equals_char : Ascii.ascii := Ascii.ascii_of_nat 61.
Definition return_char : Ascii.ascii := Ascii.ascii_of_nat 13.

(** [s.split(c, 1)] when it gives two parts. *)
Fixpoint split_once (c : Ascii.ascii) (s : string) : option (string * string) :=
  match s with
  | EmptyString => None
  | String x s' =>
      if Ascii.eqb x c then Some (EmptyString, s')
      else match split_once c s' with
           | Some (before, after) => Some (String x before, after)
           | None => None
           end
  end.

(** The lines that [for line in f] gives, each with its newline. *)
Fixpoint file_lines (text : string) : list string :=
  match text with
  | EmptyString => []
  | String c rest =>
      if Ascii.eqb c newline_char then nl :: file_lines rest
      else match file_lines rest with
           | [] => [String c EmptyString]
           | line :: later => String c line :: later
           end
  end.

(** The loop of [read_existing_region] over the lines of the file. *)
Fixpoint region_in (lines : list string) : option string :=
  match lines with
  | [] => None
  | line :: later =>
      if String.prefix "region" (strip line) then
        match split_once equals_char line with
        | Some (_, value) =>
            Some (strip_char quote_char (strip_char dquote_char (strip value)))
        | None => region_in later
        end
      else region_in later
  end.

(** [read_existing_region()]; [config_file] is the text of [config.toml],
    None when the file does not exist or cannot be read. *)
Definition read_existing_region (config_file : option string) : option string :=
  match config_file with
  | None => None
  | Some text => region_in (file_lines text)
  end.

(** [prompt_region()]; [user_input] is what [input(...)] returns. *)
Definition prompt_region (user_input : string) : string :=
  let user_input := strip user_input in
  if String.eqb user_input EmptyString then "us-en" else user_input.

(** The text of several lines, each followed by a newline. *)
Definition unlines (lines : list string) : string :=
  foldr (λ line text, line +:+ nl +:+ text) EmptyString lines.

(** The lines of the f-string of [write_config], down to the region and
    from there on. *)
Definition config_head (os_name region : string) : list string :=
  [ "# Tor-Search MCP Server Configuration";
    "# Generated by installer.py";
    EmptyString;
    "[server]";
    "platform = " +:+ dquote +:+ os_name +:+ dquote;
    "mode = " +:+ dquote +:+ "native" +:+ dquote;
    EmptyString;
    "[search]";
    "region = " +:+ dquote +:+ region +:+ dquote ].

Definition config_tail (tbb_path geckodriver_path : string) : list string :=
  [ "safesearch = " +:+ dquote +:+ "off" +:+ dquote;
    "max_results_per_query = 5";
    EmptyString;
    "[browser]";
    "tbb_path = " +:+ dquote +:+ tbb_path +:+ dquote;
    "geckodriver_path = " +:+ dquote +:+ geckodriver_path +:+ dquote;
    "page_timeout = 10";
    "overall_timeout = 60";
    "max_concurrent_tabs = 5";
    EmptyString;
    "[tor]";
    "keepalive_seconds = 120";
    "data_dir = " +:+ dquote +:+ "tor_data" +:+ dquote ].

(** [s.replace("\\", "/")] *)
Fixpoint forward_slashes (s : string) : string :=
  match s with
  | EmptyString => EmptyString
  | String c s' =>
      String (if Ascii.eqb c (Ascii.ascii_of_nat 92) then Ascii.ascii_of_nat 47 else c)
        (forward_slashes s')
  end.

(** [write_config(os_name, region)]: the text written to [config.toml];
    [component name] is [str(COMPONENTS_DIR / name)]. *)
Definition write_config (component : string → string) (os_name region : string) : string :=
  let '(tbb_path, geckodriver_path) :=
    if String.eqb os_name "darwin"
    then (component "Tor Browser.app", component "geckodriver")
    else if String.eqb os_name "linux"
    then (component "tor-browser", component "geckodriver")
    else (forward_slashes (component "TorBrowser"),
          forward_slashes (component "geckodriver.exe")) in
  unlines (config_head os_name region ++ config_tail tbb_path geckodriver_path).

(** Steps 5 and 6 of [main]: the region of an existing [config.toml] is
    kept, otherwise the user is asked; then the file is written. *)
Definition configure (component : string → string) (os_name : string)
    (config_file : option string) (user_input : string) : string :=
  let region :=
    if truthy (read_existing_region config_file)
    then default EmptyString (read_existing_region config_file)
    else prompt_region user_input in
  write_config component os_name region.

(** A word: no white space in it. *)
Fixpoint no_whitespace (s : string) : bool :=
  match s with
  | EmptyString => true
  | String c s' => negb (is_whitespace c) && no_whitespace s'
  end.

(** No line break in a value. *)
Fixpoint one_line (s : string) : bool :=
  match s with
  | EmptyString => true
  | String c s' =>
      negb (Ascii.eqb c newline_char) && negb (Ascii.eqb c return_char) && one_line s'
  end.

(** A value that neither starts nor ends with a quote character. *)
Definition unquoted (s : string) : Prop :=
  ∀ c, c = dquote_char ∨ c = quote_char →
       lstrip_with (Ascii.eqb c) s = s ∧ rstrip_with (Ascii.eqb c) s = s.

(** A page that stays blank and never leaves the state [loading]. *)
Definition blank_page : response :=
  {| raises := None;
     elapsed := 10%N;
     ready_state := "loading";
     connection_error_page := false;
     page_source := EmptyString |}.

(** Where the collection of a single blank tab, opened at time 1000 in a
    browser just launched, leaves the browser with a page timeout of one
    second. *)
Definition blank_tab_left : world :=
  Eval vm_compute in
    snd (_collect_batch (λ _, blank_page) [(0%nat, "https://a.example/1")]
           (<["https://a.example/1" := 1000]> ∅) 1 None launched).

(** ** Vocabulary of a run in which no call on the driver raises *)

(** No call on the driver raises by itself. *)
Definition quiet (script : nat → response) : Prop := ∀ k, raises (script k) = None.

(** The open windows and the window under focus. *)
Definition at_tabs (ws : list handle) (c : handle) (w : world) : Prop :=
  window_handles w = ws ∧ current_window w = c.

(** One window is open, and it has the focus. *)
Definition settled (w : world) : Prop := window_handles w = [current_window w].

(** The windows still to visit are the open ones, or none is left to visit
    and the browser is settled. *)
Definition visiting (todo : list handle) (w : world) : Prop :=
  NoDup todo
  ∧ ((todo ≠ [] ∧ window_handles w ≡ₚ todo) ∨ (todo = [] ∧ settled w)).

(** The display and the driver start. *)
Definition launches (e : browser_env) : Prop :=
  (virtual_display e = DisplayNotNeeded ∨ virtual_display e = DisplayStarted)
  ∧ driver_launch_error e = None.

(** From a world in [P] the computation returns, in a world in [Q]. *)
Definition succeeds {A} (P : world → Prop) (m : drv A) (Q : A → world → Prop) : Prop :=
  ∀ w, P w → ∃ a w', m w = (Return a, w') ∧ Q a w'.

Definition after_close (ws : list handle) (c : handle) : list handle :=
  if (1 <? length ws)%nat then filter (λ x, x ≠ c) ws else ws.

(** The browser as the loop over the batches finds it: just launched, and
    [set_page_load_timeout] answered. *)
Definition loaded_browser (e : browser_env) : world :=
  answered (driver_script e 0%nat) (fresh_browser (before_launch e)).

(** [deadline], as [_fetch_urls_with_browser] sets it. *)
Definition overall_deadline (e : browser_env) (overall_timeout : Z) : option Z :=
  if 0 <? overall_timeout then Some (total_start e + seconds overall_timeout) else None.

(** ** Calls that leave a generation as it is *)


(** * Properties *)

(** ** Session lifecycle *)

Lemma kill_tor_not_running (s : state) : is_tor_running (_kill_tor s) = false.
Proof. unfold is_tor_running, _kill_tor. destruct (_tor_process s) eqn:E; simpl; [done | by rewrite E]. Qed.

Lemma kill_tor_results (s : state) :
  _last_search_results (_kill_tor s) = _last_search_results s.
Proof. unfold _kill_tor. by destruct (_tor_process s). Qed.

Lemma kill_tor_flag (s : state) :
  _fetch_pages_called (_kill_tor s) = _fetch_pages_called s.
Proof. unfold _kill_tor. by destruct (_tor_process s). Qed.

Lemma kill_tor_idle (s : state) : is_tor_running s = false → _kill_tor s = s.
Proof. unfold is_tor_running, _kill_tor. by destruct (_tor_process s). Qed.

Lemma kill_tor_forgets_start_time (t : option Z) (s : state) :
  is_tor_running s = true → _kill_tor (set_tor_start_time t s) = _kill_tor s.
Proof. unfold is_tor_running, _kill_tor. simpl. by destruct (_tor_process s). Qed.

Lemma start_tor_raise (e : tor_env) (s s' : state) (err : exn) :
  _start_tor e s = (Raise err, s') → s' = s.
Proof.
  unfold _start_tor. intros H.
  repeat (case_match; simplify_eq); done.
Qed.

Lemma start_tor_return (e : tor_env) (s s' : state) (u : unit) :
  _start_tor e s = (Return u, s') →
  is_tor_running s' = true ∧ _tor_start_time s' = Some (start_clock e)
  ∧ truthy (_tbb_path s') = true ∧ truthy (_tbb_profile_path s') = true
  ∧ _last_search_results s' = _last_search_results s
  ∧ _fetch_pages_called s' = _fetch_pages_called s.
Proof.
  unfold _start_tor. intros H.
  repeat (case_match; simplify_eq). simpl.
  repeat split; by apply negb_true_iff.
Qed.

(** The only fields of the state that [_start_tor] reads are the two it
    copies. *)
Lemma start_tor_ignores_start_time (e : tor_env) (t : option Z) (s : state) :
  fst (_start_tor e (set_tor_start_time t s)) = fst (_start_tor e s)
  ∧ (returned (fst (_start_tor e s)) = true →
     snd (_start_tor e (set_tor_start_time t s)) = snd (_start_tor e s)).
Proof.
  unfold _start_tor. repeat case_match; simpl; done.
Qed.

Lemma running_ignores_start_time (t : option Z) (s : state) :
  is_tor_running (set_tor_start_time t s) = is_tor_running s.
Proof. done. Qed.

Lemma restart_ignores_start_time (e : tor_env) (t : option Z) (s : state) :
  let restart := λ s0, start_tor e (if is_tor_running s0 then stop_tor s0 else s0) in
  fst (restart (set_tor_start_time t s)) = fst (restart s)
  ∧ (returned (fst (restart s)) = true →
     snd (restart (set_tor_start_time t s)) = snd (restart s))
  ∧ (returned (fst (restart s)) = false →
     is_tor_running (snd (restart (set_tor_start_time t s))) = false
     ∧ is_tor_running (snd (restart s)) = false).
Proof.
  simpl. rewrite running_ignores_start_time. unfold start_tor, stop_tor.
  destruct (is_tor_running s) eqn:Hrun.
  - rewrite kill_tor_forgets_start_time by done.
    split; [done|]. split; [done|]. intros Hfail.
    destruct (_start_tor e (_kill_tor s)) as [[u|err] s'] eqn:Hstart; [done|].
    apply start_tor_raise in Hstart as ->. simpl.
    by rewrite kill_tor_not_running.
  - destruct (start_tor_ignores_start_time e t s) as [Hfst Hsnd].
    split; [done|]. split; [done|]. intros Hfail.
    destruct (_start_tor e s) as [[u|err] s'] eqn:Hstart; [done|].
    destruct (_start_tor e (set_tor_start_time t s)) as [[u'|err'] s''] eqn:Hstart';
      simpl in *; [done|].
    apply start_tor_raise in Hstart as ->. apply start_tor_raise in Hstart' as ->.
    by rewrite running_ignores_start_time.
Qed.

Lemma get_sources_ignores_start_time (e : search_env) (queries : list string)
    (t : option Z) (s : state) :
  fst (get_sources e queries (set_tor_start_time t s)) = fst (get_sources e queries s)
  ∧ is_tor_running (snd (get_sources e queries (set_tor_start_time t s)))
    = is_tor_running (snd (get_sources e queries s)).
Proof.
  unfold get_sources. destruct queries as [|q qs]; [done|].
  destruct (3 <? length (q :: qs))%nat; [done|].
  destruct (restart_ignores_start_time (tor e) t s) as (Hfst & Hok & Hfail).
  simpl in Hfst, Hok, Hfail.
  destruct (start_tor (tor e) (if is_tor_running s then stop_tor s else s))
    as [[u|err] s2] eqn:Hs.
  - specialize (Hok eq_refl).
    destruct (start_tor (tor e) (if is_tor_running (set_tor_start_time t s)
                                 then stop_tor (set_tor_start_time t s)
                                 else set_tor_start_time t s)) as [r2 s2'] eqn:Hs'.
    simpl in *. subst. done.
  - destruct (Hfail eq_refl) as [Hr1 Hr2].
    destruct (start_tor (tor e) (if is_tor_running (set_tor_start_time t s)
                                 then stop_tor (set_tor_start_time t s)
                                 else set_tor_start_time t s)) as [r2 s2'] eqn:Hs'.
    simpl in *. subst. simpl. unfold stop_tor.
    by rewrite !kill_tor_not_running.
Qed.

Lemma fetch_specific_page_ignores_start_time (cfg : config) (e : direct_env)
    (u : string) (t : option Z) (s : state) :
  fst (fetch_specific_page cfg e u (set_tor_start_time t s))
  = fst (fetch_specific_page cfg e u s)
  ∧ is_tor_running (snd (fetch_specific_page cfg e u (set_tor_start_time t s)))
    = is_tor_running (snd (fetch_specific_page cfg e u s)).
Proof.
  unfold fetch_specific_page.
  destruct (restart_ignores_start_time (direct_tor e) t s) as (Hfst & Hok & Hfail).
  simpl in Hfst, Hok, Hfail.
  destruct (start_tor (direct_tor e) (if is_tor_running s then stop_tor s else s))
    as [[v|err] s2] eqn:Hs.
  - specialize (Hok eq_refl).
    destruct (start_tor (direct_tor e) (if is_tor_running (set_tor_start_time t s)
                                        then stop_tor (set_tor_start_time t s)
                                        else set_tor_start_time t s)) as [r2 s2'] eqn:Hs'.
    simpl in *. subst. done.
  - destruct (Hfail eq_refl) as [Hr1 Hr2].
    destruct (start_tor (direct_tor e) (if is_tor_running (set_tor_start_time t s)
                                        then stop_tor (set_tor_start_time t s)
                                        else set_tor_start_time t s)) as [r2 s2'] eqn:Hs'.
    simpl in *. subst. simpl. unfold stop_tor.
    by rewrite !kill_tor_not_running.
Qed.

(** C6.  [_check_tor_timeout] answers false, without touching anything,
    when no session is active; when a session is active it answers false
    and tears the session down if the time elapsed since the start
    timestamp is strictly greater than the keepalive period, and answers
    true and leaves the session as it is otherwise (also when the elapsed
    time equals the period).  No other operation reaps an idle session:
    [is_tor_running], [get_sources] and [fetch_specific_page] never look
    at the age of the session (their outcome, and whether a session runs
    afterwards, is the same for every start timestamp), and a
    [fetch_pages] call that is turned down before it reaches the timeout
    check leaves the state as it found it. *)
Theorem check_tor_timeout_is_the_only_reaper (cfg : config) (now : Z) (s : state) :
  ((_tor_process s = None ∨ _tor_start_time s = None) →
     _check_tor_timeout cfg now s = (false, s))
  ∧ (∀ p started, _tor_process s = Some p → _tor_start_time s = Some started →
       (seconds (TOR_KEEPALIVE_SECONDS cfg) < now - started →
          _check_tor_timeout cfg now s = (false, _kill_tor s)
          ∧ is_tor_running (_kill_tor s) = false
          ∧ _tor_start_time (_kill_tor s) = None)
       ∧ (now - started ≤ seconds (TOR_KEEPALIVE_SECONDS cfg) →
          _check_tor_timeout cfg now s = (true, s) ∧ is_tor_running s = true))
  ∧ (∀ t, is_tor_running (set_tor_start_time t s) = is_tor_running s)
  ∧ (∀ t e queries,
       fst (get_sources e queries (set_tor_start_time t s)) = fst (get_sources e queries s)
       ∧ is_tor_running (snd (get_sources e queries (set_tor_start_time t s)))
         = is_tor_running (snd (get_sources e queries s)))
  ∧ (∀ t e u,
       fst (fetch_specific_page cfg e u (set_tor_start_time t s))
       = fst (fetch_specific_page cfg e u s)
       ∧ is_tor_running (snd (fetch_specific_page cfg e u (set_tor_start_time t s)))
         = is_tor_running (snd (fetch_specific_page cfg e u s)))
  ∧ (∀ e indexes,
       (_last_search_results s = [] ∨ _fetch_pages_called s = true) →
       snd (fetch_pages cfg e indexes s) = s).
Proof.
  split; [|split; [|split; [|split; [|split]]]].
  - unfold _check_tor_timeout. intros [-> | ->]; [done|]. by destruct (_tor_process s).
  - intros p started Hp Ht. unfold _check_tor_timeout. rewrite Hp, Ht. simpl. split.
    + intros Hlt. apply Z.ltb_lt in Hlt. rewrite Hlt.
      split; [done|]. split; [apply kill_tor_not_running|].
      unfold _kill_tor. by rewrite Hp.
    + intros Hle. apply Z.ltb_ge in Hle. rewrite Hle.
      split; [done|]. unfold is_tor_running. by rewrite Hp.
  - done.
  - intros t e queries. apply get_sources_ignores_start_time.
  - intros t e u. apply fetch_specific_page_ignores_start_time.
  - intros e indexes H. unfold fetch_pages, validate_request.
    destruct (_last_search_results s) as [|it found]; [done|].
    destruct H as [H|H]; [done|]. by rewrite H.
Qed.

Lemma check_tor_timeout_is_the_only_reaper_witness :
  _check_tor_timeout default_config 5000 initial_state = (false, initial_state)
  ∧ _check_tor_timeout default_config 120001 demo_searched = (false, _kill_tor demo_searched)
  ∧ _check_tor_timeout default_config 120000 demo_searched = (true, demo_searched)
  ∧ snd (fetch_pages default_config (demo_fetch 500000) [1] initial_state) = initial_state.
Proof.
  destruct (check_tor_timeout_is_the_only_reaper default_config 5000 initial_state)
    as (Hnone & _ & _ & _ & _ & Hfetch).
  destruct (check_tor_timeout_is_the_only_reaper default_config 120001 demo_searched)
    as (_ & Hlate & _).
  destruct (check_tor_timeout_is_the_only_reaper default_config 120000 demo_searched)
    as (_ & Hedge & _).
  split; [apply Hnone; by left|].
  split; [apply (Hlate 4242%nat 0); [reflexivity | reflexivity | vm_compute; reflexivity]|].
  split; [apply (Hedge 4242%nat 0); [reflexivity | reflexivity | vm_compute; discriminate]|].
  apply Hfetch. by left.
Defined.

(** ** Validation of a search *)

Lemma get_sources_invalid_queries (e : search_env) (queries : list string) (s : state) :
  queries = [] ∨ (3 < length queries)%nat →
  ∃ msg, get_sources e queries s = (Raise (ValueError msg), s).
Proof.
  intros [-> | Hlen]; [by eexists|].
  unfold get_sources. destruct queries as [|q qs]; [by eexists|].
  apply Nat.ltb_lt in Hlen. rewrite Hlen. by eexists.
Qed.

(** C7.  A [get_sources] call with an empty list of queries, or with more
    than three, raises a [ValueError] and returns the state it was given:
    the session is not restarted, and the stored results, the generation
    and the fetched-once flag are what they were. *)
Theorem get_sources_rejects_before_any_effect (e : search_env) (queries : list string)
    (s : state) :
  queries = [] ∨ (3 < length queries)%nat →
  ∃ msg,
    get_sources e queries s = (Raise (ValueError msg), s)
    ∧ (msg = no_query ∨ msg = too_many_queries).
Proof.
  intros Hbad. unfold get_sources.
  destruct queries as [|q qs]; [exists no_query; by split; [|left]|].
  destruct Hbad as [? | Hlen]; [done|].
  apply Nat.ltb_lt in Hlen. rewrite Hlen. exists too_many_queries. by split; [|right].
Qed.

Lemma get_sources_rejects_before_any_effect_witness :
  (∃ msg, get_sources demo_search [] demo_searched = (Raise (ValueError msg), demo_searched)
          ∧ (msg = no_query ∨ msg = too_many_queries))
  ∧ (∃ msg, get_sources demo_search ["a"; "b"; "c"; "d"] demo_searched
            = (Raise (ValueError msg), demo_searched)
            ∧ (msg = no_query ∨ msg = too_many_queries)).
Proof.
  split.
  - apply (get_sources_rejects_before_any_effect demo_search [] demo_searched). by left.
  - apply (get_sources_rejects_before_any_effect demo_search ["a"; "b"; "c"; "d"]
             demo_searched). right. simpl. lia.
Defined.

(** ** The result indexer *)

Lemma surviving_app (earlier a b : list (gmap string string)) :
  surviving earlier (a ++ b) = surviving earlier a ++ surviving (earlier ++ a) b.
Proof.
  revert earlier. induction a as [|r a IH]; intros earlier; simpl.
  - by rewrite app_nil_r.
  - rewrite IH, <- app_assoc. simpl. by case_bool_decide.
Qed.

Lemma surviving_urls_fresh (earlier hits : list (gmap string string)) (r : gmap string string) :
  r ∈ surviving earlier hits → field "href" r ∉ field "href" <$> earlier.
Proof.
  revert earlier. induction hits as [|h hits IH]; intros earlier; simpl.
  - by intros ?%elem_of_nil.
  - case_bool_decide as Hin.
    + intros Hr%IH. rewrite fmap_app in Hr. set_solver.
    + intros [->|Hr%IH]%elem_of_cons; [done|]. rewrite fmap_app in Hr. set_solver.
Qed.

Lemma surviving_urls_NoDup (earlier hits : list (gmap string string)) :
  NoDup (field "href" <$> surviving earlier hits).
Proof.
  revert earlier. induction hits as [|h hits IH]; intros earlier; simpl.
  - constructor.
  - case_bool_decide as Hin; [apply IH|].
    rewrite fmap_cons. constructor; [|apply IH].
    intros (r & Heq & Hr)%list_elem_of_fmap.
    apply surviving_urls_fresh in Hr. rewrite fmap_app in Hr.
    apply Hr. rewrite <- Heq. set_solver.
Qed.

Lemma surviving_urls_complete (earlier hits : list (gmap string string)) (u : string) :
  u ∈ field "href" <$> (earlier ++ hits) ↔
  u ∈ field "href" <$> earlier ∨ u ∈ field "href" <$> surviving earlier hits.
Proof.
  revert earlier. induction hits as [|h hits IH]; intros earlier; simpl.
  - rewrite app_nil_r. set_solver.
  - rewrite (cons_middle h earlier hits), app_assoc, IH.
    case_bool_decide as Hin; rewrite !fmap_app, ?fmap_cons; set_solver.
Qed.

Lemma surviving_sublist (earlier hits : list (gmap string string)) :
  sublist (surviving earlier hits) hits.
Proof.
  revert earlier. induction hits as [|h hits IH]; intros earlier; simpl; [done|].
  case_bool_decide; [by apply sublist_cons | by apply sublist_skip].
Qed.

Lemma filter_agree {A} (P Q : A → Prop) `{∀ x, Decision (P x)} `{∀ x, Decision (Q x)}
    (l : list A) :
  (∀ x, x ∈ l → P x ↔ Q x) → filter P l = filter Q l.
Proof.
  induction l as [|x l IH]; intros Hl; [done|].
  rewrite !filter_cons.
  rewrite IH by (intros y Hy; apply Hl; by right).
  destruct (Hl x) as [H1 H2]; [by left|].
  repeat case_decide; naive_solver.
Qed.

Lemma surviving_NoDup_filter (earlier hits : list (gmap string string)) :
  NoDup (field "href" <$> hits) →
  surviving earlier hits
  = filter (λ r, field "href" r ∉ field "href" <$> earlier) hits.
Proof.
  revert earlier. induction hits as [|h hits IH]; intros earlier Hnd; simpl; [done|].
  rewrite fmap_cons in Hnd. apply NoDup_cons in Hnd as [Hh Hnd].
  assert (surviving (earlier ++ [h]) hits = surviving earlier hits) as ->.
  { rewrite !IH by done. apply filter_agree. intros r Hr.
    rewrite fmap_app. simpl. split; [set_solver|].
    intros Hne Hin. apply elem_of_app in Hin as [?|Hin]; [done|].
    apply list_elem_of_singleton in Hin. apply Hh. rewrite <- Hin.
    by apply list_elem_of_fmap_2. }
  rewrite filter_cons. rewrite IH by done.
  case_bool_decide; case_decide; done.
Qed.

(** What the loops of [get_sources] know about the hits met so far. *)
Definition indexed (ix : indexing) (earlier : list (gmap string string)) : Prop :=
  (∀ u, u ∈ seen_urls ix ↔ u ∈ field "href" <$> earlier)
  ∧ last_results ix = imap record_of (surviving [] earlier)
  ∧ current_index ix = 1 + Z.of_nat (length (surviving [] earlier)).

Lemma index_hit_indexed (ix : indexing) (earlier : list (gmap string string))
    (r : gmap string string) :
  indexed ix earlier → indexed (index_hit ix r) (earlier ++ [r]).
Proof.
  intros (Hseen & Hlast & Hcur). unfold indexed, index_hit.
  rewrite (surviving_app [] earlier [r]). simpl.
  case_bool_decide as Hin; case_bool_decide as Hin'; rewrite Hseen in Hin; try done.
  - split; [|by rewrite app_nil_r].
    intros u. rewrite Hseen, fmap_app. set_solver.
  - split; [|split]; simpl.
    + intros u. rewrite fmap_app. set_solver.
    + rewrite imap_app, Hlast, Hcur. simpl. by rewrite Nat.add_0_r.
    + rewrite Hcur, length_app. simpl. lia.
Qed.

Lemma index_hits_indexed (hits : list (gmap string string)) (ix : indexing)
    (earlier : list (gmap string string)) :
  indexed ix earlier → indexed (index_hits ix hits) (earlier ++ hits).
Proof.
  revert ix earlier. induction hits as [|r hits IH]; intros ix earlier Hix; simpl.
  - by rewrite app_nil_r.
  - rewrite (cons_middle r earlier hits), app_assoc.
    apply IH. by apply index_hit_indexed.
Qed.

Lemma next_query_indexed (ix : indexing) (earlier : list (gmap string string)) :
  indexed ix earlier → indexed (next_query ix) earlier.
Proof. done. Qed.

(** The loop over the queries: the stored list is the numbered list of the
    surviving hits of the queries that were answered; when no query
    raised, these are all the hits of the call. *)
Lemma search_queries_indexed (ddgs_text : string → provider_result)
    (queries : list string) (ix : indexing) (groups : list (string * list item))
    (earlier : list (gmap string string)) :
  indexed ix earlier →
  ∃ answered,
    snd (search_queries ddgs_text queries ix groups)
    = imap record_of (surviving [] (earlier ++ answered))
    ∧ (returned (fst (search_queries ddgs_text queries ix groups)) = true →
       answered = all_hits ddgs_text queries).
Proof.
  revert ix groups earlier.
  induction queries as [|q queries IH]; intros ix groups earlier Hix; simpl.
  - exists []. rewrite app_nil_r. split; [apply Hix | done].
  - destruct (ddgs_text q) as [hits|msg]; simpl.
    + destruct (IH (index_hits (next_query ix) hits)
                  (groups ++ [(q, query_results (index_hits (next_query ix) hits))])
                  (earlier ++ hits)) as (answered & Hsnd & Hall).
      { by apply index_hits_indexed, next_query_indexed. }
      exists (hits ++ answered). rewrite app_assoc. split; [done|].
      intros Hret. by rewrite Hall.
    + exists []. rewrite app_nil_r. split; [apply Hix | done].
Qed.

Lemma start_indexing_indexed : indexed start_indexing [].
Proof. split; [|done]. intros u. simpl. set_solver. Qed.

Lemma records_index (l : list (gmap string string)) :
  index <$> imap record_of l = seqZ 1 (Z.of_nat (length l)).
Proof.
  rewrite fmap_imap. unfold seqZ. rewrite Nat2Z.id.
  rewrite <- (imap_seq_0 l (λ j, Z.of_nat j + 1)).
  apply imap_ext. intros i x _. simpl. lia.
Qed.

Lemma records_url (l : list (gmap string string)) :
  url <$> imap record_of l = field "href" <$> l.
Proof. rewrite fmap_imap. by rewrite <- (imap_const (field "href")). Qed.

Lemma str_prefix_length (n : nat) (s : string) :
  (n ≤ String.length s)%nat → String.length (str_prefix n s) = n.
Proof.
  unfold str_prefix. revert s. induction n as [|n IH]; intros s Hn.
  - by destruct s.
  - destruct s as [|c s]; simpl in *; [lia|]. rewrite IH; [done | lia].
Qed.

Lemma str_prefix_is_prefix (n : nat) (s : string) :
  ∃ rest, s = str_prefix n s +:+ rest.
Proof.
  unfold str_prefix. revert s. induction n as [|n IH]; intros s.
  - exists s. by destruct s.
  - destruct s as [|c s]; simpl; [by exists EmptyString|].
    destruct (IH s) as [rest Hrest]. exists rest.
    change (String c s = String c (String.substring 0 n s +:+ rest)). by f_equal.
Qed.

Lemma truncate_snippet_short (body : string) :
  (String.length body ≤ 125)%nat → truncate_snippet body = body.
Proof.
  intros Hlen. unfold truncate_snippet.
  destruct (Nat.ltb_spec 125 (String.length body)); [lia | done].
Qed.

Lemma truncate_snippet_long (body : string) :
  (125 < String.length body)%nat →
  truncate_snippet body = str_prefix 125 body +:+ "...".
Proof.
  intros Hlen. unfold truncate_snippet.
  destruct (Nat.ltb_spec 125 (String.length body)); [done | lia].
Qed.

Lemma get_sources_return (e : search_env) (queries : list string) (s s' : state)
    (out : string) :
  get_sources e queries s = (Return out, s') →
  queries ≠ [] ∧ (length queries ≤ 3)%nat
  ∧ ∃ s2 groups found,
      start_tor (tor e) (if is_tor_running s then stop_tor s else s) = (Return tt, s2)
      ∧ search_queries (ddgs_text e) queries start_indexing [] = (Return groups, found)
      ∧ out = format_sources groups
      ∧ s' = set_fetch_pages_called false (set_last_search_results found s2).
Proof.
  unfold get_sources. intros H.
  destruct queries as [|q qs]; [done|].
  destruct (Nat.ltb_spec 3 (length (q :: qs))) as [?|Hlen]; [done|].
  destruct (start_tor (tor e) (if is_tor_running s then stop_tor s else s))
    as [[[]|err] s2] eqn:Hstart; [|done].
  destruct (search_queries (ddgs_text e) (q :: qs) start_indexing [])
    as [[groups|err] found] eqn:Hsearch; [|done].
  simplify_eq. split; [done|]. split; [done|]. by exists s2, groups, found.
Qed.

Lemma get_sources_raise (e : search_env) (queries : list string) (s s' : state)
    (err : exn) :
  get_sources e queries s = (Raise err, s') →
  ((queries = [] ∨ (3 < length queries)%nat) ∧ s' = s)
  ∨ (queries ≠ [] ∧ (length queries ≤ 3)%nat
     ∧ is_tor_running s' = false
     ∧ _fetch_pages_called s' = _fetch_pages_called s).
Proof.
  unfold get_sources. intros H.
  destruct queries as [|q qs]; [left; simplify_eq; by split; [left|]|].
  destruct (Nat.ltb_spec 3 (length (q :: qs))) as [Hlen|Hlen];
    [left; simplify_eq; by split; [right|]|].
  right. split; [done|]. split; [done|].
  destruct (start_tor (tor e) (if is_tor_running s then stop_tor s else s))
    as [[[]|err'] s2] eqn:Hstart.
  - apply start_tor_return in Hstart as (_ & _ & _ & _ & _ & Hflag).
    destruct (search_queries (ddgs_text e) (q :: qs) start_indexing [])
      as [[groups|err''] found] eqn:Hsearch; [done|].
    simplify_eq. unfold stop_tor. rewrite kill_tor_not_running, kill_tor_flag. simpl.
    split; [done|]. rewrite Hflag. destruct (is_tor_running s); [|done].
    apply kill_tor_flag.
  - apply start_tor_raise in Hstart as ->. simplify_eq.
    unfold stop_tor. rewrite kill_tor_not_running, kill_tor_flag.
    split; [done|]. destruct (is_tor_running s); [|done]. apply kill_tor_flag.
Qed.

Lemma get_sources_stored (e : search_env) (queries : list string) (s : state) :
  _last_search_results (snd (get_sources e queries s)) = _last_search_results s
  ∨ ∃ answered,
      _last_search_results (snd (get_sources e queries s))
      = imap record_of (surviving [] answered)
      ∧ (returned (fst (get_sources e queries s)) = true →
         answered = all_hits (ddgs_text e) queries).
Proof.
  unfold get_sources.
  destruct queries as [|q qs]; [by left|].
  destruct (3 <? length (q :: qs))%nat; [by left|].
  destruct (start_tor (tor e) (if is_tor_running s then stop_tor s else s))
    as [[[]|err'] s2] eqn:Hstart.
  - right.
    destruct (search_queries_indexed (ddgs_text e) (q :: qs) start_indexing [] [])
      as (answered & Hsnd & Hall); [apply start_indexing_indexed|].
    destruct (search_queries (ddgs_text e) (q :: qs) start_indexing [])
      as [[groups|err''] found] eqn:Hsearch; simpl in *.
    + exists answered. split; [done|]. intros _. by apply Hall.
    + exists answered. unfold stop_tor. rewrite kill_tor_results. simpl.
      split; [exact Hsnd | exact Hall].
  - left. apply start_tor_raise in Hstart as ->. simpl. unfold stop_tor.
    rewrite kill_tor_results. destruct (is_tor_running s); [|done].
    apply kill_tor_results.
Qed.

Lemma filter_length_complement {A} (P : A → Prop) `{∀ x, Decision (P x)} (l : list A) :
  (length (filter (λ x, ¬ P x) l) = length l - length (filter P l))%nat.
Proof.
  pose proof (Permutation_length (filter_app_complement P l)) as Hlen.
  rewrite length_app in Hlen. lia.
Qed.

(** Two answers without repeated URLs: the survivors are all of the first
    and those of the second whose URL is not in the first. *)
Lemma surviving_two_answers (ha hb : list (gmap string string)) :
  NoDup (field "href" <$> ha) → NoDup (field "href" <$> hb) →
  (length (surviving [] (ha ++ hb))
   = length ha + (length hb
                  - length (filter (λ r, field "href" r ∈ field "href" <$> ha) hb)))%nat.
Proof.
  intros Ha Hb. rewrite surviving_app. rewrite length_app. simpl.
  rewrite (surviving_NoDup_filter [] ha Ha), (surviving_NoDup_filter ha hb Hb).
  rewrite (filter_length_complement (λ r, field "href" r ∈ field "href" <$> ha)).
  assert (filter (λ r, field "href" r ∉ field "href" <$> []) ha = ha) as ->; [|done].
  clear. induction ha as [|r ha IH]; [reflexivity|].
  rewrite filter_cons. case_decide as Hr; [by rewrite IH|].
  simpl in Hr. by apply elem_of_nil in Hr.
Qed.

(** C4.  When a [get_sources] call returns, the stored result set is the
    list of the surviving hits of the whole call, numbered from 1: with
    all the hits of the call laid out query after query, a hit survives
    unless its URL is the URL of a hit at an earlier position, whatever
    query that hit came from.  So the indexes are 1, 2, ... in order
    across queries, no URL is stored twice, every URL that the provider
    returned is stored, and each record carries the URL and the title of
    its hit and as snippet the body of the hit when that has at most 125
    characters, and otherwise its first 125 characters followed by three
    dots.  In particular two queries answered with five hits each, no URL
    twice in one answer and exactly two URLs of the second answer present
    in the first, give eight records, indexed 1 to 8. *)
Theorem get_sources_indexes_surviving_hits (e : search_env) (queries : list string)
    (s s' : state) (out : string) :
  get_sources e queries s = (Return out, s') →
  let hits := all_hits (ddgs_text e) queries in
  let found := _last_search_results s' in
  found = imap record_of (surviving [] hits)
  ∧ index <$> found = seqZ 1 (Z.of_nat (length found))
  ∧ NoDup (url <$> found)
  ∧ (∀ u, u ∈ url <$> found ↔ u ∈ field "href" <$> hits)
  ∧ (∀ it, it ∈ found →
       ∃ r, r ∈ hits ∧ url it = field "href" r ∧ title it = field "title" r
         ∧ ((String.length (field "body" r) ≤ 125)%nat → snippet it = field "body" r)
         ∧ ((125 < String.length (field "body" r))%nat →
            snippet it = str_prefix 125 (field "body" r) +:+ "..."
            ∧ String.length (str_prefix 125 (field "body" r)) = 125%nat
            ∧ ∃ rest, field "body" r = str_prefix 125 (field "body" r) +:+ rest))
  ∧ (∀ qa qb ha hb,
       queries = [qa; qb] → ddgs_text e qa = Hits ha → ddgs_text e qb = Hits hb →
       length ha = 5%nat → length hb = 5%nat →
       NoDup (field "href" <$> ha) → NoDup (field "href" <$> hb) →
       length (filter (λ r, field "href" r ∈ field "href" <$> ha) hb) = 2%nat →
       length found = 8%nat ∧ index <$> found = [1; 2; 3; 4; 5; 6; 7; 8]).
Proof.
  intros Hget hits found.
  assert (found = imap record_of (surviving [] hits)) as Hfound.
  { apply get_sources_return in Hget as (_ & _ & s2 & groups & found' & _ & Hsearch & _ & ->).
    destruct (search_queries_indexed (ddgs_text e) queries start_indexing [] [])
      as (answered & Hsnd & Hall); [apply start_indexing_indexed|].
    rewrite Hsearch in Hsnd, Hall. simpl in Hsnd, Hall.
    subst found hits. simpl. rewrite Hsnd, Hall; done. }
  split; [done|]. rewrite Hfound. rewrite records_index, records_url, length_imap.
  split; [done|]. split; [apply surviving_urls_NoDup|].
  split; [|split].
  - intros u. rewrite (surviving_urls_complete [] hits u). simpl.
    split; [by right|]. by intros [?%elem_of_nil|?].
  - intros it (i & r & -> & Hr)%elem_of_lookup_imap.
    exists r. split.
    { eapply elem_of_sublist; [by eapply list_elem_of_lookup_2 | apply surviving_sublist]. }
    split; [done|]. split; [done|]. split.
    + apply truncate_snippet_short.
    + intros Hlong. split; [by apply truncate_snippet_long|].
      split; [apply str_prefix_length; lia | apply str_prefix_is_prefix].
  - intros qa qb ha hb -> Ha Hb Hla Hlb Hnda Hndb Hshared.
    assert (length (surviving [] hits) = 8%nat) as Hlen.
    { subst hits. simpl. rewrite Ha, Hb, app_nil_r.
      rewrite surviving_two_answers by done. lia. }
    rewrite Hlen. split; [done|]. reflexivity.
Qed.

Lemma get_sources_indexes_surviving_hits_witness :
  length (_last_search_results demo_searched) = 8%nat
  ∧ index <$> _last_search_results demo_searched = [1; 2; 3; 4; 5; 6; 7; 8].
Proof.
  assert (get_sources demo_search ["a"; "b"] initial_state = (Return demo_output, demo_searched))
    as Hget by (vm_compute; reflexivity).
  destruct (get_sources_indexes_surviving_hits _ _ _ _ _ Hget)
    as (_ & _ & _ & _ & _ & Hscenario).
  apply (Hscenario "a" "b" hits_a hits_b); try reflexivity.
  - apply (bool_decide_unpack _). vm_compute. exact I.
  - apply (bool_decide_unpack _). vm_compute. exact I.
Defined.

(** ** The checks of [fetch_pages] *)

Lemma check_tor_timeout_alive (cfg : config) (now : Z) (s : state) :
  fst (check_tor_timeout cfg now s) = true ↔ session_alive cfg now s.
Proof.
  unfold check_tor_timeout, _check_tor_timeout, session_alive.
  destruct (_tor_process s) as [p|]; [|by split; [|intros (? & ? & ? & _)]].
  destruct (_tor_start_time s) as [started|]; [|by split; [|intros (? & ? & ? & ? & _)]].
  destruct (Z.ltb_spec (seconds (TOR_KEEPALIVE_SECONDS cfg)) (now - started)); simpl.
  - split; [done|]. intros (? & ? & ? & ? & ?). simplify_eq. lia.
  - split; [|done]. intros _. by exists p, started.
Qed.

Lemma check_tor_timeout_true (cfg : config) (now : Z) (s : state) :
  fst (check_tor_timeout cfg now s) = true → snd (check_tor_timeout cfg now s) = s.
Proof.
  unfold check_tor_timeout, _check_tor_timeout.
  destruct (_tor_process s) as [p|]; [|done].
  destruct (_tor_start_time s) as [started|]; [|done].
  by destruct (seconds (TOR_KEEPALIVE_SECONDS cfg) <? now - started).
Qed.

Lemma check_tor_timeout_false (cfg : config) (now : Z) (s : state) :
  fst (check_tor_timeout cfg now s) = false →
  snd (check_tor_timeout cfg now s) = s ∨ snd (check_tor_timeout cfg now s) = _kill_tor s.
Proof.
  unfold check_tor_timeout, _check_tor_timeout.
  destruct (_tor_process s) as [p|]; [|by left].
  destruct (_tor_start_time s) as [started|]; [|by left].
  destruct (seconds (TOR_KEEPALIVE_SECONDS cfg) <? now - started); [by right | by left].
Qed.

Lemma elem_of_valid_indexes (found : list item) (i : Z) :
  i ∈ valid_indexes_of found ↔ i ∈ index <$> found.
Proof. unfold valid_indexes_of. by rewrite elem_of_list_to_set. Qed.

Lemma first_invalid_Some (V : gset Z) (indexes : list Z) (idx : Z) :
  first_invalid V indexes = Some idx ↔
  ∃ before after, indexes = before ++ idx :: after
                  ∧ (∀ i, i ∈ before → i ∈ V) ∧ idx ∉ V.
Proof.
  unfold first_invalid. induction indexes as [|i indexes IH]; simpl.
  - split; [done|]. intros (before & after & H & _). by destruct before.
  - case_bool_decide as Hi; simpl.
    + rewrite IH. split.
      * intros (before & after & -> & Hb & Hidx).
        exists (i :: before), after. split; [done|]. split; [|done].
        intros j [->|?]%elem_of_cons; auto.
      * intros (before & after & Heq & Hb & Hidx).
        destruct before as [|b before]; simplify_eq/=; [done|].
        exists before, after. split; [done|]. split; [|done].
        intros j Hj. apply Hb. by right.
    + split.
      * intros [= ->]. exists [], indexes. split; [done|]. split; [|done].
        by intros j ?%elem_of_nil.
      * intros (before & after & Heq & Hb & Hidx).
        destruct before as [|b before]; simplify_eq/=; [done|].
        exfalso. apply Hi, Hb. by left.
Qed.

Lemma first_invalid_None (V : gset Z) (indexes : list Z) :
  first_invalid V indexes = None ↔ ∀ i, i ∈ indexes → i ∈ V.
Proof.
  unfold first_invalid. induction indexes as [|i indexes IH]; simpl.
  - split; [|done]. by intros _ j ?%elem_of_nil.
  - case_bool_decide as Hi; simpl.
    + rewrite IH. split.
      * intros H j [->|?]%elem_of_cons; auto.
      * intros H j Hj. apply H. by right.
    + split; [done|]. intros H. exfalso. apply Hi, H. by left.
Qed.

(** A request whose indexes are all valid selects no URL exactly when it is
    empty. *)
Lemma urls_to_fetch_nil (found : list item) (indexes : list Z) :
  (∀ i, i ∈ indexes → i ∈ index <$> found) →
  urls_to_fetch found indexes = [] ↔ indexes = [].
Proof.
  intros Hvalid. unfold urls_to_fetch, selected. split.
  - intros Hnil. destruct indexes as [|i indexes]; [done|]. exfalso.
    assert (i ∈ index <$> found) as Hi by (apply Hvalid; by left).
    apply list_elem_of_fmap in Hi as [it' [-> Hit]].
    apply fmap_nil_inv in Hnil.
    assert (it' ∈ filter (λ it, index it ∈ index it' :: indexes) found) as Hin.
    { apply list_elem_of_filter. split; [by left | done]. }
    rewrite Hnil in Hin. by apply elem_of_nil in Hin.
  - intros ->. clear Hvalid. induction found as [|it found IH]; [done|].
    rewrite filter_cons. case_decide as H; [by apply elem_of_nil in H | exact IH].
Qed.

Lemma valid_indexes_sorted (found : list item) :
  let listed := merge_sort Z.le (elements (valid_indexes_of found)) in
  Sorted Z.le listed ∧ NoDup listed ∧ ∀ i, i ∈ listed ↔ i ∈ index <$> found.
Proof.
  simpl. split; [|split].
  - apply Sorted_merge_sort. intros x y. lia.
  - rewrite merge_sort_Permutation. apply NoDup_elements.
  - intros i. rewrite merge_sort_Permutation, elem_of_elements.
    apply elem_of_valid_indexes.
Qed.

(** What [validate_request] answers, check by check. *)
Lemma validate_request_unfold (cfg : config) (e : fetch_env) (indexes : list Z) (s : state) :
  validate_request cfg e indexes s =
  if bool_decide (_last_search_results s = []) then (Raise (RuntimeError no_search_results), s)
  else if _fetch_pages_called s then (Raise (RuntimeError already_fetched), s)
  else if negb (fst (check_tor_timeout cfg (check_clock e) s))
  then (Raise (RuntimeError tor_timed_out), snd (check_tor_timeout cfg (check_clock e) s))
  else if (5 <? length indexes)%nat
  then (Raise (ValueError (too_many_indexes (length indexes))), s)
  else match first_invalid (valid_indexes_of (_last_search_results s)) indexes with
       | Some idx =>
           (Raise (ValueError (invalid_index idx (valid_indexes_of (_last_search_results s)))), s)
       | None =>
           match urls_to_fetch (_last_search_results s) indexes with
           | [] => (Raise (ValueError no_valid_urls), s)
           | urls => (Return urls, s)
           end
       end.
Proof.
  unfold validate_request.
  destruct (_last_search_results s) as [|it found] eqn:Hfound; [done|].
  rewrite bool_decide_eq_false_2 by done.
  destruct (_fetch_pages_called s); [done|].
  pose proof (check_tor_timeout_true cfg (check_clock e) s) as Htrue.
  destruct (check_tor_timeout cfg (check_clock e) s) as [[] s1]; simpl in *; [|done].
  rewrite Htrue by done. rewrite Hfound. done.
Qed.

Lemma string_app_length (a b : string) :
  String.length (a +:+ b) = (String.length a + String.length b)%nat.
Proof. induction a as [|c a IH]; simpl; [done | by rewrite IH]. Qed.

Lemma string_app_inv_tail (a b t : string) : a +:+ t = b +:+ t → a = b.
Proof.
  revert b. induction a as [|c a IH]; intros [|d b] H.
  - done.
  - apply (f_equal String.length) in H. rewrite !string_app_length in H. simpl in H. lia.
  - apply (f_equal String.length) in H. rewrite !string_app_length in H. simpl in H. lia.
  - change (String c (a +:+ t) = String d (b +:+ t)) in H.
    injection H as -> H. f_equal. by apply IH.
Qed.

Lemma too_many_indexes_inj (n m : nat) : too_many_indexes n = too_many_indexes m → n = m.
Proof.
  unfold too_many_indexes. intros H.
  apply String.app_inj in H.
  apply string_app_inv_tail in H.
  unfold str_of_int in H. apply (inj pretty) in H. lia.
Qed.

Lemma turned_down_validate (cfg : config) (e : fetch_env) (indexes : list Z) (s : state)
    (r : rejection) :
  turned_down cfg e indexes s r →
  validate_request cfg e indexes s
  = (Raise (rejection_error (_last_search_results s) r),
     match r with
     | SessionExpired => snd (check_tor_timeout cfg (check_clock e) s)
     | _ => s
     end).
Proof.
  rewrite validate_request_unfold.
  intros [Hnil | Hfound Hflag | Hfound Hflag Hdead | Hfound Hflag Halive Hmany
         | before after idx Hfound Hflag Halive Hfew Hsplit Hbefore Hidx
         | Hfound Hflag Halive Hnone]; simpl.
  - by rewrite bool_decide_eq_true_2.
  - rewrite bool_decide_eq_false_2 by done. by rewrite Hflag.
  - rewrite bool_decide_eq_false_2 by done. rewrite Hflag.
    rewrite <- check_tor_timeout_alive in Hdead.
    by destruct (fst (check_tor_timeout cfg (check_clock e) s)).
  - rewrite bool_decide_eq_false_2 by done. rewrite Hflag.
    apply check_tor_timeout_alive in Halive as ->. simpl.
    apply Nat.ltb_lt in Hmany. by rewrite Hmany.
  - rewrite bool_decide_eq_false_2 by done. rewrite Hflag.
    apply check_tor_timeout_alive in Halive as ->. simpl.
    apply Nat.ltb_ge in Hfew. rewrite Hfew.
    assert (first_invalid (valid_indexes_of (_last_search_results s)) indexes = Some idx) as ->; [|done].
    apply first_invalid_Some. exists before, after. split; [done|].
    split; [|by rewrite elem_of_valid_indexes].
    intros i Hi. by apply elem_of_valid_indexes, Hbefore.
  - rewrite bool_decide_eq_false_2 by done. rewrite Hflag.
    apply check_tor_timeout_alive in Halive as ->. subst indexes. simpl.
    assert (urls_to_fetch (_last_search_results s) [] = []) as ->; [|done].
    apply urls_to_fetch_nil; [|done]. by intros i ?%elem_of_nil.
Qed.

Lemma validate_request_raise (cfg : config) (e : fetch_env) (indexes : list Z) (s : state) :
  returned (fst (validate_request cfg e indexes s)) = false →
  ∃ r, turned_down cfg e indexes s r.
Proof.
  rewrite validate_request_unfold.
  case_bool_decide as Hfound; [intros _; exists NoPriorSearch; by constructor|].
  destruct (_fetch_pages_called s) eqn:Hflag;
    [intros _; exists AlreadyFetched; by constructor|].
  destruct (fst (check_tor_timeout cfg (check_clock e) s)) eqn:Halive; simpl.
  2:{ intros _. exists SessionExpired. constructor; [done..|].
      rewrite <- check_tor_timeout_alive. by rewrite Halive. }
  apply check_tor_timeout_alive in Halive.
  destruct (Nat.ltb_spec 5 (length indexes)) as [Hmany|Hfew];
    [intros _; eexists; by apply too_many_requested|].
  destruct (first_invalid (valid_indexes_of (_last_search_results s)) indexes)
    as [idx|] eqn:Hfirst.
  { intros _. apply first_invalid_Some in Hfirst as (before & after & Hsplit & Hb & Hidx).
    exists (UnknownIndex idx). apply (unknown_index _ _ _ _ before after); try done.
    - intros i Hi. by apply elem_of_valid_indexes, Hb.
    - by rewrite <- elem_of_valid_indexes. }
  destruct (urls_to_fetch (_last_search_results s) indexes) as [|u urls] eqn:Hurls; [|done].
  intros _. exists NothingToFetch. constructor; try done.
  eapply urls_to_fetch_nil; [|done].
  intros i Hi. apply elem_of_valid_indexes. by eapply first_invalid_None.
Qed.

Lemma accepted_iff (cfg : config) (e : fetch_env) (indexes : list Z) (s : state) :
  accepted cfg e indexes s ↔ ∀ r, ¬ turned_down cfg e indexes s r.
Proof.
  unfold accepted. split.
  - intros Hacc r Hr. apply turned_down_validate in Hr. by rewrite Hr in Hacc.
  - intros Hnone.
    destruct (returned (fst (validate_request cfg e indexes s))) eqn:Hret; [done|].
    apply validate_request_raise in Hret as [r Hr]. by destruct (Hnone r).
Qed.

Lemma accepted_inv (cfg : config) (e : fetch_env) (indexes : list Z) (s : state) :
  accepted cfg e indexes s →
  _last_search_results s ≠ [] ∧ _fetch_pages_called s = false
  ∧ session_alive cfg (check_clock e) s
  ∧ (length indexes ≤ 5)%nat ∧ indexes ≠ []
  ∧ (∀ i, i ∈ indexes → i ∈ index <$> _last_search_results s)
  ∧ validate_request cfg e indexes s
    = (Return (urls_to_fetch (_last_search_results s) indexes), s).
Proof.
  unfold accepted. rewrite validate_request_unfold.
  case_bool_decide as Hfound; [done|].
  destruct (_fetch_pages_called s) eqn:Hflag; [done|].
  destruct (fst (check_tor_timeout cfg (check_clock e) s)) eqn:Halive; [|done]. simpl.
  apply check_tor_timeout_alive in Halive.
  destruct (Nat.ltb_spec 5 (length indexes)) as [Hmany|Hfew]; [done|].
  destruct (first_invalid (valid_indexes_of (_last_search_results s)) indexes)
    as [idx|] eqn:Hfirst; [done|].
  assert (∀ i, i ∈ indexes → i ∈ index <$> _last_search_results s) as Hvalid.
  { intros i Hi. apply elem_of_valid_indexes. by eapply first_invalid_None. }
  destruct (urls_to_fetch (_last_search_results s) indexes) as [|u urls] eqn:Hurls; [done|].
  intros _. repeat split; try done.
  intros Hnil. apply (urls_to_fetch_nil _ _ Hvalid) in Hnil. by rewrite Hnil in Hurls.
Qed.

Lemma accepted_intro (cfg : config) (e : fetch_env) (indexes : list Z) (s : state) :
  _last_search_results s ≠ [] → _fetch_pages_called s = false →
  session_alive cfg (check_clock e) s →
  (length indexes ≤ 5)%nat → indexes ≠ [] →
  (∀ i, i ∈ indexes → i ∈ index <$> _last_search_results s) →
  accepted cfg e indexes s.
Proof.
  intros Hfound Hflag Halive Hfew Hsome Hvalid. apply accepted_iff.
  intros r [Hnil | _ Hcalled | _ _ Hdead | _ _ _ Hmany
             | before after idx _ _ _ _ Hsplit _ Hidx | _ _ _ Hnone]; try done; try lia.
  - congruence.
  - apply Hidx, Hvalid. rewrite Hsplit. apply elem_of_app. right. by left.
Qed.

Lemma fetch_pages_accepted (cfg : config) (e : fetch_env) (indexes : list Z) (s : state) :
  accepted cfg e indexes s →
  fetch_pages cfg e indexes s
  = (fetch_and_format cfg e (set_fetch_pages_called true s) indexes,
     stop_tor (set_fetch_pages_called true s)).
Proof.
  intros Hacc. apply accepted_inv in Hacc as (_ & _ & _ & _ & _ & _ & Hval).
  unfold fetch_pages. by rewrite Hval.
Qed.

Lemma fetch_pages_turned_down (cfg : config) (e : fetch_env) (indexes : list Z) (s : state)
    (r : rejection) :
  turned_down cfg e indexes s r →
  fetch_pages cfg e indexes s
  = (Raise (rejection_error (_last_search_results s) r),
     match r with
     | SessionExpired => snd (check_tor_timeout cfg (check_clock e) s)
     | _ => s
     end).
Proof. intros Hr. unfold fetch_pages. by rewrite (turned_down_validate _ _ _ _ _ Hr). Qed.

Lemma turned_down_unique (cfg : config) (e : fetch_env) (indexes : list Z) (s : state)
    (r r' : rejection) :
  turned_down cfg e indexes s r → turned_down cfg e indexes s r' → r = r'.
Proof.
  intros [Hnil | Hfound Hcalled | Hfound Hflag Hdead | Hfound Hflag Halive Hmany
         | before after idx Hfound Hflag Halive Hfew Hsplit Hbefore Hidx
         | Hfound Hflag Halive Hnone]
         [Hnil' | Hfound' Hcalled' | Hfound' Hflag' Hdead' | Hfound' Hflag' Halive' Hmany'
         | before' after' idx' Hfound' Hflag' Halive' Hfew' Hsplit' Hbefore' Hidx'
         | Hfound' Hflag' Halive' Hnone'];
    try done; try lia; try congruence.
  - subst indexes. simpl in Hmany. lia.
  - f_equal.
    assert (first_invalid (valid_indexes_of (_last_search_results s)) indexes = Some idx) as H1.
    { apply first_invalid_Some. exists before, after. split; [done|].
      split; [|by rewrite elem_of_valid_indexes].
      intros i Hi. apply elem_of_valid_indexes. auto. }
    assert (first_invalid (valid_indexes_of (_last_search_results s)) indexes = Some idx') as H2.
    { apply first_invalid_Some. exists before', after'. split; [done|].
      split; [|by rewrite elem_of_valid_indexes].
      intros i Hi. apply elem_of_valid_indexes. auto. }
    congruence.
  - subst indexes. by destruct before.
  - subst indexes. simpl in Hmany'. lia.
  - subst indexes. by destruct before'.
Qed.

(** C5 (as amended).  [fetch_pages] turns a request down for exactly six
    reasons, tried in this order: the stored result set is empty; the
    generation has already been fetched; the session is not alive (no
    process is held, or more than the keepalive period has passed since
    its start); more than five indexes are requested; some index of the
    request is not the index of a stored record (the first such index is
    reported); the request is empty.  Each reason has its own exception,
    the state is left as it was except that the timeout check tears an
    expired session down, at most one reason applies, and when none
    applies the request is accepted.  The message for too many indexes
    identifies the requested count (different counts give different
    messages), and the message for an unknown index lists the valid
    indexes in increasing order, each once. *)
Theorem fetch_pages_turns_down_in_order (cfg : config) (e : fetch_env)
    (indexes : list Z) (s : state) :
  (∀ r, turned_down cfg e indexes s r →
     fetch_pages cfg e indexes s
     = (Raise (rejection_error (_last_search_results s) r),
        match r with
        | SessionExpired => snd (check_tor_timeout cfg (check_clock e) s)
        | _ => s
        end))
  ∧ (returned (fst (validate_request cfg e indexes s)) = false
     ↔ ∃ r, turned_down cfg e indexes s r)
  ∧ (∀ r r', turned_down cfg e indexes s r → turned_down cfg e indexes s r' → r = r')
  ∧ ((∀ r, ¬ turned_down cfg e indexes s r) →
     fetch_pages cfg e indexes s
     = (fetch_and_format cfg e (set_fetch_pages_called true s) indexes,
        stop_tor (set_fetch_pages_called true s)))
  ∧ (∀ n m, rejection_error (_last_search_results s) (TooManyIndexes n)
            = rejection_error (_last_search_results s) (TooManyIndexes m) → n = m)
  ∧ (∀ idx, ∃ listed,
       rejection_error (_last_search_results s) (UnknownIndex idx)
       = ValueError ("Invalid index " +:+ str_of_int idx +:+ ". Valid indexes are: "
                     +:+ repr_int_list listed)
       ∧ Sorted Z.le listed ∧ NoDup listed
       ∧ ∀ i, i ∈ listed ↔ i ∈ index <$> _last_search_results s).
Proof.
  split; [|split; [|split; [|split; [|split]]]].
  - apply fetch_pages_turned_down.
  - split; [apply validate_request_raise|].
    intros [r Hr]. by rewrite (turned_down_validate _ _ _ _ _ Hr).
  - apply turned_down_unique.
  - intros Hnone. apply fetch_pages_accepted. by apply accepted_iff.
  - intros n m H. apply too_many_indexes_inj. exact (f_equal exn_message H).
  - intros idx. eexists. split; [reflexivity|]. apply valid_indexes_sorted.
Qed.

Lemma demo_searched_alive (at_clock : Z) :
  at_clock ≤ 120000 → session_alive default_config at_clock demo_searched.
Proof. intros H. exists 4242%nat, 0. repeat split. unfold seconds. simpl. lia. Qed.

Lemma fetch_pages_turns_down_in_order_witness :
  fetch_pages default_config (demo_fetch 1000) [2; 9; 11] demo_searched
  = (Raise (ValueError (invalid_index 9 (valid_indexes_of (_last_search_results demo_searched)))),
     demo_searched).
Proof.
  destruct (fetch_pages_turns_down_in_order default_config (demo_fetch 1000) [2; 9; 11]
              demo_searched) as (Hdown & _).
  apply (Hdown (UnknownIndex 9)).
  apply (unknown_index _ _ _ _ [2] [11]).
  - discriminate.
  - reflexivity.
  - apply demo_searched_alive. simpl. lia.
  - simpl. lia.
  - reflexivity.
  - intros i Hi. apply (bool_decide_unpack _). apply list_elem_of_singleton in Hi as ->.
    vm_compute. exact I.
  - apply (bool_decide_unpack _). vm_compute. exact I.
Defined.

(** C5 as it is stated fails on the empty request: none of the five
    stated conditions holds of it in a state that has just been searched,
    and yet [fetch_pages] raises. *)
Lemma fetch_pages_empty_request_counterexample :
  ¬ stated_conditions default_config (demo_fetch 1000) [] demo_searched
  ∧ fetch_pages default_config (demo_fetch 1000) [] demo_searched
    = (Raise (ValueError no_valid_urls), demo_searched).
Proof.
  split; [|vm_compute; reflexivity].
  intros [Hnil | [Hflag | [Hdead | [Hmany | (idx & Hidx & _)]]]].
  - discriminate Hnil.
  - discriminate Hflag.
  - apply Hdead, demo_searched_alive. simpl. lia.
  - simpl in Hmany. lia.
  - by apply elem_of_nil in Hidx.
Qed.

(** ** The effect of each call on the session and on the generation *)

Lemma fetch_pages_accepted_state (cfg : config) (e : fetch_env) (indexes : list Z)
    (s : state) :
  accepted cfg e indexes s →
  let s' := snd (fetch_pages cfg e indexes s) in
  is_tor_running s' = false ∧ _fetch_pages_called s' = true
  ∧ _last_search_results s' = _last_search_results s.
Proof.
  intros Hacc. rewrite (fetch_pages_accepted _ _ _ _ Hacc). simpl. unfold stop_tor.
  by rewrite kill_tor_not_running, kill_tor_flag, kill_tor_results.
Qed.

(** A request that is turned down leaves the state as it is, or, when the
    timeout check fails, as that check leaves it. *)
Lemma fetch_pages_rejected_state (cfg : config) (e : fetch_env) (indexes : list Z)
    (s : state) :
  ¬ accepted cfg e indexes s →
  ∃ err, fst (fetch_pages cfg e indexes s) = Raise err
    ∧ (snd (fetch_pages cfg e indexes s) = s
       ∨ (fst (check_tor_timeout cfg (check_clock e) s) = false
          ∧ snd (fetch_pages cfg e indexes s) = snd (check_tor_timeout cfg (check_clock e) s))).
Proof.
  intros Hrej.
  destruct (returned (fst (validate_request cfg e indexes s))) eqn:Hret; [done|].
  apply validate_request_raise in Hret as [r Hr].
  rewrite (fetch_pages_turned_down _ _ _ _ _ Hr). eexists. split; [done|].
  destruct Hr as [| | _ _ Hdead | | |]; simpl; auto. right. split; [|done].
  rewrite <- check_tor_timeout_alive in Hdead.
  by destruct (fst (check_tor_timeout cfg (check_clock e) s)).
Qed.

Lemma accepted_dec (cfg : config) (e : fetch_env) (indexes : list Z) (s : state) :
  accepted cfg e indexes s ∨ ¬ accepted cfg e indexes s.
Proof.
  unfold accepted. destruct (returned (fst (validate_request cfg e indexes s))); auto.
Qed.

Lemma fetch_pages_results (cfg : config) (e : fetch_env) (indexes : list Z) (s : state) :
  _last_search_results (snd (fetch_pages cfg e indexes s)) = _last_search_results s.
Proof.
  destruct (accepted_dec cfg e indexes s) as [Hacc|Hrej].
  - by apply fetch_pages_accepted_state.
  - destruct (fetch_pages_rejected_state _ _ _ _ Hrej) as (err & _ & [-> | [Hdead ->]]); [done|].
    destruct (check_tor_timeout_false _ _ _ Hdead) as [-> | ->]; [done|].
    apply kill_tor_results.
Qed.

Lemma fetch_specific_page_state (cfg : config) (e : direct_env) (u : string) (s : state) :
  let s' := snd (fetch_specific_page cfg e u s) in
  is_tor_running s' = false
  ∧ _last_search_results s' = _last_search_results s
  ∧ _fetch_pages_called s' = _fetch_pages_called s.
Proof.
  unfold fetch_specific_page.
  assert (_last_search_results (if is_tor_running s then stop_tor s else s)
          = _last_search_results s
          ∧ _fetch_pages_called (if is_tor_running s then stop_tor s else s)
            = _fetch_pages_called s) as [Hres Hflag].
  { destruct (is_tor_running s); [|done]. unfold stop_tor.
    by rewrite kill_tor_results, kill_tor_flag. }
  destruct (start_tor (direct_tor e) (if is_tor_running s then stop_tor s else s))
    as [[[]|err] s2] eqn:Hstart; simpl; unfold stop_tor;
    rewrite kill_tor_not_running, kill_tor_results, kill_tor_flag.
  - apply start_tor_return in Hstart as (_ & _ & _ & _ & -> & ->). done.
  - apply start_tor_raise in Hstart as ->. done.
Qed.

(** A search that returns leaves a session that has just started and a
    generation that has not been fetched. *)
Lemma get_sources_return_state (e : search_env) (queries : list string) (s s' : state)
    (out : string) :
  get_sources e queries s = (Return out, s') →
  is_tor_running s' = true ∧ _tor_start_time s' = Some (start_clock (tor e))
  ∧ truthy (_tbb_path s') = true ∧ truthy (_tbb_profile_path s') = true
  ∧ _fetch_pages_called s' = false.
Proof.
  intros (_ & _ & s2 & groups & found & Hstart & _ & _ & ->)%get_sources_return.
  apply start_tor_return in Hstart as (Hrun & Htime & Htbb & Hprofile & _). done.
Qed.


(** ** What holds after any sequence of calls *)

Lemma consistent_initial : consistent initial_state.
Proof. split; [done|]. split; [constructor | done]. Qed.

Lemma consistent_stopped (s s' : state) :
  consistent s → is_tor_running s' = false →
  _last_search_results s' = _last_search_results s → consistent s'.
Proof.
  intros (_ & Hnd & Hidx) Hrun Hres. split; [by rewrite Hrun|]. by rewrite Hres.
Qed.

Lemma consistent_records (s : state) (answered : list (gmap string string)) :
  _last_search_results s = imap record_of (surviving [] answered) →
  NoDup (url <$> _last_search_results s)
  ∧ index <$> _last_search_results s = seqZ 1 (Z.of_nat (length (_last_search_results s))).
Proof.
  intros ->. rewrite records_url, records_index, length_imap.
  split; [apply surviving_urls_NoDup | done].
Qed.

Lemma get_sources_consistent (e : search_env) (queries : list string) (s : state) :
  consistent s → consistent (snd (get_sources e queries s)).
Proof.
  intros Hs.
  destruct (get_sources e queries s) as [[out|err] s'] eqn:Hget; simpl.
  - split.
    + intros _. apply get_sources_return_state in Hget as (_ & -> & -> & -> & ->).
      by split; [eexists|].
    + pose proof (get_sources_stored e queries s) as Hstored.
      rewrite Hget in Hstored. simpl in Hstored.
      destruct Hstored as [Hsame | (answered & Hrec & _)].
      * destruct Hs as (_ & Hnd & Hidx). by rewrite Hsame.
      * by eapply consistent_records.
  - pose proof (get_sources_stored e queries s) as Hstored.
    rewrite Hget in Hstored. simpl in Hstored.
    apply get_sources_raise in Hget as [[_ ->] | (_ & _ & Hrun & _)]; [done|].
    split; [by rewrite Hrun|].
    destruct Hstored as [Hsame | (answered & Hrec & _)].
    + destruct Hs as (_ & Hnd & Hidx). by rewrite Hsame.
    + by eapply consistent_records.
Qed.

Lemma fetch_pages_consistent (cfg : config) (e : fetch_env) (indexes : list Z) (s : state) :
  consistent s → consistent (snd (fetch_pages cfg e indexes s)).
Proof.
  intros Hs. destruct (accepted_dec cfg e indexes s) as [Hacc|Hrej].
  - destruct (fetch_pages_accepted_state _ _ _ _ Hacc) as (Hrun & _ & Hres).
    by eapply consistent_stopped.
  - destruct (fetch_pages_rejected_state _ _ _ _ Hrej) as (err & _ & [-> | [Hdead ->]]); [done|].
    destruct (check_tor_timeout_false _ _ _ Hdead) as [-> | ->]; [done|].
    eapply consistent_stopped; [done | apply kill_tor_not_running | apply kill_tor_results].
Qed.

Lemma fetch_specific_page_consistent (cfg : config) (e : direct_env) (u : string) (s : state) :
  consistent s → consistent (snd (fetch_specific_page cfg e u s)).
Proof.
  intros Hs. destruct (fetch_specific_page_state cfg e u s) as (Hrun & Hres & _).
  by eapply consistent_stopped.
Qed.

Lemma run_call_consistent (cfg : config) (c : call) (s : state) :
  consistent s → consistent (snd (run_call cfg c s)).
Proof.
  destruct c; simpl;
    [apply get_sources_consistent | apply fetch_pages_consistent
    | apply fetch_specific_page_consistent].
Qed.

Lemma run_calls_consistent (cfg : config) (calls : list call) (s : state) :
  consistent s → consistent (snd (run_calls cfg calls s)).
Proof.
  revert s. induction calls as [|c calls IH]; intros s Hs; simpl; [done|].
  pose proof (run_call_consistent cfg c s Hs) as Hc.
  destruct (run_call cfg c s) as [r s1]. specialize (IH s1 Hc).
  by destruct (run_calls cfg calls s1) as [trace s2].
Qed.

Lemma run_calls_snoc (cfg : config) (calls : list call) (c : call) (s : state) :
  run_calls cfg (calls ++ [c]) s
  = (fst (run_calls cfg calls s)
       ++ [(c, fst (run_call cfg c (snd (run_calls cfg calls s))))],
     snd (run_call cfg c (snd (run_calls cfg calls s)))).
Proof.
  revert s. induction calls as [|c' calls IH]; intros s; simpl.
  - by destruct (run_call cfg c s).
  - destruct (run_call cfg c' s) as [r s1]. rewrite IH.
    by destruct (run_calls cfg calls s1) as [trace s2].
Qed.

(** In a consistent state a failed timeout check leaves no session. *)
Lemma check_tor_timeout_stops (cfg : config) (now : Z) (s : state) :
  consistent s → fst (check_tor_timeout cfg now s) = false →
  is_tor_running (snd (check_tor_timeout cfg now s)) = false.
Proof.
  intros (Hrun & _) Hdead. unfold check_tor_timeout, _check_tor_timeout in *.
  unfold is_tor_running in *.
  destruct (_tor_process s) as [p|] eqn:Hp; simpl; [|by rewrite Hp].
  destruct (Hrun eq_refl) as ([started Hstarted] & _). rewrite Hstarted in *.
  destruct (seconds (TOR_KEEPALIVE_SECONDS cfg) <? now - started); [|done].
  simpl. unfold _kill_tor. by rewrite Hp.
Qed.

(** The scenario of the idle session: after any sequence of calls, a
    [fetch_pages] call that finds the session expired raises the timeout
    error and leaves no session running. *)
Lemma expired_session_is_torn_down (cfg : config) (calls : list call) (e : fetch_env)
    (indexes : list Z) :
  let s := snd (run_calls cfg calls initial_state) in
  turned_down cfg e indexes s SessionExpired →
  fetch_pages cfg e indexes s = (Raise (RuntimeError tor_timed_out), _kill_tor s)
  ∧ is_tor_running (_kill_tor s) = false.
Proof.
  intros s Hdown. split; [|apply kill_tor_not_running].
  rewrite (fetch_pages_turned_down _ _ _ _ _ Hdown). simpl. f_equal.
  assert (fst (check_tor_timeout cfg (check_clock e) s) = false) as Hdead.
  { destruct (fst (check_tor_timeout cfg (check_clock e) s)) eqn:Hcheck; [|done].
    apply check_tor_timeout_alive in Hcheck. by inversion Hdown. }
  pose proof (check_tor_timeout_stops cfg (check_clock e) s
                (run_calls_consistent cfg calls initial_state consistent_initial) Hdead)
    as Hstopped.
  destruct (check_tor_timeout_false _ _ _ Hdead) as [Heq | Heq]; [|done].
  rewrite Heq in Hstopped |- *. symmetry. by apply kill_tor_idle.
Qed.

(** ** One fetch per generation *)

(** Calls that start no new search keep the stored results and the flag,
    whatever state they start from, unless they are an accepted fetch. *)
Lemma run_call_same_generation (cfg : config) (c : call) (s : state) :
  starts_search c = false →
  _last_search_results (snd (run_call cfg c s)) = _last_search_results s
  ∧ (_fetch_pages_called s = true → _fetch_pages_called (snd (run_call cfg c s)) = true).
Proof.
  destruct c as [se queries | e indexes | e u]; simpl; intros Hc.
  - destruct (get_sources_invalid_queries se queries s) as [msg ->]; [|done].
    destruct queries as [|q qs]; [by left|]. right.
    simpl in Hc. apply Nat.leb_gt in Hc. simpl. lia.
  - split; [apply fetch_pages_results|]. intros Hflag.
    destruct (accepted_dec cfg e indexes s) as [Hacc|Hrej].
    + by apply fetch_pages_accepted_state.
    + destruct (fetch_pages_rejected_state _ _ _ _ Hrej) as (err & _ & [-> | [Hdead ->]]); [done|].
      destruct (check_tor_timeout_false _ _ _ Hdead) as [-> | ->]; [done|].
      by rewrite kill_tor_flag.
  - destruct (fetch_specific_page_state cfg e u s) as (_ & Hres & Hflag). split; [done|].
    by rewrite Hflag.
Qed.

Lemma fetch_pages_without_results (cfg : config) (e : fetch_env) (indexes : list Z)
    (s : state) :
  _last_search_results s = [] →
  fetch_pages cfg e indexes s = (Raise (RuntimeError no_search_results), s).
Proof. intros Hnil. by apply (fetch_pages_turned_down _ _ _ _ NoPriorSearch), no_prior_search. Qed.



Lemma fetches_raise_nil (err : exn) : fetches_raise err [].
Proof. by intros e indexes r ?%elem_of_nil. Qed.

Lemma fetches_raise_cons (err : exn) (c : call) (r : result string)
    (trace : list (call * result string)) :
  (∀ e indexes, c = FetchByIndex e indexes → r = Raise err) →
  fetches_raise err trace → fetches_raise err ((c, r) :: trace).
Proof.
  intros Hc Htrace e indexes r' [[= <- <-] | Hin]%elem_of_cons; [by eapply Hc | by eapply Htrace].
Qed.

Lemma no_results_no_fetch (cfg : config) (calls : list call) (s : state) :
  Forall (λ c, starts_search c = false) calls →
  _last_search_results s = [] →
  fetches_raise (RuntimeError no_search_results) (fst (run_calls cfg calls s))
  ∧ _last_search_results (snd (run_calls cfg calls s)) = [].
Proof.
  revert s. induction calls as [|c calls IH]; intros s Hcalls Hnil; simpl.
  - split; [apply fetches_raise_nil | done].
  - apply Forall_cons in Hcalls as [Hc Hcalls].
    destruct (run_call_same_generation cfg c s Hc) as [Hres _].
    assert (∀ e indexes, c = FetchByIndex e indexes →
              fst (run_call cfg c s) = Raise (RuntimeError no_search_results)) as Hfetch.
    { intros e indexes ->. simpl. by rewrite fetch_pages_without_results. }
    destruct (run_call cfg c s) as [r s1]. simpl in *.
    destruct (IH s1 Hcalls) as [Htrace Hend]; [by rewrite Hres|].
    destruct (run_calls cfg calls s1) as [trace s2]. simpl in *.
    split; [by apply fetches_raise_cons | done].
Qed.







(** C9.  When a [get_sources] call returns with an empty stored result
    set, every [fetch_pages] call of every later sequence of calls that
    starts no new search raises the no-prior-search error, the very
    outcome that the same call has when no search was ever made. *)
Theorem empty_generation_is_never_fetchable (cfg : config) (se : search_env)
    (queries : list string) (s s' : state) (out : string) :
  get_sources se queries s = (Return out, s') →
  _last_search_results s' = [] →
  ∀ calls,
    Forall (λ c, starts_search c = false) calls →
    fetches_raise (RuntimeError no_search_results) (fst (run_calls cfg calls s'))
    ∧ _last_search_results (snd (run_calls cfg calls s')) = []
    ∧ ∀ e indexes,
        fst (fetch_pages cfg e indexes (snd (run_calls cfg calls s')))
        = fst (fetch_pages cfg e indexes initial_state).
Proof.
  intros _ Hnil calls Hcalls.
  destruct (no_results_no_fetch cfg calls s' Hcalls Hnil) as [Htrace Hend].
  split; [done|]. split; [done|]. intros e indexes.
  by rewrite !fetch_pages_without_results.
Qed.




(** ** The session after each call *)


(** A call after which a session runs either is a search that returned,
    or raised and changed nothing. *)
Lemma run_call_leaves_running (cfg : config) (c : call) (s : state) :
  is_tor_running (snd (run_call cfg c s)) = true →
  (∃ se queries out, c = Search se queries
     ∧ get_sources se queries s = (Return out, snd (run_call cfg c s)))
  ∨ (∃ err, run_call cfg c s = (Raise err, s)).
Proof.
  destruct c as [se queries | e indexes | e u]; simpl; intros Hrun.
  - destruct (get_sources se queries s) as [[out|err] s'] eqn:Hget; simpl in *.
    + left. by exists se, queries, out.
    + right. apply get_sources_raise in Hget as [[_ ->] | (_ & _ & Hstop & _)];
        [by exists err | congruence].
  - right. destruct (accepted_dec cfg e indexes s) as [Hacc|Hrej].
    + destruct (fetch_pages_accepted_state _ _ _ _ Hacc) as (Hstop & _). congruence.
    + destruct (fetch_pages_rejected_state _ _ _ _ Hrej) as (err & Herr & Hstate).
      exists err. destruct (fetch_pages cfg e indexes s) as [r s'] eqn:Hfetch. simpl in *.
      subst r. f_equal. destruct Hstate as [-> | [Hdead ->]]; [done|].
      destruct (check_tor_timeout_false _ _ _ Hdead) as [Heq | Heq]; [done|].
      rewrite Heq in Hrun. by rewrite kill_tor_not_running in Hrun.
  - destruct (fetch_specific_page_state cfg e u s) as (Hstop & _). congruence.
Qed.

(** C2.  After every sequence of calls made from the initial state, if a
    session is running then some [get_sources] call of the sequence
    returned, the state is still the one that call left (so its
    generation has not been fetched, the flag is down) and every call
    made since raised an error and changed nothing: the session is
    running only while a search that returned awaits its [fetch_pages]
    call.  In particular no session runs after an accepted [fetch_pages]
    call or after a [fetch_specific_page] call, whether they return or
    raise, nor after a [get_sources] call that raised once it was past the
    validation of its queries. *)
Theorem session_runs_only_while_awaiting_fetch (cfg : config) :
  (∀ calls,
     let s := snd (run_calls cfg calls initial_state) in
     is_tor_running s = true →
     _fetch_pages_called s = false
     ∧ ∃ before se queries after out,
         calls = before ++ Search se queries :: after
         ∧ get_sources se queries (snd (run_calls cfg before initial_state)) = (Return out, s)
         ∧ Forall (λ c, ∃ err, run_call cfg c s = (Raise err, s)) after)
  ∧ (∀ e indexes s,
       accepted cfg e indexes s →
       is_tor_running (snd (fetch_pages cfg e indexes s)) = false)
  ∧ (∀ e u s, is_tor_running (snd (fetch_specific_page cfg e u s)) = false)
  ∧ (∀ se queries s err s',
       get_sources se queries s = (Raise err, s') →
       queries ≠ [] → (length queries ≤ 3)%nat →
       is_tor_running s' = false).
Proof.
  split; [|split; [|split]].
  - intros calls. simpl. induction calls as [|c calls IH] using rev_ind; [done|].
    rewrite run_calls_snoc. simpl. intros Hrun.
    split.
    { pose proof (run_calls_consistent cfg (calls ++ [c]) initial_state consistent_initial)
        as (Hc & _).
      rewrite run_calls_snoc in Hc. simpl in Hc. by apply Hc. }
    destruct (run_call_leaves_running _ _ _ Hrun)
      as [(se & queries & out & -> & Hget) | [err Herr]].
    + exists calls, se, queries, [], out. split; [done|]. split; [done|]. constructor.
    + rewrite Herr in Hrun |- *. simpl in *.
      destruct (IH Hrun) as (_ & before & se & queries & after & out & -> & Hget & Hafter).
      exists before, se, queries, (after ++ [c]), out.
      split; [by rewrite <- app_assoc|]. split; [done|].
      apply Forall_app. split; [done|]. constructor; [by exists err | constructor].
  - intros e indexes s Hacc. by apply fetch_pages_accepted_state.
  - intros e u s. apply fetch_specific_page_state.
  - intros se queries s err s' Hget Hsome Hfew.
    apply get_sources_raise in Hget as [[[Hnil | Hmany] _] | (_ & _ & Hstop & _)];
      [done | lia | done].
Qed.


(** ** The browser never rewinds *)

Lemma steady_refl (w : world) : steady w w.
Proof. by split. Qed.

Lemma steady_trans (w1 w2 w3 : world) : steady w1 w2 → steady w2 w3 → steady w1 w3.
Proof. intros [H1 H2] [H3 H4]. split; [congruence | lia]. Qed.

Lemma keeps_ret {A} (a : A) : keeps (mret a).
Proof. intros w. apply steady_refl. Qed.

Lemma keeps_raise {A} (err : exn) : keeps (@raise A err).
Proof. intros w. apply steady_refl. Qed.

Lemma keeps_bind {A B} (m : drv A) (f : A → drv B) :
  keeps m → (∀ a, keeps (f a)) → keeps (m ≫= f).
Proof.
  intros Hm Hf w. unfold mbind, drv_bind. specialize (Hm w).
  destruct (m w) as [[a|err] w1]; simpl in *; [|done].
  eapply steady_trans; [done | apply Hf].
Qed.

Lemma keeps_attempt {A} (m : drv A) : keeps m → keeps (attempt m).
Proof. intros Hm w. unfold attempt. specialize (Hm w). by destruct (m w). Qed.

Lemma keeps_now : keeps now.
Proof. intros w. apply steady_refl. Qed.

Lemma keeps_sleep (ms : Z) : 0 ≤ ms → keeps (sleep ms).
Proof. intros Hms w. split; simpl; [done | lia]. Qed.

Lemma keeps_driver_call {A} (script : nat → response) (needs_window : bool)
    (k : response → world → A * world) :
  (∀ r w, steady w (snd (k r w))) → keeps (driver_call script needs_window k).
Proof.
  intros Hk w. unfold driver_call.
  assert (steady w (answered (script (calls w)) w)) as Hans by (split; simpl; [done | lia]).
  destruct (raises (script (calls w))); [done|].
  destruct (needs_window && negb (focus_alive (answered (script (calls w)) w))); [done|].
  specialize (Hk (script (calls w)) (answered (script (calls w)) w)).
  destruct (k (script (calls w)) (answered (script (calls w)) w)) as [a w2]. simpl in *.
  by eapply steady_trans.
Qed.

Lemma keeps_current_window_handle (script : nat → response) :
  keeps (current_window_handle script).
Proof. apply keeps_driver_call. intros r w. apply steady_refl. Qed.

Lemma keeps_get_window_handles (script : nat → response) :
  keeps (get_window_handles script).
Proof. apply keeps_driver_call. intros r w. apply steady_refl. Qed.

Lemma keeps_window_open (script : nat → response) : keeps (window_open script).
Proof. apply keeps_driver_call. intros r w. by split. Qed.

Lemma keeps_switch_to_window (script : nat → response) (h : handle) :
  keeps (switch_to_window script h).
Proof.
  intros w. unfold switch_to_window.
  assert (steady w (answered (script (calls w)) w)) as Hans by (split; simpl; [done | lia]).
  destruct (raises (script (calls w))); [done|]. by case_bool_decide.
Qed.

Lemma keeps_driver_get (script : nat → response) (u : string) : keeps (driver_get script u).
Proof.
  intros w. unfold driver_get.
  eapply steady_trans; [|apply keeps_driver_call; intros r w1; apply steady_refl].
  by split.
Qed.

Lemma keeps_read_ready_state (script : nat → response) : keeps (read_ready_state script).
Proof. apply keeps_driver_call. intros r w. apply steady_refl. Qed.

Lemma keeps_is_connection_error_page (script : nat → response) :
  keeps (is_connection_error_page script).
Proof. apply keeps_driver_call. intros r w. apply steady_refl. Qed.

Lemma keeps_get_page_source (script : nat → response) : keeps (get_page_source script).
Proof. apply keeps_driver_call. intros r w. apply steady_refl. Qed.

Lemma keeps_close_window (script : nat → response) : keeps (close_window script).
Proof. apply keeps_driver_call. intros r w. by split. Qed.

Create HintDb keeps.
#[local] Hint Resolve keeps_ret keeps_raise keeps_attempt keeps_now
  keeps_current_window_handle keeps_get_window_handles keeps_window_open
  keeps_switch_to_window keeps_driver_get keeps_read_ready_state
  keeps_is_connection_error_page keeps_get_page_source keeps_close_window : keeps.

(** Split a computation along its binds and close the leaves with the
    lemmas on the driver calls. *)
Ltac keeps_tac :=
  repeat first
    [ progress auto with keeps
    | apply keeps_bind; [|intros ?]
    | apply keeps_attempt
    | match goal with
      | |- keeps (match ?x with _ => _ end) => destruct x
      | |- keeps (if ?b then _ else _) => destruct b
      | |- keeps (let '(_, _) := ?x in _) => destruct x
      end ].

Lemma keeps_tab_for (script : nat → response) (i : nat) : keeps (tab_for script i).
Proof. unfold tab_for. keeps_tac. Qed.

Lemma keeps_dispatch_from (script : nat → response) (urls : list string) (i : nat)
    (tab_url_map : list (handle * string)) (tab_dispatch_times : gmap string Z) :
  keeps (dispatch_from script i urls tab_url_map tab_dispatch_times).
Proof.
  revert i tab_url_map tab_dispatch_times.
  induction urls as [|u urls IH]; intros i m t; simpl; [apply keeps_ret|].
  apply keeps_bind; [apply keeps_tab_for | intros h].
  apply keeps_bind; [apply keeps_now | intros t0].
  apply keeps_bind; [apply keeps_attempt, keeps_driver_get | intros _].
  apply IH.
Qed.

Lemma keeps_lookup_tab (m : list (handle * string)) (h : handle) : keeps (lookup_tab m h).
Proof. unfold lookup_tab. keeps_tac. Qed.

Lemma keeps_record_load_time (t : gmap string Z) (u : string) (lt : gmap string Z) :
  keeps (record_load_time t u lt).
Proof. unfold record_load_time. keeps_tac. Qed.

Lemma keeps_capture (script : nat → response) (u : string) : keeps (capture script u).
Proof. unfold capture. keeps_tac. Qed.

Lemma keeps_close_if_not_last (script : nat → response) : keeps (close_if_not_last script).
Proof. unfold close_if_not_last. keeps_tac. Qed.

#[local] Hint Resolve keeps_tab_for keeps_lookup_tab keeps_record_load_time keeps_capture
  keeps_close_if_not_last : keeps.

Lemma keeps_sweep_tab (script : nat → response) (m : list (handle * string))
    (t : gmap string Z) (h : handle) (st : collecting) :
  keeps (sweep_tab script m t h st).
Proof. unfold sweep_tab. keeps_tac. Qed.

Lemma keeps_sweep (script : nat → response) (m : list (handle * string))
    (t : gmap string Z) (snapshot : list handle) (st : collecting) :
  keeps (sweep script m t snapshot st).
Proof.
  revert st. induction snapshot as [|h rest IH]; intros st; simpl; [apply keeps_ret|].
  apply keeps_bind; [apply keeps_sweep_tab | intros st']. apply IH.
Qed.

Lemma keeps_pause (deadline : option Z) (st : collecting) : keeps (pause deadline st).
Proof.
  intros w. unfold pause.
  destruct (negb (bool_decide (pending st = [])) && negb (deadline_exceeded deadline w));
    [by apply keeps_sleep | apply steady_refl].
Qed.

Lemma keeps_poll (fuel : nat) (script : nat → response) (m : list (handle * string))
    (t : gmap string Z) (page_timeout : Z) (deadline : option Z) (start : Z)
    (st : collecting) :
  keeps (poll fuel script m t page_timeout deadline start st).
Proof.
  revert st. induction fuel as [|fuel IH]; intros st w; simpl.
  - destruct (keep_polling page_timeout deadline start st w); apply steady_refl.
  - destruct (keep_polling page_timeout deadline start st w); [|apply steady_refl].
    revert w. apply keeps_bind; [apply keeps_sweep | intros st'].
    apply keeps_bind; [apply keeps_pause | intros _]. apply IH.
Qed.

Lemma keeps_last_chance (script : nat → response) (m : list (handle * string))
    (t : gmap string Z) (h : handle) (st : collecting) :
  keeps (last_chance script m t h st).
Proof. unfold last_chance. keeps_tac. Qed.

Lemma keeps_last_chances (script : nat → response) (m : list (handle * string))
    (t : gmap string Z) (snapshot : list handle) (st : collecting) :
  keeps (last_chances script m t snapshot st).
Proof.
  revert st. induction snapshot as [|h rest IH]; intros st; simpl; [apply keeps_ret|].
  apply keeps_bind; [apply keeps_last_chance | intros st']. apply IH.
Qed.

Lemma keeps_collect_batch (script : nat → response) (m : list (handle * string))
    (t : gmap string Z) (page_timeout : Z) (deadline : option Z) :
  keeps (_collect_batch script m t page_timeout deadline).
Proof.
  unfold _collect_batch.
  apply keeps_bind; [apply keeps_now | intros start].
  apply keeps_bind; [apply keeps_poll | intros st].
  apply keeps_bind; [apply keeps_last_chances | intros st']. apply keeps_ret.
Qed.

(** [_dispatch_batch] logs its batch, once. *)
Lemma dispatch_batch_logged (script : nat → response) (urls : list string) (w : world) :
  dispatched (snd (_dispatch_batch script urls w)) = dispatched w ++ [urls]
  ∧ clock w ≤ clock (snd (_dispatch_batch script urls w)).
Proof.
  unfold _dispatch_batch, log_batch, mbind, drv_bind.
  destruct (keeps_dispatch_from script urls 0 [] ∅
              {| clock := clock w;
                 window_handles := window_handles w;
                 current_window := current_window w;
                 next_handle := next_handle w;
                 calls := calls w;
                 navigations := navigations w;
                 dispatched := dispatched w ++ [urls];
                 peak_tabs := peak_tabs w |}) as [Hlog Hclock].
  done.
Qed.

(** ** The polling loop stops by itself *)

(** With [fuel] sweeps left and no more than [500 * fuel] milliseconds of
    the page timeout left, the loop of [_collect_batch] is left only when
    its condition fails: the bound on the sweeps is never what stops it. *)
Lemma poll_stops_on_its_condition (script : nat → response) (m : list (handle * string))
    (t : gmap string Z) (page_timeout : Z) (deadline : option Z) (start : Z)
    (fuel : nat) (st : collecting) (w : world) :
  seconds page_timeout - (clock w - start) ≤ 500 * Z.of_nat fuel →
  ∀ st' w',
    poll fuel script m t page_timeout deadline start st w = (Return st', w') →
    keep_polling page_timeout deadline start st' w' = false.
Proof.
  revert st w. induction fuel as [|fuel IH]; intros st w Hleft st' w'; simpl.
  - destruct (keep_polling page_timeout deadline start st w) eqn:Hkeep.
    + unfold keep_polling in Hkeep.
      apply andb_prop in Hkeep as [[_ Htime]%andb_prop _]. apply Z.ltb_lt in Htime. lia.
    + by intros [= <- <-].
  - destruct (keep_polling page_timeout deadline start st w) eqn:Hkeep;
      [|by intros [= <- <-]].
    unfold mbind, drv_bind.
    pose proof (keeps_sweep script m t (pending st) st w) as [_ Hclock].
    destruct (sweep script m t (pending st) st w) as [[st1|err] w1]; [|done].
    simpl in Hclock. unfold pause.
    destruct (negb (bool_decide (pending st1 = [])) && negb (deadline_exceeded deadline w1))
      eqn:Hpause; simpl.
    + apply IH. simpl. lia.
    + intros Hpoll.
      assert (keep_polling page_timeout deadline start st1 w1 = false) as Hstop.
      { unfold keep_polling. apply andb_false_iff in Hpause as [->| ->]; [done|].
        apply andb_false_r. }
      destruct fuel; simpl in Hpoll; rewrite Hstop in Hpoll; by simplify_eq.
Qed.

Lemma collect_batch_polls_to_the_end (script : nat → response) (m : list (handle * string))
    (t : gmap string Z) (page_timeout : Z) (deadline : option Z)
    (st : collecting) (w : world) (st' : collecting) (w' : world) :
  poll (enough_sweeps page_timeout) script m t page_timeout deadline (clock w) st w
  = (Return st', w') →
  keep_polling page_timeout deadline (clock w) st' w' = false.
Proof.
  apply poll_stops_on_its_condition. unfold enough_sweeps, seconds. lia.
Qed.

(** ** Batches *)

Section chunks.
Context {A : Type} (n : nat) (l : list A).

Lemma concat_chunks_from (j m : nat) :
  concat (chunk n l <$> seq j m) = take (m * n) (drop (j * n) l).
Proof.
  revert j. induction m as [|m IH]; intros j; simpl; [done|].
  rewrite IH. unfold chunk.
  replace (S j * n)%nat with (j * n + n)%nat by lia.
  rewrite <- drop_drop. by rewrite take_take_drop.
Qed.

Lemma concat_chunks_rest (j m : nat) :
  (length l ≤ m * n)%nat → (j ≤ m)%nat →
  concat (drop j (chunk n l <$> seq 0 m)) = drop (j * n) l.
Proof.
  intros Hall Hj. rewrite <- fmap_drop, drop_seq. simpl.
  rewrite concat_chunks_from. apply take_ge. rewrite length_drop. nia.
Qed.

Lemma chunk_length (k : nat) :
  length (chunk n l k) = (n `min` (length l - k * n))%nat.
Proof. unfold chunk. by rewrite length_take, length_drop. Qed.
End chunks.

Lemma py_range_chunks (len step : Z) :
  0 ≤ len → 0 < step →
  py_range len step
  = Return ((λ k : nat, Z.of_nat k * step) <$> seq 0 (Z.to_nat ((len + step - 1) `div` step))).
Proof.
  intros Hlen Hstep. unfold py_range.
  destruct (Z.eqb_spec step 0); [lia|]. destruct (Z.ltb_spec step 0); [lia|].
  f_equal. unfold seqZ. rewrite <- list_fmap_compose.
  apply list_fmap_ext. intros i k _. simpl. lia.
Qed.

Lemma slice_chunk {A} (step : Z) (l : list A) (k : nat) :
  0 < step → slice (Z.of_nat k * step) step l = chunk (Z.to_nat step) l k.
Proof.
  intros Hstep. unfold slice, chunk. do 2 f_equal. nia.
Qed.

Lemma slice_from_chunk {A} (step : Z) (l : list A) (k : nat) :
  0 < step → slice_from (Z.of_nat k * step) l = drop (k * Z.to_nat step) l.
Proof. intros Hstep. unfold slice_from. f_equal. nia. Qed.

Lemma batch_count (len step : Z) :
  0 ≤ len → 0 < step →
  let m := Z.to_nat ((len + step - 1) `div` step) in
  (Z.to_nat len ≤ m * Z.to_nat step)%nat
  ∧ ∀ k, (k < m)%nat → (k * Z.to_nat step < Z.to_nat len)%nat.
Proof.
  intros Hlen Hstep m.
  assert (0 ≤ (len + step - 1) `div` step) as Hq by (apply Z.div_pos; lia).
  pose proof (Z.div_mod (len + step - 1) step ltac:(lia)) as Hdm.
  pose proof (Z.mod_pos_bound (len + step - 1) step Hstep) as Hmod.
  subst m. split; [nia|]. intros k Hk. nia.
Qed.

Lemma mark_remaining_other (remaining : list string) (all_results : gmap string content)
    (u : string) :
  u ∉ remaining → mark_remaining remaining all_results !! u = all_results !! u.
Proof.
  unfold mark_remaining. revert all_results.
  induction remaining as [|v remaining IH]; intros all_results Hu; simpl; [done|].
  apply not_elem_of_cons in Hu as [Hne Hu]. rewrite IH by done.
  by apply lookup_insert_ne.
Qed.

Lemma mark_remaining_timeout (remaining : list string) (all_results : gmap string content)
    (u : string) :
  u ∈ remaining → mark_remaining remaining all_results !! u = Some overall_timeout_reached.
Proof.
  revert all_results.
  induction remaining as [|v remaining IH]; intros all_results Hu; [by apply elem_of_nil in Hu|].
  destruct (decide (u ∈ remaining)) as [Hin|Hout].
  - by apply (IH (<[v := overall_timeout_reached]> all_results)).
  - apply elem_of_cons in Hu as [->|?]; [|done].
    change (mark_remaining remaining (<[v := overall_timeout_reached]> all_results) !! v
            = Some overall_timeout_reached).
    rewrite (mark_remaining_other remaining _ v Hout). apply lookup_insert_eq.
Qed.

Lemma extract_all_lookup (e : browser_env) (all_results : gmap string content) (u : string) :
  extract_all e all_results !! u = extract_content e u <$> all_results !! u.
Proof.
  unfold extract_all. rewrite map_lookup_imap. by destruct (all_results !! u).
Qed.

(** The loop over the batches, from any point on: the batches it hands to
    [_dispatch_batch] are the next ones in order, and when it returns
    either it went through all of them or it stopped at the first one
    that started past the deadline, in the world of that moment, with
    every URL from that index on marked. *)
Lemma fetch_batches_log (cfg : config) (script : nat → response) (page_timeout : Z)
    (deadline : option Z) (urls : list string) (starts : list Z)
    (all_results : gmap string content) (w : world) :
  let run := fetch_batches cfg script page_timeout deadline urls starts all_results w in
  ∃ j, (j ≤ length starts)%nat
    ∧ dispatched (snd run)
      = dispatched w ++ ((λ i, slice i (MAX_CONCURRENT_TABS cfg) urls) <$> take j starts)
    ∧ ∀ all', fst run = Return all' →
        j = length starts
        ∨ ∃ i before,
            starts !! j = Some i
            ∧ deadline_exceeded deadline (snd run) = true
            ∧ all' = mark_remaining (slice_from i urls) before.
Proof.
  simpl. revert all_results w.
  induction starts as [|i later IH]; intros all_results w; simpl.
  - exists 0%nat. split; [done|]. split; [by rewrite app_nil_r|]. by left.
  - destruct (deadline_exceeded deadline w) eqn:Hcut; simpl.
    + exists 0%nat. split; [lia|]. split; [by rewrite app_nil_r|].
      intros all' [= <-]. right. by exists i, all_results.
    + unfold mbind, drv_bind.
      pose proof (dispatch_batch_logged script (slice i (MAX_CONCURRENT_TABS cfg) urls) w)
        as [Hlog _].
      destruct (_dispatch_batch script (slice i (MAX_CONCURRENT_TABS cfg) urls) w)
        as [[[m t]|err] w1]; simpl in *.
      2:{ exists 1%nat. split; [lia|]. split; [by rewrite Hlog | done]. }
      pose proof (keeps_collect_batch script m t page_timeout deadline w1) as [Hkeep _].
      destruct (_collect_batch script m t page_timeout deadline w1)
        as [[[batch_results lt]|err] w2]; simpl in *.
      2:{ exists 1%nat. split; [lia|]. split; [by rewrite Hkeep, Hlog | done]. }
      destruct (IH (batch_results ∪ all_results) w2) as (j & Hj & Hdisp & Hret).
      exists (S j). split; [lia|]. split.
      * rewrite Hdisp, Hkeep, Hlog. simpl. by rewrite <- app_assoc.
      * intros all' Hall. destruct (Hret all' Hall) as [-> | Hstop]; [by left | by right].
Qed.

Lemma fill_browser_error_lookup (msg : string) (urls : list string)
    (res : gmap string content) (u : string) :
  (∀ v c, res !! v = Some c → c = Failure browser_error msg) →
  u ∈ urls ∨ is_Some (res !! u) →
  fill_browser_error msg urls res !! u = Some (Failure browser_error msg).
Proof.
  unfold fill_browser_error. revert res.
  induction urls as [|v urls IH]; intros res Hres Hu; simpl.
  - destruct Hu as [Hu | [c Hc]]; [by apply elem_of_nil in Hu|].
    by rewrite Hc, (Hres u c Hc).
  - apply IH.
    + intros v' c. destruct (res !! v) eqn:Hv; [apply Hres|].
      rewrite lookup_insert. case_decide; [by intros [= <-] | apply Hres].
    + destruct Hu as [[-> | Hu]%elem_of_cons | Hu]; [|by left|].
      * right. destruct (res !! v) eqn:Hv; [by rewrite Hv|].
        rewrite lookup_insert_eq. by eexists.
      * right. destruct (res !! v) eqn:Hv; [done|].
        rewrite lookup_insert. by case_decide.
Qed.

Lemma keeps_driver_quit (script : nat → response) : keeps (driver_quit script).
Proof. apply keeps_driver_call. intros r w. by split. Qed.

Lemma keeps_set_page_load_timeout (script : nat → response) (page_timeout : Z) :
  keeps (set_page_load_timeout script page_timeout).
Proof. apply keeps_driver_call. intros r w. apply steady_refl. Qed.

Lemma keeps_start_virtual_display (e : browser_env) : keeps (start_virtual_display e).
Proof. unfold start_virtual_display. destruct (virtual_display e); by intros w. Qed.

Lemma keeps_launch_driver (e : browser_env) : keeps (launch_driver e).
Proof. intros w. unfold launch_driver. by destruct (driver_launch_error e). Qed.

Lemma keeps_fetch_cleanup (e : browser_env) : keeps (fetch_cleanup e).
Proof.
  unfold fetch_cleanup.
  destruct (driver_launch_error e); [apply keeps_ret|].
  destruct (virtual_display e); try apply keeps_ret;
    (apply keeps_bind; [apply keeps_attempt, keeps_driver_quit | intros _; apply keeps_ret]).
Qed.

(** A whole run of [_fetch_urls_with_browser]: what was handed to
    [_dispatch_batch] is the first [j] batches; and either these are all
    the batches, or an exception ended the run and every URL carries the
    browser error, or the overall deadline ended it (it has passed when
    the run returns) and every URL of the batches from [j] on carries the
    timeout outcome. *)
Lemma fetch_urls_with_browser_batches (cfg : config) (e : browser_env) (s : state)
    (urls : list string) (page_timeout overall_timeout : Z) (starts : list Z) :
  truthy (_tbb_path s) = true → truthy (_tbb_profile_path s) = true →
  trafilatura_import e = Imported →
  py_range (Z.of_nat (length urls)) (MAX_CONCURRENT_TABS cfg) = Return starts →
  (∀ j i, starts !! j = Some i →
     slice_from i urls
     = concat (drop j ((λ i, slice i (MAX_CONCURRENT_TABS cfg) urls) <$> starts))) →
  let batches := (λ i, slice i (MAX_CONCURRENT_TABS cfg) urls) <$> starts in
  let run := _fetch_urls_with_browser cfg e s urls page_timeout overall_timeout in
  ∃ j fetched,
    (j ≤ length batches)%nat
    ∧ fst run = Return fetched
    ∧ dispatched (snd run) = take j batches
    ∧ (j = length batches
       ∨ (∃ msg, ∀ u, u ∈ urls → fetched !! u = Some (Failure browser_error msg))
       ∨ (0 < overall_timeout
          ∧ total_start e + seconds overall_timeout < clock (snd run)
          ∧ ∀ u, u ∈ concat (drop j batches) →
              fetched !! u = Some overall_timeout_reached)).
Proof.
  intros Htbb Hprofile Himport Hrange Hslices batches run. subst run.
  unfold _fetch_urls_with_browser. rewrite Htbb, Hprofile. simpl.
  assert (∀ msg u, u ∈ urls →
            fill_browser_error msg urls ∅ !! u = Some (Failure browser_error msg)) as Hfill.
  { intros msg u Hu. apply fill_browser_error_lookup; [|by left].
    intros v c. by rewrite lookup_empty. }
  assert (∀ (r : result (gmap string content * option exn)) w,
            dispatched w = [] →
            returned r = false →
            let fetched := after_except urls r in
            ∃ j fetched',
              (j ≤ length batches)%nat
              ∧ (let '(_, w') := fetch_cleanup e w in (Return fetched, w')).1 = Return fetched'
              ∧ dispatched (let '(_, w') := fetch_cleanup e w in (Return fetched, w')).2
                = take j batches
              ∧ (j = length batches
                 ∨ (∃ msg, ∀ u, u ∈ urls → fetched' !! u = Some (Failure browser_error msg))
                 ∨ (0 < overall_timeout
                    ∧ total_start e + seconds overall_timeout
                      < clock (let '(_, w') := fetch_cleanup e w in (Return fetched, w')).2
                    ∧ ∀ u, u ∈ concat (drop j batches) →
                        fetched' !! u = Some overall_timeout_reached))) as Hfailed.
  { intros [res|err] w Hlog Hret; [done|]. simpl.
    pose proof (keeps_fetch_cleanup e w) as [Hkeep _].
    destruct (fetch_cleanup e w) as [r' w']. simpl in *.
    exists 0%nat, (fill_browser_error (exn_message err) urls ∅).
    split; [lia|]. split; [done|]. split; [by rewrite Hkeep, Hlog|].
    right. left. exists (exn_message err). apply Hfill. }
  unfold fetch_body, extraction_loop, mbind, drv_bind. rewrite Himport.
  pose proof (keeps_start_virtual_display e (before_launch e)) as [Hlog0 _].
  destruct (start_virtual_display e (before_launch e)) as [[[]|err] w0] eqn:Hdisplay;
    simpl in Hlog0; [|by apply (Hfailed (Raise err))].
  pose proof (keeps_launch_driver e w0) as [Hlog1 Hclock1].
  destruct (launch_driver e w0) as [[[]|err] w1] eqn:Hlaunch; simpl in Hlog1;
    [|apply (Hfailed (Raise err)); [congruence | done]].
  pose proof (keeps_set_page_load_timeout (driver_script e) page_timeout w1) as [Hlog2 _].
  destruct (set_page_load_timeout (driver_script e) page_timeout w1) as [[[]|err] w2];
    simpl in Hlog2; [|apply (Hfailed (Raise err)); [congruence | done]].
  rewrite Hrange.
  set (deadline := if 0 <? overall_timeout
                   then Some (total_start e + seconds overall_timeout) else None).
  destruct (fetch_batches_log cfg (driver_script e) page_timeout deadline urls starts ∅ w2)
    as (j & Hj & Hdisp & Hret). simpl in Hdisp, Hret.
  destruct (fetch_batches cfg (driver_script e) page_timeout deadline urls starts ∅ w2)
    as [[all'|err] w3] eqn:Hloop; simpl in *.
  2:{ pose proof (keeps_fetch_cleanup e w3) as [Hkeep _].
      destruct (fetch_cleanup e w3) as [r' w']. simpl in *.
      exists j, (fill_browser_error (exn_message err) urls ∅).
      split; [unfold batches; by rewrite length_fmap|]. split; [done|]. split.
      - rewrite Hkeep, Hdisp, Hlog2, Hlog1, Hlog0. simpl. unfold batches. by rewrite fmap_take.
      - right. left. exists (exn_message err). apply Hfill. }
  pose proof (keeps_fetch_cleanup e w3) as [Hkeep Hclock].
  destruct (fetch_cleanup e w3) as [r' w']. simpl in *.
  exists j, (extract_all e all'). split; [unfold batches; by rewrite length_fmap|]. split; [done|]. split.
  { rewrite Hkeep, Hdisp, Hlog2, Hlog1, Hlog0. simpl. unfold batches. by rewrite fmap_take. }
  destruct (Hret all' eq_refl) as [-> | (i & before & Hi & Hcut & ->)];
    [left; unfold batches; by rewrite length_fmap|].
  right. right. subst deadline.
  destruct (Z.ltb_spec 0 overall_timeout) as [Hpos|]; [|done]. simpl in Hcut.
  apply Z.ltb_lt in Hcut. split; [done|]. split; [lia|].
  intros u Hu. rewrite extract_all_lookup.
  unfold batches in Hu. rewrite <- (Hslices j i Hi) in Hu.
  by rewrite (mark_remaining_timeout _ _ _ Hu).
Qed.

(** The start indexes and the batches of the loop, for a positive bound. *)
Lemma batches_are_chunks (cfg : config) (urls : list string) :
  0 < MAX_CONCURRENT_TABS cfg →
  let n := Z.to_nat (MAX_CONCURRENT_TABS cfg) in
  let m := Z.to_nat ((Z.of_nat (length urls) + MAX_CONCURRENT_TABS cfg - 1)
                     `div` MAX_CONCURRENT_TABS cfg) in
  let starts := (λ k : nat, Z.of_nat k * MAX_CONCURRENT_TABS cfg) <$> seq 0 m in
  py_range (Z.of_nat (length urls)) (MAX_CONCURRENT_TABS cfg) = Return starts
  ∧ (λ i, slice i (MAX_CONCURRENT_TABS cfg) urls) <$> starts = chunk n urls <$> seq 0 m
  ∧ (length urls ≤ m * n)%nat
  ∧ (∀ k, (k < m)%nat → (k * n < length urls)%nat)
  ∧ (∀ j, (j < m)%nat → starts !! j = Some (Z.of_nat j * MAX_CONCURRENT_TABS cfg)).
Proof.
  intros Hpos n m starts.
  destruct (batch_count (Z.of_nat (length urls)) (MAX_CONCURRENT_TABS cfg)) as [Hall Hsome];
    [lia | done |]. rewrite Nat2Z.id in Hall, Hsome.
  split; [apply py_range_chunks; [lia | done]|].
  split; [|split; [done | split; [done|]]].
  - subst starts. rewrite <- list_fmap_compose. apply list_fmap_ext.
    intros i k _. simpl. by apply slice_chunk.
  - intros j Hj. subst starts. rewrite list_lookup_fmap, lookup_seq_lt by done. done.
Qed.


(** ** The properties on the sample surroundings *)

Lemma demo_searched_returns :
  get_sources demo_search ["a"; "b"] initial_state = (Return demo_output, demo_searched).
Proof. vm_compute. reflexivity. Qed.

Lemma demo_request_valid :
  ∀ i, i ∈ [2; 7] → i ∈ index <$> _last_search_results demo_searched.
Proof.
  intros i Hi. apply (bool_decide_unpack _).
  apply elem_of_cons in Hi as [-> | Hi]; [vm_compute; exact I|].
  apply list_elem_of_singleton in Hi as ->. vm_compute. exact I.
Qed.



Lemma empty_generation_is_never_fetchable_witness :
  fst (fetch_pages default_config (demo_fetch 1000) [1] demo_empty)
  = Raise (RuntimeError no_search_results).
Proof.
  destruct (empty_generation_is_never_fetchable default_config demo_search ["nothing"]
              initial_state demo_empty demo_empty_output)
    with (calls := [FetchByIndex (demo_fetch 1000) [1]]) as (Hraise & _).
  - vm_compute. reflexivity.
  - reflexivity.
  - repeat constructor.
  - apply (Hraise (demo_fetch 1000) [1]). cbn [run_calls run_call].
    destruct (fetch_pages default_config (demo_fetch 1000) [1] demo_empty).
    cbn [fst]. by left.
Defined.


Lemma session_runs_only_while_awaiting_fetch_witness :
  _fetch_pages_called
    (snd (run_calls default_config
            [Search demo_search ["a"; "b"]; FetchByIndex (demo_fetch 1000) [9]]
            initial_state)) = false
  ∧ is_tor_running (snd (get_sources demo_search ["a"; "down"] demo_searched)) = false.
Proof.
  destruct (session_runs_only_while_awaiting_fetch default_config)
    as (Hruns & _ & _ & Hfailed).
  split.
  - apply (Hruns [Search demo_search ["a"; "b"]; FetchByIndex (demo_fetch 1000) [9]]).
    vm_compute. reflexivity.
  - apply (Hfailed demo_search ["a"; "down"] demo_searched (OtherError "connection refused")).
    + vm_compute. reflexivity.
    + discriminate.
    + simpl. lia.
Defined.


(** The scenario of the deadline: with a bound of 2, five URLs and a
    browser whose every call takes twenty seconds, the overall deadline
    of sixty seconds has passed when the second batch is due; only the
    first batch is dispatched and navigated to, and the three other URLs
    get the timeout outcome. *)
Example deadline_before_second_batch :
  let run := _fetch_urls_with_browser two_tabs (demo_browser (λ _, slow_page))
               demo_searched five_urls 10 60 in
  ∃ fetched,
    fst run = Return fetched
    ∧ (dispatched (snd run), navigations (snd run),
       fetched !! "https://shared.example/x", fetched !! "https://a.example/3",
       fetched !! "https://shared.example/y")
      = ([["https://a.example/1"; "https://a.example/2"]],
         [(0%nat, "https://a.example/1"); (1%nat, "https://a.example/2")],
         Some overall_timeout_reached, Some overall_timeout_reached,
         Some overall_timeout_reached).
Proof. eexists. split; vm_compute; reflexivity. Qed.

(** C8.  The number of open tabs is not bounded by the concurrency bound
    across batches: with a bound of 2 and four URLs, when reading
    [document.readyState] raises in both tabs of the first batch, neither
    tab is closed, the second batch opens a third one, and three tabs are
    open at once. *)
Theorem tabs_left_open_exceed_the_bound :
  let run := _fetch_urls_with_browser two_tabs
               (demo_browser ready_state_raises_in_first_batch)
               demo_searched four_urls 10 60 in
  MAX_CONCURRENT_TABS two_tabs = 2
  ∧ length four_urls = 4%nat
  ∧ returned (fst run) = true
  ∧ dispatched (snd run)
    = [ ["https://a.example/1"; "https://a.example/2"];
        ["https://shared.example/x"; "https://a.example/3"] ]
  ∧ peak_tabs (snd run) = 3%nat
  ∧ MAX_CONCURRENT_TABS two_tabs < Z.of_nat (peak_tabs (snd run)).
Proof. repeat split; vm_compute; reflexivity. Qed.

(** * Further properties *)

(** ** The browser run as a whole *)

Lemma preserves_ret {A} (P : world → Prop) (a : A) : preserves P (mret a).
Proof. by intros w. Qed.

Lemma preserves_raise {A} (P : world → Prop) (err : exn) : preserves P (@raise A err).
Proof. by intros w. Qed.

Lemma preserves_bind {A B} (P : world → Prop) (m : drv A) (f : A → drv B) :
  preserves P m → (∀ a, preserves P (f a)) → preserves P (m ≫= f).
Proof.
  intros Hm Hf w Hw. unfold mbind, drv_bind. specialize (Hm w Hw).
  destruct (m w) as [[a|err] w1]; simpl in *; [|done]. by apply Hf.
Qed.

Lemma preserves_attempt {A} (P : world → Prop) (m : drv A) :
  preserves P m → preserves P (attempt m).
Proof. intros Hm w Hw. unfold attempt. specialize (Hm w Hw). by destruct (m w). Qed.

Lemma tidy_driver_call {A} (script : nat → response) (needs_window : bool)
    (k : response → world → A * world) :
  (∀ r w, tidy w → tidy (snd (k r w))) → preserves tidy (driver_call script needs_window k).
Proof.
  intros Hk w Hw. unfold driver_call.
  assert (tidy (answered (script (calls w)) w)) as Hans by done.
  destruct (raises (script (calls w))); [done|].
  destruct (needs_window && negb (focus_alive (answered (script (calls w)) w))); [done|].
  specialize (Hk (script (calls w)) _ Hans).
  by destruct (k (script (calls w)) (answered (script (calls w)) w)).
Qed.

Lemma tidy_open_window (w : world) : tidy w → tidy (open_window w).
Proof.
  unfold tidy. simpl. intros Hw. apply Forall_app. split.
  - eapply Forall_impl; [done|]. simpl. lia.
  - repeat constructor.
Qed.

Lemma tidy_close_focus (w : world) : tidy w → tidy (close_focus w).
Proof.
  unfold tidy. simpl. intros Hw. apply Forall_forall. intros h [_ Hh]%list_elem_of_filter.
  by eapply Forall_forall in Hw.
Qed.

Lemma tidy_current_window_handle script : preserves tidy (current_window_handle script).
Proof. by apply tidy_driver_call. Qed.
Lemma tidy_get_window_handles script : preserves tidy (get_window_handles script).
Proof. by apply tidy_driver_call. Qed.
Lemma tidy_window_open script : preserves tidy (window_open script).
Proof. apply tidy_driver_call. intros r w. apply tidy_open_window. Qed.
Lemma tidy_switch_to_window script h : preserves tidy (switch_to_window script h).
Proof.
  intros w Hw. unfold switch_to_window.
  destruct (raises (script (calls w))); [done|]. by case_bool_decide.
Qed.
Lemma tidy_driver_get script u : preserves tidy (driver_get script u).
Proof. intros w Hw. unfold driver_get. by apply tidy_driver_call. Qed.
Lemma tidy_read_ready_state script : preserves tidy (read_ready_state script).
Proof. by apply tidy_driver_call. Qed.
Lemma tidy_is_connection_error_page script : preserves tidy (is_connection_error_page script).
Proof. by apply tidy_driver_call. Qed.
Lemma tidy_get_page_source script : preserves tidy (get_page_source script).
Proof. by apply tidy_driver_call. Qed.
Lemma tidy_close_window script : preserves tidy (close_window script).
Proof. apply tidy_driver_call. intros r w. apply tidy_close_focus. Qed.
Lemma tidy_now : preserves tidy now.
Proof. by intros w. Qed.

Create HintDb tidy.
#[local] Hint Resolve preserves_ret preserves_raise preserves_attempt tidy_now
  tidy_current_window_handle tidy_get_window_handles tidy_window_open
  tidy_switch_to_window tidy_driver_get tidy_read_ready_state
  tidy_is_connection_error_page tidy_get_page_source tidy_close_window : tidy.

Ltac tidy_tac :=
  repeat first
    [ progress auto with tidy
    | apply preserves_bind; [|intros ?]
    | apply preserves_attempt
    | match goal with
      | |- preserves _ (match ?x with _ => _ end) => destruct x
      | |- preserves _ (if ?b then _ else _) => destruct b
      | |- preserves _ (let '(_, _) := ?x in _) => destruct x
      end ].

Lemma tidy_tab_for script i : preserves tidy (tab_for script i).
Proof. unfold tab_for. tidy_tac. Qed.

Lemma tidy_dispatch_from script urls i m t : preserves tidy (dispatch_from script i urls m t).
Proof.
  revert i m t. induction urls as [|u urls IH]; intros i m t; simpl; [apply preserves_ret|].
  apply preserves_bind; [apply tidy_tab_for | intros h].
  apply preserves_bind; [apply tidy_now | intros t0].
  apply preserves_bind; [apply preserves_attempt, tidy_driver_get | intros _].
  apply IH.
Qed.

Lemma tidy_dispatch_batch script urls : preserves tidy (_dispatch_batch script urls).
Proof.
  unfold _dispatch_batch. apply preserves_bind; [by intros w | intros _].
  apply tidy_dispatch_from.
Qed.

Lemma tidy_lookup_tab m h : preserves tidy (lookup_tab m h).
Proof. unfold lookup_tab. tidy_tac. Qed.
Lemma tidy_record_load_time t u lt : preserves tidy (record_load_time t u lt).
Proof. unfold record_load_time. tidy_tac. Qed.
Lemma tidy_capture script u : preserves tidy (capture script u).
Proof. unfold capture. tidy_tac. Qed.
Lemma tidy_close_if_not_last script : preserves tidy (close_if_not_last script).
Proof. unfold close_if_not_last. tidy_tac. Qed.
#[local] Hint Resolve tidy_tab_for tidy_lookup_tab tidy_record_load_time tidy_capture
  tidy_close_if_not_last : tidy.

Lemma tidy_sweep_tab script m t h st : preserves tidy (sweep_tab script m t h st).
Proof. unfold sweep_tab. tidy_tac. Qed.

Lemma tidy_sweep script m t snapshot st : preserves tidy (sweep script m t snapshot st).
Proof.
  revert st. induction snapshot as [|h rest IH]; intros st; simpl; [apply preserves_ret|].
  apply preserves_bind; [apply tidy_sweep_tab | intros st']. apply IH.
Qed.

Lemma tidy_pause deadline st : preserves tidy (pause deadline st).
Proof.
  intros w Hw. unfold pause.
  by destruct (negb (bool_decide (pending st = [])) && negb (deadline_exceeded deadline w)).
Qed.

Lemma tidy_poll fuel script m t page_timeout deadline start st :
  preserves tidy (poll fuel script m t page_timeout deadline start st).
Proof.
  revert st. induction fuel as [|fuel IH]; intros st w Hw; simpl.
  - by destruct (keep_polling page_timeout deadline start st w).
  - destruct (keep_polling page_timeout deadline start st w); [|done].
    revert w Hw. apply preserves_bind; [apply tidy_sweep | intros st'].
    apply preserves_bind; [apply tidy_pause | intros _]. apply IH.
Qed.

Lemma tidy_last_chance script m t h st : preserves tidy (last_chance script m t h st).
Proof. unfold last_chance. tidy_tac. Qed.

Lemma tidy_last_chances script m t snapshot st :
  preserves tidy (last_chances script m t snapshot st).
Proof.
  revert st. induction snapshot as [|h rest IH]; intros st; simpl; [apply preserves_ret|].
  apply preserves_bind; [apply tidy_last_chance | intros st']. apply IH.
Qed.

Lemma tidy_collect_batch script m t page_timeout deadline :
  preserves tidy (_collect_batch script m t page_timeout deadline).
Proof.
  unfold _collect_batch.
  apply preserves_bind; [apply tidy_now | intros start].
  apply preserves_bind; [apply tidy_poll | intros st].
  apply preserves_bind; [apply tidy_last_chances | intros st']. apply preserves_ret.
Qed.

(** What one step of the browser leaves alone. *)
Lemma tab_for_first script w h w' :
  tab_for script 0 w = (Return h, w') →
  h = current_window w ∧ h ∈ window_handles w
  ∧ window_handles w' = window_handles w ∧ next_handle w' = next_handle w
  ∧ current_window w' = h ∧ navigations w' = navigations w.
Proof.
  unfold tab_for, current_window_handle, driver_call. intros H.
  destruct (raises (script (calls w))); [done|].
  unfold focus_alive in H. simpl in H. case_bool_decide; simpl in H; [|done].
  by simplify_eq.
Qed.

Lemma tab_for_next script i w h w' :
  tab_for script (S i) w = (Return h, w') →
  h = next_handle w ∧ window_handles w' = window_handles w ++ [h]
  ∧ next_handle w' = S (next_handle w) ∧ current_window w' = h
  ∧ navigations w' = navigations w.
Proof.
  unfold tab_for, window_open, get_window_handles, driver_call, mbind, drv_bind. intros H.
  destruct (raises (script (calls w))); [done|].
  destruct (true && negb (focus_alive (answered (script (calls w)) w))); [done|].
  simpl in H.
  destruct (raises (script (S (calls w)))); [done|].
  rewrite last_snoc in H. unfold switch_to_window, mret, drv_ret in H. simpl in H.
  destruct (raises (script (S (S (calls w))))); [done|].
  case_bool_decide; [|done]. by simplify_eq.
Qed.

Lemma attempt_driver_get script u w :
  ∃ r w', attempt (driver_get script u) w = (Return r, w')
    ∧ window_handles w' = window_handles w ∧ next_handle w' = next_handle w
    ∧ current_window w' = current_window w
    ∧ navigations w' = navigations w ++ [(current_window w, u)].
Proof.
  unfold attempt, driver_get, driver_call. simpl.
  destruct (raises (script (calls w))); [by eexists _, _|].
  destruct (negb _); by eexists _, _.
Qed.

Lemma dict_set_fresh h u (m : list (handle * string)) :
  h ∉ dict_keys m → dict_set h u m = m ++ [(h, u)].
Proof.
  unfold dict_keys. induction m as [|[h' u'] m IH]; simpl; [done|].
  intros [Hne Hm]%not_elem_of_cons. case_decide; [done|]. by rewrite IH.
Qed.

Lemma dispatch_from_cons script i u rest m t w :
  dispatch_from script i (u :: rest) m t w
  = match tab_for script i w with
    | (Return h, w1) =>
        dispatch_from script (S i) rest (dict_set h u m) (<[u := clock w1]> t)
          (snd (attempt (driver_get script u) w1))
    | (Raise err, w1) => (Raise err, w1)
    end.
Proof.
  cbn [dispatch_from]. unfold mbind, drv_bind at 1.
  destruct (tab_for script i w) as [[h|err] w1]; [|done].
  unfold mbind, drv_bind at 1. unfold now at 1. unfold mbind, drv_bind at 1.
  destruct (attempt_driver_get script u w1) as (r & w2 & Hatt & _). by rewrite Hatt.
Qed.

(** The tabs that [dispatch_from] opens from the second URL on. *)
Lemma dispatch_from_next script urls i m t w m' t' w' :
  dispatch_from script (S i) urls m t w = (Return (m', t'), w') →
  Forall (λ h, (h < next_handle w)%nat) (dict_keys m) →
  let hs := seq (next_handle w) (length urls) in
  m' = m ++ zip hs urls
  ∧ window_handles w' = window_handles w ++ hs
  ∧ next_handle w' = (next_handle w + length urls)%nat
  ∧ current_window w' = default (current_window w) (last hs)
  ∧ navigations w' = navigations w ++ zip hs urls
  ∧ dom t' = dom t ∪ list_to_set urls.
Proof.
  revert i m t w. induction urls as [|u urls IH]; intros i m t w.
  - intros [= <- <- <-] _. simpl. rewrite !app_nil_r. repeat split; [lia | set_solver].
  - rewrite dispatch_from_cons.
    destruct (tab_for script (S i) w) as [[h|err] w1] eqn:Htab; [|done].
    apply tab_for_next in Htab as (-> & Hwin & Hnext & Hcur & Hnav).
    destruct (attempt_driver_get script u w1) as (r & w2 & -> & Hwin2 & Hnext2 & Hcur2 & Hnav2).
    cbn [snd]. intros Hrest Hkeys.
    assert (next_handle w ∉ dict_keys m) as Hfresh.
    { intros Hin. eapply Forall_forall in Hkeys; [|done]. simpl in Hkeys. lia. }
    rewrite (dict_set_fresh _ _ _ Hfresh) in Hrest.
    apply IH in Hrest as (-> & Hwin3 & Hnext3 & Hcur3 & Hnav3 & Hdom).
    + rewrite Hnext2, Hnext in *. rewrite Hwin3, Hwin2, Hwin, Hnav3, Hnav2, Hnav, Hcur3, Hcur2, Hcur.
      rewrite <- !app_assoc. cbn [length seq zip zip_with app]. repeat split; [lia | |].
      * rewrite last_cons. by destruct (last (seq (S (next_handle w)) (length urls))).
      * rewrite Hdom, dom_insert_L. set_solver.
    + rewrite Hnext2, Hnext. unfold dict_keys. rewrite fmap_app. apply Forall_app. split.
      * eapply Forall_impl; [done|]. simpl. lia.
      * repeat constructor.
Qed.

Lemma dict_keys_zip (hs : list handle) (urls : list string) :
  length hs = length urls → dict_keys (zip hs urls) = hs ∧ (zip hs urls).*2 = urls.
Proof. intros Hlen. unfold dict_keys. split; [by apply fst_zip; lia | by apply snd_zip; lia]. Qed.

(** [_dispatch_batch] *)
Lemma dispatch_batch_returns script urls w m t w' :
  tidy w →
  _dispatch_batch script urls w = (Return (m, t), w') →
  m.*2 = urls
  ∧ NoDup (dict_keys m)
  ∧ head (dict_keys m) = (λ _, current_window w) <$> head urls
  ∧ window_handles w' = window_handles w ++ tail (dict_keys m)
  ∧ Forall (λ h, h ∉ window_handles w) (tail (dict_keys m))
  ∧ navigations w' = navigations w ++ m
  ∧ dom t = list_to_set urls
  ∧ dispatched w' = dispatched w ++ [urls].
Proof.
  intros Hw Hrun.
  pose proof (dispatch_batch_logged script urls w) as [Hlog _]. rewrite Hrun in Hlog.
  revert Hrun. unfold _dispatch_batch, log_batch. unfold mbind, drv_bind at 1.
  destruct urls as [|u urls].
  - intros [= <- <- <-]. simpl. rewrite !app_nil_r. repeat split; try done; constructor.
  - rewrite dispatch_from_cons.
    match goal with |- context [tab_for script 0 ?w0] =>
      destruct (tab_for script 0 w0) as [[h|err] w1] eqn:Htab; [|done] end.
    apply tab_for_first in Htab as (Hh & Hin & Hwin & Hnext & Hcur & Hnav). simpl in *.
    destruct (attempt_driver_get script u w1) as (r & w2 & -> & Hwin2 & Hnext2 & Hcur2 & Hnav2).
    cbn [snd]. intros Hrest.
    assert (h < next_handle w)%nat as Hlt.
    { eapply Forall_forall in Hw; [|done]. done. }
    apply dispatch_from_next in Hrest as (-> & Hwin3 & Hnext3 & Hcur3 & Hnav3 & Hdom).
    2:{ rewrite Hnext2, Hnext. repeat constructor. done. }
    rewrite Hnext2, Hnext in *.
    destruct (dict_keys_zip (seq (next_handle w) (length urls)) urls) as [Hk Hv];
      [by rewrite length_seq|].
    unfold dict_keys, handle in *. cbn [app]. rewrite !fmap_cons. cbn [fst snd head tail].
    rewrite Hk, Hv. split; [done|]. split.
    { constructor; [|apply NoDup_seq]. rewrite elem_of_seq. lia. }
    split; [by rewrite Hh|]. split; [by rewrite Hwin3, Hwin2, Hwin|]. split.
    { apply Forall_forall. intros h' [Hge _]%elem_of_seq Hin'.
      eapply Forall_forall in Hw; [|done]. simpl in Hw. lia. }
    split; [by rewrite Hnav3, Hnav2, Hnav, Hcur, <- app_assoc|].
    split; [|done]. rewrite Hdom, dom_insert_L. set_solver.
Qed.

Lemma covered_weaken (Q Q' : content → bool) (m : list (handle * string))
    (todo : list handle) (res : gmap string content) :
  (∀ c, Q c = true → Q' c = true) → covered Q m todo res → covered Q' m todo res.
Proof.
  intros HQ [Hdone Hres]. split; [done|]. intros u c Hc.
  destruct (Hres u c Hc) as [? ?]. auto.
Qed.

Lemma sweep_outcome_batch (c : content) : sweep_outcome c = true → batch_outcome c = true.
Proof. destruct c as [html|[] msg]; done. Qed.

Lemma total_ret {A} (a : A) (Q : A → Prop) : Q a → total (mret a) Q.
Proof. intros Ha w. by exists a, w. Qed.

Lemma total_bind {A B} (m : drv A) (f : A → drv B) (Q : A → Prop) (R : B → Prop) :
  total m Q → (∀ a, Q a → total (f a) R) → total (m ≫= f) R.
Proof.
  intros Hm Hf w. destruct (Hm w) as (a & w1 & Hmw & Ha).
  destruct (Hf a Ha w1) as (b & w2 & Hfw & Hb).
  exists b, w2. unfold mbind, drv_bind. by rewrite Hmw.
Qed.

Lemma total_attempt {A} (m : drv A) : total (attempt m) (λ _, True).
Proof. intros w. unfold attempt. destruct (m w) as [r w1]. by exists r, w1. Qed.

Lemma total_attempt_post {A} (m : drv A) (Q : result A → Prop) :
  (∀ w, Q (fst (m w))) → total (attempt m) Q.
Proof.
  intros Hm w. unfold attempt. specialize (Hm w). destruct (m w) as [r w1]. by exists r, w1.
Qed.

Lemma total_weaken {A} (m : drv A) (Q R : A → Prop) :
  total m Q → (∀ a, Q a → R a) → total m R.
Proof. intros Hm HQR w. destruct (Hm w) as (a & w1 & ? & ?). exists a, w1. auto. Qed.

Lemma total_now : total now (λ _, True).
Proof. intros w. by exists (clock w), w. Qed.

Lemma total_record_load_time t u lt : total (record_load_time t u lt) (λ _, True).
Proof.
  unfold record_load_time. destruct (t !! u).
  - eapply total_bind; [apply total_now | intros t0 _]. by apply total_ret.
  - by apply total_ret.
Qed.

Lemma total_close_if_not_last script : total (close_if_not_last script) (λ _, True).
Proof.
  unfold close_if_not_last.
  eapply total_bind; [apply total_attempt | intros r _]. by apply total_ret.
Qed.

Lemma total_lookup_tab m h u : dict_get h m = Some u → total (lookup_tab m h) (λ v, v = u).
Proof. intros Hu. unfold lookup_tab. rewrite Hu. by apply total_ret. Qed.

Lemma total_capture script u : total (capture script u) (λ c, sweep_outcome c = true).
Proof.
  intros w. unfold capture, attempt, mbind, drv_bind, mret, drv_ret.
  destruct (is_connection_error_page script w) as [[[]|err] w1]; [by eexists _, _ | | by eexists _, _].
  destruct (get_page_source script w1) as [[html|err] w2]; [|by eexists _, _].
  destruct (String.eqb html EmptyString) eqn:Hhtml; eexists _, _; (split; [done|]); [done|].
  simpl. by rewrite Hhtml.
Qed.

Lemma covered_resolve Q m u c lt h st :
  dict_get h m = Some u → Q c = true →
  covered Q m (pending st) (results st) →
  covered Q m (pending (resolve u c lt h st)) (results (resolve u c lt h st)).
Proof.
  intros Hu Hc [Hdone Hres]. split; simpl.
  - intros h' u' Hu' Hout. destruct (decide (h' = h)) as [->|Hne].
    + simplify_eq. rewrite lookup_insert_eq. by eexists.
    + rewrite lookup_insert. case_decide; [by eexists|]. apply (Hdone h'); [done|].
      intros Hin. apply Hout. unfold remove_pending. by apply list_elem_of_filter.
  - intros u' c'. rewrite lookup_insert. case_decide.
    + intros [= <-]. subst. split; [by exists h | done].
    + apply Hres.
Qed.

(** One tab of a sweep: no exception leaves it, and the tab is either
    resolved or left pending. *)
Lemma total_sweep_tab script m t h st u :
  dict_get h m = Some u →
  covered sweep_outcome m (pending st) (results st) →
  total (sweep_tab script m t h st)
    (λ st', covered sweep_outcome m (pending st') (results st') ∧ pending st' ⊆ pending st).
Proof.
  intros Hu Hst. unfold sweep_tab.
  assert (∀ c lt, sweep_outcome c = true →
            covered sweep_outcome m (pending (resolve u c lt h st)) (results (resolve u c lt h st))
            ∧ pending (resolve u c lt h st) ⊆ pending st) as Hresolve.
  { intros c lt Hc. split; [by apply covered_resolve|].
    simpl. unfold remove_pending. intros x [_ Hx]%list_elem_of_filter. done. }
  eapply total_bind; [apply total_attempt | intros [[]|err] _].
  - eapply total_bind; [by apply total_lookup_tab | intros ? ->].
    eapply total_bind; [apply total_attempt | intros [ready|err] _].
    + destruct (String.eqb ready "complete" || String.eqb ready "interactive").
      * eapply total_bind; [apply total_record_load_time | intros lt _].
        eapply total_bind; [apply total_capture | intros c Hc].
        eapply total_bind; [apply total_close_if_not_last | intros _ _].
        apply total_ret. by apply Hresolve.
      * by apply total_ret.
    + eapply total_bind; [apply total_record_load_time | intros lt _].
      apply total_ret. by apply Hresolve.
  - eapply total_bind; [by apply total_lookup_tab | intros ? ->].
    eapply total_bind; [apply total_record_load_time | intros lt _].
    apply total_ret. by apply Hresolve.
Qed.

Lemma total_sweep script m t snapshot st :
  (∀ h, h ∈ snapshot → is_Some (dict_get h m)) →
  covered sweep_outcome m (pending st) (results st) →
  total (sweep script m t snapshot st)
    (λ st', covered sweep_outcome m (pending st') (results st') ∧ pending st' ⊆ pending st).
Proof.
  revert st. induction snapshot as [|h rest IH]; intros st Hkeys Hst; simpl.
  - by apply total_ret.
  - destruct (Hkeys h) as [u Hu]; [by left|].
    eapply total_bind; [by eapply total_sweep_tab | intros st1 [Hst1 Hsub1]].
    eapply total_weaken; [apply IH; [|done]|].
    + intros h' Hh'. apply Hkeys. by right.
    + intros st2 [Hst2 Hsub2]. split; [done|]. set_solver.
Qed.

Lemma total_pause deadline st : total (pause deadline st) (λ _, True).
Proof.
  intros w. unfold pause, sleep.
  destruct (negb (bool_decide (pending st = [])) && negb (deadline_exceeded deadline w));
    by eexists _, _.
Qed.

Lemma total_poll fuel script m t page_timeout deadline start st :
  (∀ h, h ∈ pending st → is_Some (dict_get h m)) →
  covered sweep_outcome m (pending st) (results st) →
  total (poll fuel script m t page_timeout deadline start st)
    (λ st', covered sweep_outcome m (pending st') (results st') ∧ pending st' ⊆ pending st).
Proof.
  revert st. induction fuel as [|fuel IH]; intros st Hkeys Hst w; simpl.
  - destruct (keep_polling page_timeout deadline start st w); by exists st, w.
  - destruct (keep_polling page_timeout deadline start st w); [|by exists st, w].
    revert w. eapply total_bind; [by apply total_sweep | intros st1 [Hst1 Hsub1]].
    eapply total_bind; [apply total_pause | intros _ _].
    eapply total_weaken; [apply IH; [|done]|].
    + intros h Hh. apply Hkeys. by apply Hsub1.
    + intros st2 [Hst2 Hsub2]. split; [done|]. set_solver.
Qed.

Lemma total_last_chance script m t h st u :
  dict_get h m = Some u →
  total (last_chance script m t h st)
    (λ st', ∃ c lt, batch_outcome c = true
       ∧ st' = {| results := <[u := c]> (results st);
                  tab_load_times := lt;
                  pending := pending st |}).
Proof.
  intros Hu w. unfold last_chance, attempt. unfold mbind, drv_bind at 1.
  unfold mbind, drv_bind at 1.
  destruct (switch_to_window script h w) as [[[]|err] w1].
  2:{ rewrite Hu. simpl.
      destruct (total_record_load_time t u (tab_load_times st) w1) as (lt & w2 & Hlt & _).
      unfold mbind, drv_bind. rewrite Hlt. eexists _, _. split; [reflexivity|].
      eexists _, _. split; [|reflexivity]. done. }
  unfold lookup_tab. rewrite Hu. unfold mbind, drv_bind at 1. unfold mret at 1, drv_ret at 1.
  unfold mbind, drv_bind at 1.
  destruct (total_record_load_time t u (tab_load_times st) w1) as (lt & w2 & Hlt & _).
  rewrite Hlt. unfold mbind, drv_bind at 1.
  destruct (get_page_source script w2) as [got w3].
  destruct (total_close_if_not_last script w3) as ([] & w4 & Hclose & _).
  unfold drv_bind at 1. rewrite Hclose. unfold mret, drv_ret. cbv beta iota.
  eexists _, _. split; [done|]. eexists _, _. split; [|done].
  destruct got as [html|err]; [|done].
  destruct (negb (String.eqb html EmptyString) && has_visible_char html) eqn:Hhtml; [|done].
  simpl. by apply andb_prop in Hhtml as [-> _].
Qed.

Lemma total_last_chances script m t snapshot st :
  (∀ h, h ∈ snapshot → is_Some (dict_get h m)) →
  covered batch_outcome m snapshot (results st) →
  total (last_chances script m t snapshot st)
    (λ st', covered batch_outcome m [] (results st')).
Proof.
  revert st. induction snapshot as [|h rest IH]; intros st Hkeys Hst; simpl.
  - by apply total_ret.
  - destruct (Hkeys h) as [u Hu]; [by left|].
    eapply total_bind; [by eapply total_last_chance | intros st1 (c & lt & Hc & ->)].
    apply IH; [intros h' Hh'; apply Hkeys; by right|]. simpl.
    destruct Hst as [Hdone Hres]. split.
    + intros h' u' Hu' Hout. destruct (decide (h' = h)) as [->|Hne].
      * simplify_eq. rewrite lookup_insert_eq. by eexists.
      * rewrite lookup_insert. case_decide; [by eexists|]. apply (Hdone h'); [done|].
        intros [?|?]%elem_of_cons; done.
    + intros u' c'. rewrite lookup_insert. case_decide.
      * intros [= <-]. subst. split; [by exists h | done].
      * apply Hres.
Qed.

Lemma dict_get_keys (m : list (handle * string)) (h : handle) :
  h ∈ dict_keys m ↔ is_Some (dict_get h m).
Proof.
  unfold dict_keys. induction m as [|[h' u'] m IH]; simpl.
  - split; [by intros ?%elem_of_nil | by intros [? ?]].
  - rewrite elem_of_cons. case_decide; [subst; split; [by eexists | by left]|].
    rewrite IH. split; [by intros [?|?] | by right].
Qed.

Lemma dict_get_values (m : list (handle * string)) (u : string) :
  NoDup (dict_keys m) → (∃ h, dict_get h m = Some u) ↔ u ∈ m.*2.
Proof.
  unfold dict_keys. induction m as [|[h' u'] m IH]; simpl.
  - intros _. split; [by intros [? ?] | by intros ?%elem_of_nil].
  - intros [Hfresh Hnd]%NoDup_cons. rewrite elem_of_cons, <- (IH Hnd). split.
    + intros [h Hh]. case_decide; [left; by simplify_eq | right; by exists h].
    + intros [-> | [h Hh]]; [exists h'; by case_decide|].
      exists h. case_decide as Heq; [|done]. exfalso. apply Hfresh. rewrite Heq.
      apply (dict_get_keys m h). by eexists.
Qed.

(** [_collect_batch] never raises, and what it returns holds one outcome
    for each URL of the tab map, and nothing else. *)
Lemma collect_batch_returns script m t page_timeout deadline :
  total (_collect_batch script m t page_timeout deadline)
    (λ '(res, lt), covered batch_outcome m [] res).
Proof.
  unfold _collect_batch.
  eapply total_bind; [apply total_now | intros start _].
  eapply total_bind.
  - apply total_poll; simpl.
    + intros h. apply dict_get_keys.
    + split; [|by intros u c; rewrite lookup_empty].
      intros h u Hu Hout. exfalso. apply Hout, dict_get_keys. by eexists.
  - simpl. intros st [Hst Hsub].
    eapply total_bind; [apply total_last_chances|].
    + intros h Hh. apply dict_get_keys. by apply Hsub.
    + eapply covered_weaken; [apply sweep_outcome_batch | done].
    + intros st' Hst'. by apply total_ret.
Qed.

Lemma dom_mark_remaining (remaining : list string) (all_results : gmap string content) :
  dom (mark_remaining remaining all_results) = dom all_results ∪ list_to_set remaining.
Proof.
  unfold mark_remaining. revert all_results.
  induction remaining as [|u remaining IH]; intros all_results; simpl; [set_solver|].
  rewrite IH, dom_insert_L. set_solver.
Qed.

Lemma dom_fill_browser_error (msg : string) (urls : list string) (res : gmap string content) :
  dom (fill_browser_error msg urls res) = dom res ∪ list_to_set urls.
Proof.
  unfold fill_browser_error. revert res.
  induction urls as [|u urls IH]; intros res; simpl; [set_solver|].
  rewrite IH. destruct (res !! u) eqn:Hu.
  - apply elem_of_dom_2 in Hu. set_solver.
  - rewrite dom_insert_L. set_solver.
Qed.

Lemma dom_extract_all (e : browser_env) (all_results : gmap string content) :
  dom (extract_all e all_results) = dom all_results.
Proof.
  apply set_eq. intros u. by rewrite !elem_of_dom, extract_all_lookup, fmap_is_Some.
Qed.

Lemma covered_dom (m : list (handle * string)) (res : gmap string content) :
  NoDup (dict_keys m) → covered batch_outcome m [] res → dom res = list_to_set m.*2.
Proof.
  intros Hnd [Hdone Hres]. apply set_eq. intros u.
  rewrite elem_of_dom, elem_of_list_to_set, <- (dict_get_values m u Hnd). split.
  - intros [c Hc]. by apply Hres in Hc as [? _].
  - intros [h Hh]. apply (Hdone h u Hh). apply not_elem_of_nil.
Qed.

(** The loop over the batches, when it returns: every URL of every batch
    has an outcome. *)
Lemma fetch_batches_returns (cfg : config) (script : nat → response) (page_timeout : Z)
    (deadline : option Z) (urls : list string) (starts : list Z)
    (all_results : gmap string content) (w : world) (all' : gmap string content)
    (w' : world) :
  tidy w →
  (∀ j i, starts !! j = Some i →
     slice_from i urls
     = concat (drop j ((λ i, slice i (MAX_CONCURRENT_TABS cfg) urls) <$> starts))) →
  fetch_batches cfg script page_timeout deadline urls starts all_results w
  = (Return all', w') →
  dom all' = dom all_results
             ∪ list_to_set (concat ((λ i, slice i (MAX_CONCURRENT_TABS cfg) urls) <$> starts))
  ∧ (∀ u c, all' !! u = Some c → all_results !! u = Some c ∨ batch_outcome c = true).
Proof.
  revert all_results w. induction starts as [|i later IH]; intros all_results w Hw Hslices.
  - simpl. intros [= <- <-]. split; [set_solver | by left].
  - cbn [fetch_batches]. destruct (deadline_exceeded deadline w) eqn:Hcut.
    + intros [= <- <-]. split; [by rewrite dom_mark_remaining, (Hslices 0%nat i eq_refl)|].
      intros u c Hu. destruct (decide (u ∈ slice_from i urls)) as [Hin|Hout].
      * rewrite (mark_remaining_timeout _ _ _ Hin) in Hu. right. by simplify_eq.
      * rewrite (mark_remaining_other _ _ _ Hout) in Hu. by left.
    + unfold mbind, drv_bind at 1.
      pose proof (tidy_dispatch_batch script (slice i (MAX_CONCURRENT_TABS cfg) urls) w Hw)
        as Hw1.
      destruct (_dispatch_batch script (slice i (MAX_CONCURRENT_TABS cfg) urls) w)
        as [[[m t]|err] w1] eqn:Hdispatch; [|done].
      apply dispatch_batch_returns in Hdispatch as (Hvalues & Hnd & _); [|done].
      simpl in Hw1. unfold mbind, drv_bind at 1.
      pose proof (tidy_collect_batch script m t page_timeout deadline w1 Hw1) as Hw2.
      destruct (collect_batch_returns script m t page_timeout deadline w1)
        as ([res lt] & w2 & Hcollect & Hres).
      rewrite Hcollect in Hw2 |- *. simpl in Hw2. intros Hrest.
      apply IH in Hrest as [Hdom Hvals]; [|done|].
      2:{ intros j i' Hj. apply (Hslices (S j) i' Hj). }
      split.
      * rewrite Hdom, dom_union_L, (covered_dom m res Hnd Hres), Hvalues. simpl.
        rewrite list_to_set_app_L. set_solver.
      * intros u c Hu. destruct (Hvals u c Hu) as [Hacc|?]; [|by right].
        apply lookup_union_Some_raw in Hacc as [Hin | [_ Hin]]; [|by left].
        right. by apply Hres in Hin as [_ ?].
Qed.

(** How the [try] block of [_fetch_urls_with_browser] ends: with an
    exception before the loop over the batches is reached, nothing having
    been navigated to, or as that loop ends. *)
Lemma fetch_body_cases (cfg : config) (e : browser_env) (urls : list string)
    (page_timeout overall_timeout : Z) (r : result (gmap string content * option exn))
    (w : world) :
  fetch_body cfg e urls page_timeout overall_timeout (before_launch e) = (r, w) →
  (∃ err, r = Raise err ∧ navigations w = [])
  ∨ (∃ starts deadline w2 r',
       py_range (Z.of_nat (length urls)) (MAX_CONCURRENT_TABS cfg) = Return starts
       ∧ tidy w2 ∧ navigations w2 = []
       ∧ fetch_batches cfg (driver_script e) page_timeout deadline urls starts ∅ w2 = (r', w)
       ∧ r = match r' with
             | Return all' => Return (extraction_loop e all')
             | Raise err => Raise err
             end).
Proof.
  unfold fetch_body. unfold mbind, drv_bind at 1.
  destruct (start_virtual_display e (before_launch e)) as [[[]|err] w0] eqn:Hdisplay.
  2:{ intros [= <- <-]. left. exists err. split; [done|].
      unfold start_virtual_display, raise, mret, drv_ret in Hdisplay.
      destruct (virtual_display e); by simplify_eq. }
  assert (w0 = before_launch e) as ->.
  { unfold start_virtual_display, raise, mret, drv_ret in Hdisplay.
    destruct (virtual_display e); by simplify_eq. }
  unfold mbind, drv_bind at 1. unfold launch_driver at 1.
  destruct (driver_launch_error e) as [msg|] eqn:Hlaunch.
  { intros [= <- <-]. left. by exists (OtherError msg). }
  unfold mbind, drv_bind at 1.
  destruct (set_page_load_timeout (driver_script e) page_timeout
              (fresh_browser (before_launch e))) as [[[]|err] w2] eqn:Hset.
  2:{ intros [= <- <-]. left. exists err. split; [done|].
      unfold set_page_load_timeout, driver_call in Hset.
      destruct (raises _); simpl in Hset; by simplify_eq. }
  assert (tidy w2 ∧ navigations w2 = []) as [Hw2 Hnav2].
  { unfold set_page_load_timeout, driver_call in Hset.
    destruct (raises _); simpl in Hset; simplify_eq; simpl; split; try done;
      repeat constructor. }
  unfold mbind, drv_bind at 1.
  destruct (py_range (Z.of_nat (length urls)) (MAX_CONCURRENT_TABS cfg)) as [starts|err]
    eqn:Hrange.
  2:{ intros [= <- <-]. left. by exists err. }
  unfold mbind, drv_bind at 1.
  match goal with |- context [fetch_batches cfg _ _ ?d urls starts ∅ w2] =>
    set (deadline := d) end.
  destruct (fetch_batches cfg (driver_script e) page_timeout deadline urls starts ∅ w2)
    as [[all'|err] w3] eqn:Hloop.
  - intros [= <- <-]. right. by exists starts, deadline, w2, (Return all').
  - intros [= <- <-]. right. by exists starts, deadline, w2, (Raise err).
Qed.

Lemma fetch_cleanup_navigations (e : browser_env) (w : world) :
  navigations (snd (fetch_cleanup e w)) = navigations w.
Proof.
  unfold fetch_cleanup, attempt, driver_quit, driver_call, mbind, drv_bind.
  destruct (driver_launch_error e); [done|].
  destruct (virtual_display e); try done;
    by destruct (raises (driver_script e (calls w))).
Qed.

(** How a call of [_fetch_urls_with_browser] ends when the browser paths
    are set: with the dict that the [try] block and its [except] clause
    leave. *)
Lemma fetch_urls_with_browser_cases (cfg : config) (e : browser_env) (s : state)
    (urls : list string) (page_timeout overall_timeout : Z) :
  truthy (_tbb_path s) = true → truthy (_tbb_profile_path s) = true →
  ∃ r w,
    fetch_body cfg e urls page_timeout overall_timeout (before_launch e) = (r, w)
    ∧ _fetch_urls_with_browser cfg e s urls page_timeout overall_timeout
      = (Return (after_except urls r), snd (fetch_cleanup e w)).
Proof.
  intros Htbb Hprofile. unfold _fetch_urls_with_browser. rewrite Htbb, Hprofile.
  cbn [negb orb].
  destruct (fetch_body cfg e urls page_timeout overall_timeout (before_launch e)) as [r w].
  exists r, w. split; [done|]. by destruct (fetch_cleanup e w).
Qed.

Lemma fill_browser_error_cases (msg : string) (urls : list string)
    (res : gmap string content) (u : string) (c : content) :
  fill_browser_error msg urls res !! u = Some c →
  res !! u = Some c ∨ (c = Failure browser_error msg ∧ u ∈ urls).
Proof.
  unfold fill_browser_error. revert res.
  induction urls as [|v urls IH]; intros res; simpl; [by left|].
  intros [Hc | [-> Hu]]%IH; [|right; split; [done | by right]].
  destruct (res !! v) eqn:Hv; [by left|].
  destruct (decide (v = u)) as [->|Hne].
  - rewrite lookup_insert_eq in Hc. injection Hc as <-. right. split; [done | by left].
  - rewrite lookup_insert_ne in Hc by done. by left.
Qed.

(** What the extraction loop and the [except] clause leave for a URL: what
    the extraction makes of its outcome, or the browser error. *)
Lemma after_extraction_lookup (e : browser_env) (urls : list string)
    (all' : gmap string content) (u : string) (c : content) :
  after_except urls (Return (extraction_loop e all')) !! u = Some c →
  extract_all e all' !! u = Some c
  ∨ (∃ msg, c = Failure browser_error msg ∧ u ∈ urls).
Proof.
  unfold extraction_loop. destruct (trafilatura_import e) as [|msg copied]; [by left|].
  destruct (holds_text all'); [|by left]. cbn [after_except exn_message].
  intros [Hc | [-> Hu]]%fill_browser_error_cases; [|right; by exists msg].
  left. unfold copied_before in Hc.
  apply map_lookup_filter_Some in Hc as [Hc [_ Htext]]. simpl in Htext.
  rewrite extract_all_lookup, Hc. by destruct c.
Qed.

Lemma after_extraction_dom (e : browser_env) (urls : list string)
    (all' : gmap string content) :
  dom all' = list_to_set urls →
  dom (after_except urls (Return (extraction_loop e all'))) = list_to_set urls.
Proof.
  intros Hdom. unfold extraction_loop.
  destruct (trafilatura_import e) as [|msg copied];
    [cbn [after_except]; by rewrite <- Hdom, dom_extract_all|].
  destruct (holds_text all'); cbn [after_except];
    [|by rewrite <- Hdom, dom_extract_all].
  rewrite dom_fill_browser_error.
  assert (dom (copied_before copied all') ⊆ dom all') as Hsub
    by apply dom_filter_subseteq.
  rewrite Hdom in Hsub. set_solver.
Qed.

Lemma after_extraction_imported (e : browser_env) (urls : list string)
    (all' : gmap string content) :
  trafilatura_import e = Imported →
  after_except urls (Return (extraction_loop e all')) = extract_all e all'.
Proof. intros Himport. unfold extraction_loop. by rewrite Himport. Qed.

Lemma after_extraction_empty (e : browser_env) (urls : list string) :
  after_except urls (Return (extraction_loop e ∅)) = ∅.
Proof.
  unfold extraction_loop, holds_text. rewrite map_to_list_empty.
  assert (extract_all e ∅ = ∅) as Hempty.
  { apply map_eq. intros u. by rewrite extract_all_lookup, lookup_empty. }
  destruct (trafilatura_import e); by simpl.
Qed.

Lemma attempt_driver_get_calls script u w :
  calls (snd (attempt (driver_get script u) w)) = S (calls w)
  ∧ focus_alive (snd (attempt (driver_get script u) w)) = focus_alive w.
Proof.
  unfold attempt, driver_get, driver_call. simpl.
  destruct (raises (script (calls w))); [done|].
  by destruct (negb _).
Qed.

Lemma tab_for_next_succeeds script i w :
  focus_alive w = true →
  raises (script (calls w)) = None →
  raises (script (S (calls w))) = None →
  raises (script (S (S (calls w)))) = None →
  ∃ h w', tab_for script (S i) w = (Return h, w')
    ∧ calls w' = S (S (S (calls w))) ∧ focus_alive w' = true.
Proof.
  intros Hfocus H0 H1 H2.
  unfold tab_for, window_open, get_window_handles, driver_call, mbind, drv_bind.
  rewrite H0. unfold focus_alive in *. simpl. rewrite Hfocus. simpl. rewrite H1.
  rewrite last_snoc. unfold switch_to_window, mret, drv_ret. simpl. rewrite H2.
  rewrite bool_decide_eq_true_2 by (apply elem_of_app; right; by left).
  eexists _, _. split; [done|]. simpl. split; [done|].
  apply bool_decide_eq_true_2. apply elem_of_app. right. by left.
Qed.

Lemma dispatch_from_next_succeeds script urls i m t w :
  focus_alive w = true →
  (∀ k, (calls w ≤ k)%nat →
        raises (script k) = None ∨ ∃ j : nat, k = (calls w + 3 + 4 * j)%nat) →
  returned (fst (dispatch_from script (S i) urls m t w)) = true.
Proof.
  revert i m t w. induction urls as [|u urls IH]; intros i m t w Hfocus Hscript; [done|].
  rewrite dispatch_from_cons.
  destruct (tab_for_next_succeeds script i w) as (h & w1 & -> & Hcalls & Hfocus1); [done|..].
  1-3: match goal with |- raises (?s ?k) = None =>
         destruct (Hscript k) as [?|[j Hj]]; [lia | done | lia] end.
  destruct (attempt_driver_get_calls script u w1) as [Hcalls2 Hfocus2].
  apply IH; [congruence|].
  intros k Hk. destruct (Hscript k) as [?|[j Hj]]; [lia | by left|].
  right. exists (j - 1)%nat. lia.
Qed.

Lemma tab_for_first_succeeds script w :
  focus_alive w = true →
  raises (script (calls w)) = None →
  ∃ w', tab_for script 0 w = (Return (current_window w), w')
    ∧ calls w' = S (calls w) ∧ focus_alive w' = true.
Proof.
  intros Hfocus H0. unfold tab_for, current_window_handle, driver_call.
  rewrite H0. unfold focus_alive in *. simpl. rewrite Hfocus. simpl. by eexists.
Qed.

Lemma dispatch_batch_succeeds script urls w :
  focus_alive w = true →
  (∀ k, (calls w ≤ k)%nat →
        raises (script k) = None ∨ ∃ j : nat, k = (calls w + 1 + 4 * j)%nat) →
  returned (fst (_dispatch_batch script urls w)) = true.
Proof.
  intros Hfocus Hscript. unfold _dispatch_batch, log_batch. unfold mbind, drv_bind at 1.
  destruct urls as [|u urls]; [done|]. rewrite dispatch_from_cons.
  match goal with |- context [tab_for script 0 ?w0] =>
    destruct (tab_for_first_succeeds script w0) as (w1 & -> & Hcalls & Hfocus1) end.
  { done. }
  { simpl. destruct (Hscript (calls w)) as [?|[j Hj]]; [lia | done | lia]. }
  destruct (attempt_driver_get_calls script u w1) as [Hcalls2 Hfocus2].
  simpl in Hcalls.
  apply dispatch_from_next_succeeds; [congruence|].
  intros k Hk. destruct (Hscript k) as [?|[j Hj]]; [lia | by left|].
  right. exists (j - 1)%nat. lia.
Qed.

(** ** Dispatching, collecting, fetching *)

(** X1. [_dispatch_batch] opens one tab per URL.  In a browser whose window
    handles are all older than the next one it gives out, a dispatch that
    returns has mapped distinct tabs to the URLs, in their order: the
    window that had the focus for the first URL and a new window, added at
    the end of the window list, for each other one; every tab has been
    navigated to its URL and every URL has a dispatch time.  The dispatch
    returns whenever the window with the focus exists and no driver call
    but the [driver.get] ones raises: an exception of [driver.get] is
    swallowed. *)
Theorem dispatch_batch_opens_one_tab_per_url (script : nat → response)
    (urls : list string) (w : world) :
  tidy w →
  (∀ m t w',
     _dispatch_batch script urls w = (Return (m, t), w') →
     m.*2 = urls
     ∧ NoDup (dict_keys m)
     ∧ head (dict_keys m) = (λ _, current_window w) <$> head urls
     ∧ window_handles w' = window_handles w ++ tail (dict_keys m)
     ∧ Forall (λ h, h ∉ window_handles w) (tail (dict_keys m))
     ∧ navigations w' = navigations w ++ m
     ∧ dom t = list_to_set urls)
  ∧ (focus_alive w = true →
     (∀ k, (calls w ≤ k)%nat →
           raises (script k) = None ∨ ∃ j : nat, k = (calls w + 1 + 4 * j)%nat) →
     returned (fst (_dispatch_batch script urls w)) = true).
Proof.
  intros Hw. split.
  - intros m t w' Hrun.
    by apply dispatch_batch_returns in Hrun as (? & ? & ? & ? & ? & ? & ? & _).
  - apply dispatch_batch_succeeds.
Qed.

Lemma dispatch_batch_opens_one_tab_per_url_witness :
  tidy launched
  ∧ returned (fst (_dispatch_batch navigation_fails ["https://a.example/1"; "https://a.example/2"]
                     (advance 0 launched))) = true.
Proof.
  assert (tidy (advance 0 launched)) as Hw by (repeat constructor).
  split; [repeat constructor|].
  destruct (dispatch_batch_opens_one_tab_per_url navigation_fails
              ["https://a.example/1"; "https://a.example/2"] (advance 0 launched) Hw)
    as [_ Hreturns].
  apply Hreturns; [reflexivity|].
  intros k _. unfold navigation_fails.
  destruct (Nat.eqb_spec (k `mod` 4) 1) as [Hk|Hk]; [|by left].
  right. exists (k `div` 4)%nat. change (calls (advance 0 launched)) with 0%nat.
  pose proof (Nat.div_mod_eq k 4). lia.
Defined.

(** X2. [_collect_batch] never raises.  It returns an outcome for each URL
    of the tab map and for nothing else, and each outcome is a non-empty
    page source or an error of one of the kinds [tab_error],
    [script_error], [connection_error], [empty_response], [capture_error]
    and [timeout]. *)
Theorem collect_batch_resolves_every_tab (script : nat → response)
    (tab_url_map : list (handle * string)) (tab_dispatch_times : gmap string Z)
    (page_timeout : Z) (deadline : option Z) (w : world) :
  ∃ res load_times w',
    _collect_batch script tab_url_map tab_dispatch_times page_timeout deadline w
    = (Return (res, load_times), w')
    ∧ (∀ u, is_Some (res !! u) ↔ ∃ h, dict_get h tab_url_map = Some u)
    ∧ (∀ u c, res !! u = Some c → batch_outcome c = true).
Proof.
  destruct (collect_batch_returns script tab_url_map tab_dispatch_times page_timeout
              deadline w) as ([res lt] & w' & Hrun & Hdone & Hres).
  exists res, lt, w'. split; [done|]. split.
  - intros u. split.
    + intros [c Hc]. by apply Hres in Hc as [? _].
    + intros [h Hh]. apply (Hdone h u Hh). apply not_elem_of_nil.
  - intros u c Hc. by apply Hres in Hc as [_ ?].
Qed.

Lemma fetch_urls_returns (cfg : config) (e : browser_env) (s : state)
    (urls : list string) (page_timeout overall_timeout : Z) :
  truthy (_tbb_path s) = true → truthy (_tbb_profile_path s) = true →
  ∃ r w,
    fetch_body cfg e urls page_timeout overall_timeout (before_launch e) = (r, w)
    ∧ fetch_urls cfg e s urls page_timeout overall_timeout
      = Return (after_except urls r)
    ∧ navigations (snd (_fetch_urls_with_browser cfg e s urls page_timeout overall_timeout))
      = navigations w.
Proof.
  intros Htbb Hprofile.
  destruct (fetch_urls_with_browser_cases cfg e s urls page_timeout overall_timeout
              Htbb Hprofile) as (r & w & Hbody & Hrun).
  exists r, w. split; [done|]. unfold fetch_urls. rewrite Hrun. split; [done|].
  apply fetch_cleanup_navigations.
Qed.

Lemma fetch_urls_domain (cfg : config) (e : browser_env) (s : state)
    (urls : list string) (page_timeout overall_timeout : Z) :
  truthy (_tbb_path s) = true → truthy (_tbb_profile_path s) = true →
  0 ≤ MAX_CONCURRENT_TABS cfg →
  ∃ fetched,
    fetch_urls cfg e s urls page_timeout overall_timeout = Return fetched
    ∧ ∀ u, is_Some (fetched !! u) ↔ u ∈ urls.
Proof.
  intros Htbb Hprofile Hbound.
  destruct (fetch_urls_returns cfg e s urls page_timeout overall_timeout Htbb Hprofile)
    as (r & w & Hbody & -> & _).
  eexists. split; [done|]. intros u. rewrite <- elem_of_dom.
  assert (dom (fill_browser_error (exn_message (OtherError EmptyString)) urls ∅)
          = list_to_set urls) as _ by (rewrite dom_fill_browser_error; set_solver).
  enough (dom (after_except urls r) = list_to_set urls) as ->
    by apply elem_of_list_to_set.
  apply fetch_body_cases in Hbody
    as [(err & -> & _) | (starts & deadline & w2 & r' & Hrange & Hw2 & _ & Hloop & ->)].
  { cbn [after_except]. rewrite dom_fill_browser_error. set_solver. }
  destruct r' as [all'|err];
    [|cbn [after_except]; rewrite dom_fill_browser_error; set_solver].
  apply after_extraction_dom.
  destruct (decide (MAX_CONCURRENT_TABS cfg = 0)) as [Hzero|Hpos].
  { rewrite Hzero in Hrange. done. }
  destruct (batches_are_chunks cfg urls) as (Hrange' & Hchunks & Hall & Hsome & Hstart);
    [lia|]. rewrite Hrange in Hrange'. injection Hrange' as ->.
  apply fetch_batches_returns in Hloop as [Hdom _]; [|done|].
  - pose proof (concat_chunks_rest _ urls 0 _ Hall (Nat.le_0_l _)) as Hc.
    cbn [Nat.mul] in Hc. rewrite !drop_0 in Hc.
    rewrite Hdom, Hchunks, dom_empty_L, Hc. set_solver.
  - intros j i Hi.
    assert (j < Z.to_nat ((Z.of_nat (length urls) + MAX_CONCURRENT_TABS cfg - 1)
                          `div` MAX_CONCURRENT_TABS cfg))%nat as Hjm.
    { apply lookup_lt_Some in Hi. by rewrite length_fmap, length_seq in Hi. }
    rewrite Hstart in Hi by done. injection Hi as <-.
    rewrite Hchunks, concat_chunks_rest by (done || lia).
    apply slice_from_chunk. lia.
Qed.

(** X3. Once the paths of Tor Browser are set and when
    [MAX_CONCURRENT_TABS] is not negative, [_fetch_urls_with_browser]
    returns a dict whose keys are exactly the URLs it was given, whatever
    the calls on the driver answer or raise and whether or not Trafilatura
    can be imported, in a browser that lists a new window last among its
    handles, as the model of the browser has it: no URL is left without
    an outcome, and no exception of the driver reaches the caller. *)
Theorem fetch_urls_gives_every_url_an_outcome (cfg : config) (e : browser_env) (s : state)
    (urls : list string) (page_timeout overall_timeout : Z) :
  truthy (_tbb_path s) = true → truthy (_tbb_profile_path s) = true →
  0 ≤ MAX_CONCURRENT_TABS cfg →
  ∃ fetched,
    fetch_urls cfg e s urls page_timeout overall_timeout = Return fetched
    ∧ ∀ u, is_Some (fetched !! u) ↔ u ∈ urls.
Proof. apply fetch_urls_domain. Qed.

Lemma fetch_urls_gives_every_url_an_outcome_witness :
  ∃ fetched,
    fetch_urls two_tabs (demo_browser second_batch_cannot_open) demo_searched four_urls 10 60
    = Return fetched
    ∧ ∀ u, is_Some (fetched !! u) ↔ u ∈ four_urls.
Proof.
  apply (fetch_urls_gives_every_url_an_outcome two_tabs
           (demo_browser second_batch_cannot_open) demo_searched four_urls 10 60).
  - reflexivity.
  - reflexivity.
  - vm_compute. discriminate.
Defined.

(** The loop over the batches, when it returns: every outcome it adds is
    one that [_collect_batch] or the overall deadline gives. *)
Lemma fetch_batches_outcomes (cfg : config) (script : nat → response) (page_timeout : Z)
    (deadline : option Z) (urls : list string) (starts : list Z)
    (all_results : gmap string content) (w : world) (all' : gmap string content)
    (w' : world) :
  fetch_batches cfg script page_timeout deadline urls starts all_results w
  = (Return all', w') →
  ∀ u c, all' !! u = Some c → all_results !! u = Some c ∨ batch_outcome c = true.
Proof.
  revert all_results w. induction starts as [|i later IH]; intros all_results w.
  - simpl. intros [= <- <-]. by left.
  - cbn [fetch_batches]. destruct (deadline_exceeded deadline w) eqn:Hcut.
    + intros [= <- <-] u c Hu. destruct (decide (u ∈ slice_from i urls)) as [Hin|Hout].
      * rewrite (mark_remaining_timeout _ _ _ Hin) in Hu. right. by simplify_eq.
      * rewrite (mark_remaining_other _ _ _ Hout) in Hu. by left.
    + unfold mbind, drv_bind at 1.
      destruct (_dispatch_batch script (slice i (MAX_CONCURRENT_TABS cfg) urls) w)
        as [[[m t]|err] w1] eqn:Hdispatch; [|done].
      unfold mbind, drv_bind at 1.
      destruct (collect_batch_returns script m t page_timeout deadline w1)
        as ([res lt] & w2 & Hcollect & Hres).
      rewrite Hcollect. intros Hrest u c Hu.
      destruct (IH _ _ Hrest u c Hu) as [Hacc|?]; [|by right].
      apply lookup_union_Some_raw in Hacc as [Hin | [_ Hin]]; [|by left].
      right. by apply Hres in Hin as [_ ?].
Qed.

Lemma extract_content_text (e : browser_env) (u : string) (c : content) (t : string) :
  extract_content e u c = Text t →
  t ≠ EmptyString ∧ ∃ html, c = Text html ∧ trafilatura_extract e html u = Return (Some t).
Proof.
  unfold extract_content, _extract_with_trafilatura. destruct c as [html|k msg]; [|done].
  destruct (trafilatura_extract e html u) as [[extracted|]|err] eqn:Hex; [|done..].
  destruct (String.eqb_spec extracted EmptyString) as [|Hne]; [done|].
  intros [= <-]. split; [done|]. by exists html.
Qed.

Lemma extract_content_failure (e : browser_env) (u : string) (c : content)
    (k : error_kind) (msg : string) :
  batch_outcome c = true → extract_content e u c = Failure k msg → k ≠ browser_error.
Proof.
  unfold extract_content, _extract_with_trafilatura. destruct c as [html|k' msg'].
  - intros _. destruct (trafilatura_extract e html u) as [[extracted|]|err];
      [destruct (String.eqb extracted EmptyString)|..]; by intros [= <- <-].
  - intros Hk [= <- <-]. by destruct k'.
Qed.

Lemma fill_browser_error_empty (msg : string) (urls : list string) (u : string) (c : content) :
  fill_browser_error msg urls ∅ !! u = Some c → u ∈ urls ∧ c = Failure browser_error msg.
Proof.
  intros Hu.
  assert (u ∈ urls) as Hin.
  { apply elem_of_dom_2 in Hu. rewrite dom_fill_browser_error in Hu. set_solver. }
  split; [done|].
  rewrite fill_browser_error_lookup in Hu; [by simplify_eq | | by left].
  intros v c'. by rewrite lookup_empty.
Qed.

(** X4. A text in the dict of [_fetch_urls_with_browser] is never empty, and
    it is what Trafilatura extracted from some non-empty page source for
    that URL: the raw HTML of a page is never handed back. *)
Theorem fetched_text_is_extracted_text (cfg : config) (e : browser_env) (s : state)
    (urls : list string) (page_timeout overall_timeout : Z) :
  truthy (_tbb_path s) = true → truthy (_tbb_profile_path s) = true →
  ∃ fetched,
    fetch_urls cfg e s urls page_timeout overall_timeout = Return fetched
    ∧ ∀ u t, fetched !! u = Some (Text t) →
        t ≠ EmptyString
        ∧ ∃ html, html ≠ EmptyString ∧ trafilatura_extract e html u = Return (Some t).
Proof.
  intros Htbb Hprofile.
  destruct (fetch_urls_returns cfg e s urls page_timeout overall_timeout Htbb Hprofile)
    as (r & w & Hbody & -> & _).
  eexists. split; [done|]. intros u t.
  apply fetch_body_cases in Hbody
    as [(err & -> & _) | (starts & deadline & w2 & r' & Hrange & Hw2 & _ & Hloop & ->)].
  { by intros [_ ?]%fill_browser_error_empty. }
  destruct r' as [all'|err]; [|by intros [_ ?]%fill_browser_error_empty].
  intros [Htext | (msg & [=] & _)]%after_extraction_lookup. revert Htext.
  rewrite extract_all_lookup. destruct (all' !! u) as [c|] eqn:Hc; [|done].
  simpl. intros [= Ht]. apply extract_content_text in Ht as (Hne & html & -> & Hex).
  split; [done|]. exists html. split; [|done].
  destruct (fetch_batches_outcomes _ _ _ _ _ _ _ _ _ _ Hloop u _ Hc) as [Hin|Hout]; [done|].
  simpl in Hout. intros ->. done.
Qed.

Lemma fetched_text_is_extracted_text_witness :
  ∃ fetched,
    fetch_urls two_tabs (demo_browser (λ _, loaded_page)) demo_searched four_urls 10 60
    = Return fetched
    ∧ ∀ u t, fetched !! u = Some (Text t) →
        t ≠ EmptyString
        ∧ ∃ html, html ≠ EmptyString
            ∧ trafilatura_extract (demo_browser (λ _, loaded_page)) html u = Return (Some t).
Proof.
  apply (fetched_text_is_extracted_text two_tabs (demo_browser (λ _, loaded_page))
           demo_searched four_urls 10 60); reflexivity.
Defined.

(** X5. When Trafilatura is imported, the error [browser_error] is all or
    nothing: the dict of [_fetch_urls_with_browser] either gives every URL
    the same [browser_error] with one message, or holds no
    [browser_error] at all.  So an exception in a later batch also
    replaces the outcomes of the batches that were already collected.
    (When the import fails, the error outcomes that the extraction loop
    had copied stay beside the browser errors.) *)
Theorem browser_error_is_all_or_nothing (cfg : config) (e : browser_env) (s : state)
    (urls : list string) (page_timeout overall_timeout : Z) :
  truthy (_tbb_path s) = true → truthy (_tbb_profile_path s) = true →
  trafilatura_import e = Imported →
  ∃ fetched,
    fetch_urls cfg e s urls page_timeout overall_timeout = Return fetched
    ∧ ((∃ msg, ∀ u, fetched !! u
                    = if decide (u ∈ urls) then Some (Failure browser_error msg) else None)
       ∨ (∀ u msg, fetched !! u ≠ Some (Failure browser_error msg))).
Proof.
  intros Htbb Hprofile Himport.
  destruct (fetch_urls_returns cfg e s urls page_timeout overall_timeout Htbb Hprofile)
    as (r & w & Hbody & -> & _).
  eexists. split; [done|].
  assert (∀ err u, fill_browser_error (exn_message err) urls ∅ !! u
                   = if decide (u ∈ urls)
                     then Some (Failure browser_error (exn_message err)) else None) as Hfill.
  { intros err u. case_decide as Hu.
    - apply fill_browser_error_lookup; [|by left]. intros v c. by rewrite lookup_empty.
    - destruct (fill_browser_error (exn_message err) urls ∅ !! u) as [c|] eqn:Hc; [|done].
      by apply fill_browser_error_empty in Hc as [? _]. }
  apply fetch_body_cases in Hbody
    as [(err & -> & _) | (starts & deadline & w2 & r' & Hrange & Hw2 & _ & Hloop & ->)].
  { left. exists (exn_message err). apply Hfill. }
  destruct r' as [all'|err]; [|left; exists (exn_message err); apply Hfill].
  rewrite after_extraction_imported by done.
  right. intros u msg. rewrite extract_all_lookup.
  destruct (all' !! u) as [c|] eqn:Hc; [|done]. simpl. intros [= Hex].
  destruct (fetch_batches_outcomes _ _ _ _ _ _ _ _ _ _ Hloop u _ Hc) as [Hin|Hout]; [done|].
  by apply extract_content_failure in Hex.
Qed.

Lemma browser_error_is_all_or_nothing_witness :
  ∃ fetched,
    fetch_urls two_tabs (demo_browser second_batch_cannot_open) demo_searched four_urls 10 60
    = Return fetched
    ∧ ((∃ msg, ∀ u, fetched !! u
                    = if decide (u ∈ four_urls)
                      then Some (Failure browser_error msg) else None)
       ∨ (∀ u msg, fetched !! u ≠ Some (Failure browser_error msg))).
Proof.
  apply (browser_error_is_all_or_nothing two_tabs (demo_browser second_batch_cannot_open)
           demo_searched four_urls 10 60); reflexivity.
Defined.

(** The scenario: the first batch of two pages loads; the second batch
    cannot open its second tab; all four URLs carry the browser error. *)
Example completed_batch_is_lost_with_the_failed_one :
  let run := _fetch_urls_with_browser two_tabs (demo_browser second_batch_cannot_open)
               demo_searched four_urls 10 60 in
  (navigations (snd run),
   (λ u, match fst run with Return fetched => fetched !! u | Raise _ => None end)
     <$> four_urls)
  = ([(0%nat, "https://a.example/1"); (1%nat, "https://a.example/2");
      (1%nat, "https://shared.example/x")],
     [Some (Failure browser_error "javascript error");
      Some (Failure browser_error "javascript error");
      Some (Failure browser_error "javascript error");
      Some (Failure browser_error "javascript error")]).
Proof. vm_compute. reflexivity. Qed.

(** X6. With [MAX_CONCURRENT_TABS] at zero or below,
    [_fetch_urls_with_browser] navigates to no page, and the dict it
    returns holds nothing but [browser_error] outcomes. *)
Theorem nonpositive_tab_bound_fetches_nothing (cfg : config) (e : browser_env) (s : state)
    (urls : list string) (page_timeout overall_timeout : Z) :
  truthy (_tbb_path s) = true → truthy (_tbb_profile_path s) = true →
  MAX_CONCURRENT_TABS cfg ≤ 0 →
  navigations (snd (_fetch_urls_with_browser cfg e s urls page_timeout overall_timeout)) = []
  ∧ ∃ fetched,
      fetch_urls cfg e s urls page_timeout overall_timeout = Return fetched
      ∧ ∀ u c, fetched !! u = Some c → ∃ msg, c = Failure browser_error msg.
Proof.
  intros Htbb Hprofile Hbound.
  destruct (fetch_urls_returns cfg e s urls page_timeout overall_timeout Htbb Hprofile)
    as (r & w & Hbody & -> & ->).
  apply fetch_body_cases in Hbody
    as [(err & -> & Hnav) | (starts & deadline & w2 & r' & Hrange & Hw2 & Hnav & Hloop & ->)].
  { split; [done|]. eexists. split; [done|].
    intros u c [_ ->]%fill_browser_error_empty. by eexists. }
  unfold py_range in Hrange.
  destruct (Z.eqb_spec (MAX_CONCURRENT_TABS cfg) 0); [done|].
  destruct (Z.ltb_spec (MAX_CONCURRENT_TABS cfg) 0); [|lia].
  injection Hrange as <-. simpl in Hloop. injection Hloop as <- <-.
  split; [done|]. eexists. split; [done|]. intros u c.
  by rewrite after_extraction_empty, lookup_empty.
Qed.

Lemma nonpositive_tab_bound_fetches_nothing_witness :
  navigations
    (snd (_fetch_urls_with_browser
            {| TOR_KEEPALIVE_SECONDS := 120; MAX_CONCURRENT_TABS := 0;
               DEFAULT_PAGE_TIMEOUT := 10; DEFAULT_OVERALL_TIMEOUT := 60 |}
            (demo_browser (λ _, loaded_page)) demo_searched four_urls 10 60)) = []
  ∧ ∃ fetched,
      fetch_urls
        {| TOR_KEEPALIVE_SECONDS := 120; MAX_CONCURRENT_TABS := 0;
           DEFAULT_PAGE_TIMEOUT := 10; DEFAULT_OVERALL_TIMEOUT := 60 |}
        (demo_browser (λ _, loaded_page)) demo_searched four_urls 10 60 = Return fetched
      ∧ ∀ u c, fetched !! u = Some c → ∃ msg, c = Failure browser_error msg.
Proof.
  apply nonpositive_tab_bound_fetches_nothing; [reflexivity | reflexivity |].
  simpl. lia.
Defined.

(** ** The tools *)





(** X8. [fetch_specific_page] ends a pending generation of search results:
    after it, whether it returned or raised, no [fetch_pages] request is
    accepted, and when results were waiting to be fetched the next
    [fetch_pages] raises the error of an expired session. *)
Theorem direct_fetch_ends_the_pending_generation (cfg : config) (de : direct_env)
    (u : string) (s : state) (e : fetch_env) (indexes : list Z) :
  let s' := snd (fetch_specific_page cfg de u s) in
  ¬ accepted cfg e indexes s'
  ∧ (_last_search_results s ≠ [] → _fetch_pages_called s = false →
     fetch_pages cfg e indexes s' = (Raise (RuntimeError tor_timed_out), s')).
Proof.
  intros s'. destruct (fetch_specific_page_state cfg de u s) as (Hrun & Hres & Hflag).
  fold s' in Hrun, Hres, Hflag.
  assert (¬ session_alive cfg (check_clock e) s') as Hdead.
  { intros (p & started & Hp & _). unfold is_tor_running in Hrun. by rewrite Hp in Hrun. }
  split.
  - intros (_ & _ & Halive & _)%accepted_inv. done.
  - intros Hfound Hfresh.
    rewrite (fetch_pages_turned_down cfg e indexes s' SessionExpired).
    + simpl. f_equal. unfold check_tor_timeout, _check_tor_timeout.
      unfold is_tor_running in Hrun. by destruct (_tor_process s').
    + constructor; [by rewrite Hres | by rewrite Hflag | done].
Qed.

Lemma selected_same_indexes (found : list item) (indexes indexes' : list Z) :
  (∀ i, i ∈ indexes ↔ i ∈ indexes') → selected found indexes = selected found indexes'.
Proof. intros Hsame. unfold selected. apply filter_agree. intros it _. apply Hsame. Qed.

(** X9. [fetch_pages] looks at the indexes as a set: two requests that name
    the same indexes, in any order and with any repetition, and that both
    pass the checks, give the same text and leave the same state. *)
Theorem fetch_pages_ignores_order_and_repetition (cfg : config) (e : fetch_env)
    (indexes indexes' : list Z) (s : state) :
  (∀ i, i ∈ indexes ↔ i ∈ indexes') →
  accepted cfg e indexes s → accepted cfg e indexes' s →
  fetch_pages cfg e indexes s = fetch_pages cfg e indexes' s.
Proof.
  intros Hsame Hacc Hacc'. rewrite !fetch_pages_accepted by done. f_equal.
  unfold fetch_and_format, urls_to_fetch.
  by rewrite (selected_same_indexes _ indexes indexes').
Qed.

Lemma fetch_pages_ignores_order_and_repetition_witness :
  fetch_pages default_config (demo_fetch 1000) [7; 2] demo_searched
  = fetch_pages default_config (demo_fetch 1000) [2; 7; 2; 2] demo_searched.
Proof.
  assert (∀ l, l ≠ [] → (length l ≤ 5)%nat →
               (∀ i, i ∈ l → i ∈ [2; 7]) →
               accepted default_config (demo_fetch 1000) l demo_searched) as Hacc.
  { intros l Hsome Hfew Hin. apply accepted_intro.
    - discriminate.
    - reflexivity.
    - apply demo_searched_alive. simpl. lia.
    - exact Hfew.
    - exact Hsome.
    - intros i Hi. apply demo_request_valid. by apply Hin. }
  apply fetch_pages_ignores_order_and_repetition.
  - intros i. rewrite !elem_of_cons. naive_solver.
  - apply Hacc; [done | simpl; lia |]. intros i. rewrite !elem_of_cons. naive_solver.
  - apply Hacc; [done | simpl; lia |]. intros i. rewrite !elem_of_cons. naive_solver.
Defined.

(** Every record that [index_hits] appends to the flat list it appends to
    the group of the query as well. *)
Lemma index_hits_appends (hits : list (gmap string string)) (ix : indexing) :
  ∃ new,
    last_results (index_hits ix hits) = last_results ix ++ new
    ∧ query_results (index_hits ix hits) = query_results ix ++ new.
Proof.
  unfold index_hits. revert ix. induction hits as [|r hits IH]; intros ix; simpl.
  - exists []. by rewrite !app_nil_r.
  - destruct (IH (index_hit ix r)) as (new & Hlast & Hquery).
    unfold index_hit in Hlast, Hquery |- *. case_bool_decide; simpl in *.
    + by exists new.
    + eexists (_ :: new). rewrite Hlast, Hquery, <- !app_assoc. done.
Qed.

Lemma search_queries_groups (ddgs_text : string → provider_result) (queries : list string)
    (ix : indexing) (acc groups : list (string * list item)) (found pre : list item) :
  search_queries ddgs_text queries ix acc = (Return groups, found) →
  last_results ix = pre ++ concat acc.*2 →
  groups.*1 = acc.*1 ++ queries ∧ found = pre ++ concat groups.*2.
Proof.
  revert ix acc. induction queries as [|q queries IH]; intros ix acc; simpl.
  - intros [= <- <-] Hpre. by rewrite app_nil_r.
  - destruct (ddgs_text q) as [hits|msg]; [|done]. intros Hrun Hpre.
    destruct (index_hits_appends hits (next_query ix)) as (new & Hlast & Hquery).
    simpl in Hlast, Hquery. apply IH in Hrun as [Hnames Hfound].
    + split; [|done]. rewrite Hnames, fmap_app. simpl. by rewrite <- app_assoc.
    + rewrite Hlast, Hquery, Hpre, fmap_app, concat_app. simpl.
      by rewrite app_nil_r, app_assoc.
Qed.

(** X10. When [get_sources] returns, its text is the rendering of one group
    of results for each query, in the order of the queries, and the groups
    put end to end are the stored results: every stored result is shown
    once, under the query that found it. *)
Theorem get_sources_groups_partition_the_results (e : search_env) (queries : list string)
    (s s' : state) (out : string) :
  get_sources e queries s = (Return out, s') →
  ∃ groups,
    out = format_sources groups
    ∧ groups.*1 = queries
    ∧ concat groups.*2 = _last_search_results s'.
Proof.
  intros (_ & _ & s2 & groups & found & _ & Hsearch & -> & ->)%get_sources_return.
  exists groups. split; [done|].
  apply (search_queries_groups _ _ _ _ _ _ []) in Hsearch as [Hnames Hfound]; [|done].
  simpl in Hnames, Hfound. by subst found.
Qed.

Lemma get_sources_groups_partition_the_results_witness :
  ∃ groups,
    demo_output = format_sources groups
    ∧ groups.*1 = ["a"; "b"]
    ∧ concat groups.*2 = _last_search_results demo_searched.
Proof.
  apply (get_sources_groups_partition_the_results demo_search ["a"; "b"] initial_state).
  apply demo_searched_returns.
Defined.

Lemma search_queries_fails (ddgs_text : string → provider_result)
    (before : list string) (q : string) (after : list string) (msg : string)
    (ix : indexing) (acc : list (string * list item)) (earlier : list (gmap string string)) :
  indexed ix earlier →
  (∀ q', q' ∈ before → ∃ hits, ddgs_text q' = Hits hits) →
  ddgs_text q = ProviderError msg →
  search_queries ddgs_text (before ++ q :: after) ix acc
  = (Raise (OtherError msg),
     imap record_of (surviving [] (earlier ++ all_hits ddgs_text before))).
Proof.
  intros Hix Hbefore Hq. revert ix acc earlier Hix.
  induction before as [|q' before IH]; intros ix acc earlier Hix; simpl.
  - rewrite Hq, app_nil_r. f_equal. apply Hix.
  - destruct (Hbefore q') as [hits Hhits]; [by left|]. rewrite Hhits.
    rewrite (IH (λ q'' Hin, Hbefore q'' (proj2 (elem_of_cons _ _ _) (or_intror Hin))) _ _
               (earlier ++ hits)).
    + by rewrite <- app_assoc.
    + by apply index_hits_indexed, next_query_indexed.
Qed.

(** X11. A search that fails half way.  When Tor starts, the queries before
    [q] are answered and the provider raises on [q], [get_sources] raises
    that error; the stored results are then the ones of the queries before
    [q], the previous generation is gone, Tor is stopped, and the flag
    [_fetch_pages_called] is as it was. *)
Theorem failed_search_replaces_the_results (e : search_env) (before : list string)
    (q : string) (after : list string) (msg : string) (s : state) :
  (length (before ++ q :: after) ≤ 3)%nat →
  (∀ q', q' ∈ before → ∃ hits, ddgs_text e q' = Hits hits) →
  ddgs_text e q = ProviderError msg →
  returned (fst (start_tor (tor e) (if is_tor_running s then stop_tor s else s))) = true →
  let s' := snd (get_sources e (before ++ q :: after) s) in
  fst (get_sources e (before ++ q :: after) s) = Raise (OtherError msg)
  ∧ _last_search_results s'
    = imap record_of (surviving [] (all_hits (ddgs_text e) before))
  ∧ is_tor_running s' = false
  ∧ _fetch_pages_called s' = _fetch_pages_called s.
Proof.
  intros Hfew Hbefore Hq Hstart. simpl.
  destruct (start_tor (tor e) (if is_tor_running s then stop_tor s else s))
    as [[[]|err] s2] eqn:Hs2; [|done].
  assert (get_sources e (before ++ q :: after) s
          = (Raise (OtherError msg),
             stop_tor (set_last_search_results
                         (imap record_of (surviving [] (all_hits (ddgs_text e) before)))
                         s2)))
    as Hget.
  { unfold get_sources.
    assert (∃ q0 qs, before ++ q :: after = q0 :: qs) as (q0 & qs & Hqs)
      by (destruct before; by eexists _, _).
    rewrite Hqs in Hfew |- *.
    destruct (Nat.ltb_spec 3 (length (q0 :: qs))); [lia|]. rewrite <- Hqs, Hs2.
    by rewrite (search_queries_fails _ _ _ _ msg _ _ [] start_indexing_indexed Hbefore Hq). }
  rewrite Hget. simpl. unfold stop_tor.
  rewrite kill_tor_results, kill_tor_not_running, kill_tor_flag. simpl.
  split; [done|]. split; [done|]. split; [done|].
  apply start_tor_return in Hs2 as (_ & _ & _ & _ & _ & Hflag). rewrite Hflag.
  destruct (is_tor_running s); [apply kill_tor_flag | done].
Qed.

Lemma failed_search_replaces_the_results_witness :
  fst (get_sources demo_search (["b"] ++ "down" :: ["a"]) demo_searched)
  = Raise (OtherError "connection refused")
  ∧ _last_search_results (snd (get_sources demo_search (["b"] ++ "down" :: ["a"]) demo_searched))
    = imap record_of (surviving [] (all_hits demo_provider ["b"]))
  ∧ is_tor_running (snd (get_sources demo_search (["b"] ++ "down" :: ["a"]) demo_searched))
    = false
  ∧ _fetch_pages_called (snd (get_sources demo_search (["b"] ++ "down" :: ["a"]) demo_searched))
    = _fetch_pages_called demo_searched.
Proof.
  apply (failed_search_replaces_the_results demo_search ["b"] "down" ["a"]
           "connection refused" demo_searched).
  - simpl. lia.
  - intros q' Hq'. apply list_elem_of_singleton in Hq' as ->. by eexists.
  - reflexivity.
  - reflexivity.
Defined.

(** X12. Expiry is final.  A session that [_check_tor_timeout] turns down
    is turned down at every later time, in the same state; a session that
    passes the check at some time passed it at every earlier one, which
    changes nothing; [_kill_tor] twice is [_kill_tor] once, and a killed
    session never passes the check. *)
Theorem expiry_is_final (cfg : config) (now later : Z) (s : state) :
  now ≤ later →
  (fst (_check_tor_timeout cfg now s) = false →
   _check_tor_timeout cfg later (snd (_check_tor_timeout cfg now s))
   = (false, snd (_check_tor_timeout cfg now s)))
  ∧ (fst (_check_tor_timeout cfg later s) = true →
     _check_tor_timeout cfg now s = (true, s))
  ∧ _kill_tor (_kill_tor s) = _kill_tor s
  ∧ _check_tor_timeout cfg later (_kill_tor s) = (false, _kill_tor s).
Proof.
  intros Hlater.
  assert (∀ s0, _tor_process s0 = None → _check_tor_timeout cfg later s0 = (false, s0))
    as Hidle.
  { intros s0 Hs0. unfold _check_tor_timeout. by rewrite Hs0. }
  assert (_tor_process (_kill_tor s) = None) as Hkilled.
  { unfold _kill_tor. by destruct (_tor_process s) eqn:Hp. }
  split; [|split; [|split]].
  - unfold _check_tor_timeout at 1 3 4.
    destruct (_tor_process s) as [p|] eqn:Hp; [|intros _; by apply Hidle].
    destruct (_tor_start_time s) as [started|] eqn:Hstarted.
    + simpl. destruct (seconds (TOR_KEEPALIVE_SECONDS cfg) <? now - started); [|done].
      intros _. by apply Hidle.
    + intros _. simpl. unfold _check_tor_timeout. by rewrite Hp, Hstarted.
  - unfold _check_tor_timeout.
    destruct (_tor_process s) as [p|]; [|done].
    destruct (_tor_start_time s) as [started|]; [|done]. simpl.
    destruct (Z.ltb_spec (seconds (TOR_KEEPALIVE_SECONDS cfg)) (later - started)); [done|].
    intros _. destruct (Z.ltb_spec (seconds (TOR_KEEPALIVE_SECONDS cfg)) (now - started));
      [lia | done].
  - apply kill_tor_idle. unfold is_tor_running. by rewrite Hkilled.
  - by apply Hidle.
Qed.

Lemma expiry_is_final_witness :
  (fst (_check_tor_timeout default_config 120001 demo_searched) = false →
   _check_tor_timeout default_config 500000
     (snd (_check_tor_timeout default_config 120001 demo_searched))
   = (false, snd (_check_tor_timeout default_config 120001 demo_searched)))
  ∧ (fst (_check_tor_timeout default_config 500000 demo_searched) = true →
     _check_tor_timeout default_config 120001 demo_searched = (true, demo_searched))
  ∧ _kill_tor (_kill_tor demo_searched) = _kill_tor demo_searched
  ∧ _check_tor_timeout default_config 500000 (_kill_tor demo_searched)
    = (false, _kill_tor demo_searched).
Proof.
  apply (expiry_is_final default_config 120001 500000 demo_searched). lia.
Defined.

(** X13. The outcomes of [fetch_specific_page], for a tab bound that is not
    negative: it returns the heading [## Content from <url>] and a blank
    line, followed by a text, or it raises the exception of [_start_tor],
    a [RuntimeError] whose message starts with [Failed to fetch page:]
    and names the kind of the error, or the [AttributeError] of a text
    that decodes to JSON that is not an object, whose message names the
    type of the decoded value. *)
Theorem direct_fetch_outcomes (cfg : config) (e : direct_env) (u : string) (s : state) :
  0 ≤ MAX_CONCURRENT_TABS cfg →
  match fst (fetch_specific_page cfg e u s) with
  | Return out => ∃ text, out = ("## Content from " +:+ u +:+ nl +:+ nl) +:+ text
  | Raise err =>
      fst (start_tor (direct_tor e) (if is_tor_running s then stop_tor s else s)) = Raise err
      ∨ (∃ k msg, err = RuntimeError ("Failed to fetch page: [" +:+ error_name k +:+ "] "
                                      +:+ msg))
      ∨ (∃ c type_name,
           json_loads (direct_fetch e) c = JsonOther type_name
           ∧ err = OtherError ("'" +:+ type_name +:+ "' object has no attribute 'get'"))
  end.
Proof.
  intros Hbound. unfold fetch_specific_page.
  destruct (start_tor (direct_tor e) (if is_tor_running s then stop_tor s else s))
    as [[[]|err] s2] eqn:Hstart; [|by left].
  apply start_tor_return in Hstart as (_ & _ & Htbb & Hprofile & _).
  cbn [fst]. unfold fetch_one.
  destruct (fetch_urls_domain cfg (browser (direct_fetch e)) s2 [u]
              (DEFAULT_PAGE_TIMEOUT cfg) (DEFAULT_OVERALL_TIMEOUT cfg) Htbb Hprofile Hbound)
    as (fetched & -> & Hdom).
  destruct (proj2 (Hdom u)) as [c Hc]; [by left|]. rewrite Hc.
  destruct c as [c|k msg].
  - destruct (json_loads (direct_fetch e) c) as [|[text|]|type_name shown|type_name]
      eqn:Hdecoded; [by eexists.. |].
    right. right. by exists c, type_name.
  - right. left. by exists k, msg.
Qed.

Lemma direct_fetch_outcomes_witness :
  match fst (fetch_specific_page default_config demo_direct "https://a.example/1"
               initial_state) with
  | Return out =>
      ∃ text, out = ("## Content from " +:+ "https://a.example/1" +:+ nl +:+ nl) +:+ text
  | Raise err =>
      fst (start_tor (direct_tor demo_direct)
             (if is_tor_running initial_state then stop_tor initial_state
              else initial_state)) = Raise err
      ∨ (∃ k msg, err = RuntimeError ("Failed to fetch page: [" +:+ error_name k +:+ "] "
                                      +:+ msg))
      ∨ (∃ c type_name,
           json_loads (direct_fetch demo_direct) c = JsonOther type_name
           ∧ err = OtherError ("'" +:+ type_name +:+ "' object has no attribute 'get'"))
  end.
Proof.
  apply (direct_fetch_outcomes default_config demo_direct "https://a.example/1" initial_state).
  simpl. lia.
Defined.

(** X14. The SOCKS port of the backend follows the copy the backend took.
    After [NativeBrowserBackend.start_tor] returned, with a port that is
    not 0, [get_socks_port] is the port Tor was started with, and the
    proxy of the search is built on it; it still is after
    [_check_tor_timeout] has killed Tor behind the backend's back; after
    [NativeBrowserBackend.stop_tor], and before any start, it is 9150. *)
Theorem socks_port_follows_the_backend_copy (cfg : config) (e : tor_env) (b b' : backend)
    (s s' : state) (now : Z) :
  backend_start_tor e b s = (Return tt, b', s') →
  STEM_SOCKS_PORT e ≠ 0 →
  start_tor e s = (Return tt, s')
  ∧ get_socks_port b' s' = STEM_SOCKS_PORT e
  ∧ ddgs_proxy b' s' = "socks5h://127.0.0.1:" +:+ str_of_int (STEM_SOCKS_PORT e)
  ∧ get_socks_port b' (snd (_check_tor_timeout cfg now s')) = STEM_SOCKS_PORT e
  ∧ get_socks_port (fst (backend_stop_tor b' s')) (snd (backend_stop_tor b' s')) = 9150
  ∧ get_socks_port new_backend initial_state = 9150.
Proof.
  unfold backend_start_tor, start_tor. intros Hstart Hport.
  destruct (_start_tor e s) as [[[]|err] s2] eqn:Hs2; [|done].
  injection Hstart as <- <-. split; [done|].
  assert (_tor_socks_port s2 = Some (STEM_SOCKS_PORT e)) as Hsocks.
  { unfold _start_tor in Hs2. repeat (case_match; simplify_eq); done. }
  assert (is_tor_running s2 = true) as Hrun by (by apply start_tor_return in Hs2 as (? & _)).
  assert (get_socks_port
            {| self_tor_process := _tor_process s2;
               self_tor_socks_port := _tor_socks_port s2;
               self_tor_control_port := _tor_control_port s2;
               self_tor_start_time := _tor_start_time s2;
               self_tbb_path := _tbb_path s2;
               self_tbb_profile_path := _tbb_profile_path s2 |} s2 = STEM_SOCKS_PORT e)
    as Hget.
  { unfold get_socks_port. simpl. rewrite Hsocks. simpl.
    by destruct (Z.eqb_spec (STEM_SOCKS_PORT e) 0). }
  split; [done|]. split; [unfold ddgs_proxy; by rewrite Hget|]. split.
  { unfold get_socks_port in *. simpl in *. rewrite Hsocks in *. simpl in *.
    by destruct (Z.eqb_spec (STEM_SOCKS_PORT e) 0). }
  split; [|done].
  unfold get_socks_port, backend_stop_tor, _kill_tor. simpl.
  unfold is_tor_running in Hrun. by destruct (_tor_process s2).
Qed.

Lemma socks_port_follows_the_backend_copy_witness :
  get_socks_port (snd (fst (backend_start_tor demo_tor new_backend initial_state)))
    (snd (backend_start_tor demo_tor new_backend initial_state)) = 9250.
Proof.
  destruct (backend_start_tor demo_tor new_backend initial_state) as [[r b'] s'] eqn:Hstart.
  assert (r = Return tt) as -> by (vm_compute in Hstart; by simplify_eq).
  destruct (socks_port_follows_the_backend_copy default_config demo_tor new_backend b'
              initial_state s' 0 Hstart) as (_ & Hport & _); [discriminate|].
  exact Hport.
Defined.

(** ** Locating Tor Browser *)

Lemma truthy_Some (path : string) : path ≠ EmptyString → truthy (Some path) = true.
Proof. intros Hpath. simpl. by destruct (String.eqb_spec path EmptyString). Qed.

Lemma existing_directory_isdir (o : os_env) (candidate p : string) :
  existing_directory o candidate = Some p → isdir o p = true.
Proof.
  unfold existing_directory.
  destruct (isdir o (abspath o (expanduser o candidate))) eqn:Hdir; [|done].
  by intros [= <-].
Qed.

Lemma find_spec {A} (f : A → bool) (l : list A) (x : A) :
  List.find f l = Some x →
  ∃ before after, l = before ++ x :: after ∧ f x = true ∧ Forall (λ y, f y = false) before.
Proof.
  induction l as [|y l IH]; simpl; [done|].
  destruct (f y) eqn:Hy.
  - intros [= ->]. by exists [], l.
  - intros (before & after & -> & Hx & Hbefore)%IH.
    exists (y :: before), after. split; [done|]. split; [done|]. by constructor.
Qed.

(** X15. [_resolve_tbb_path] gives nothing but an existing directory.  An
    explicit path that is not empty decides alone, then the variable
    [TBB_PATH]: when set, no other place is looked at, even if it is no
    directory.  With no path given and neither variable set, on a system
    that is neither macOS nor Windows, the result is the absolute form of
    the first search path that is a directory holding [Browser/firefox]. *)
Theorem resolve_tbb_path_gives_a_directory (o : os_env) (explicit_path : option string) :
  (∀ p, _resolve_tbb_path o explicit_path = Return (Some p) → isdir o p = true)
  ∧ (∀ path, explicit_path = Some path → path ≠ EmptyString →
       _resolve_tbb_path o explicit_path = Return (existing_directory o path))
  ∧ (∀ path, truthy explicit_path = false →
       environ o !! "TBB_PATH" = Some path → path ≠ EmptyString →
       _resolve_tbb_path o explicit_path = Return (existing_directory o path))
  ∧ (truthy explicit_path = false →
     truthy (environ o !! "TBB_PATH") = false →
     truthy (environ o !! "TOR_BROWSER_PATH") = false →
     _is_macos o = false → _is_windows o = false →
     ∀ p, _resolve_tbb_path o explicit_path = Return (Some p) →
       ∃ before found after,
         search_paths o = before ++ found :: after
         ∧ p = abspath o (expanduser o found)
         ∧ is_bundle o found = true
         ∧ Forall (λ other, is_bundle o other = false) before).
Proof.
  split; [|split; [|split]].
  - intros p. unfold _resolve_tbb_path.
    destruct (tbb_candidate o explicit_path) as [candidate|err]; [|done].
    destruct (truthy candidate); [|done]. intros [= Hp].
    by eapply existing_directory_isdir.
  - intros path -> Hpath. unfold _resolve_tbb_path, tbb_candidate.
    by rewrite !(truthy_Some path Hpath).
  - intros path Hexplicit Henv Hpath. unfold _resolve_tbb_path, tbb_candidate, py_or.
    rewrite Hexplicit, Henv. by rewrite !(truthy_Some path Hpath).
  - intros Hexplicit Htbb Htor Hmac Hwin p.
    unfold _resolve_tbb_path, tbb_candidate, py_or.
    rewrite Hexplicit, Htbb, Htor, Hmac, Hwin.
    destruct (_find_tor_browser_linux o) as [found|] eqn:Hfound; [|done].
    destruct (truthy (Some found)); [|done]. simpl.
    unfold existing_directory.
    destruct (isdir o (abspath o (expanduser o found))); [|done]. intros [= <-].
    apply find_spec in Hfound as (before & after & Hpaths & Hbundle & Hbefore).
    by exists before, found, after.
Qed.

Lemma resolve_tbb_path_gives_a_directory_witness :
  _resolve_tbb_path demo_os (Some "/srv/components/tor-browser")
  = Return (Some "/srv/components/tor-browser")
  ∧ _resolve_tbb_path demo_os None = Return None.
Proof.
  destruct (resolve_tbb_path_gives_a_directory demo_os (Some "/srv/components/tor-browser"))
    as (_ & Hexplicit & _).
  destruct (resolve_tbb_path_gives_a_directory demo_os None) as (_ & _ & Henv & _).
  split.
  - rewrite (Hexplicit "/srv/components/tor-browser"); [reflexivity | reflexivity | discriminate].
  - rewrite (Henv "/not/there"); [reflexivity | reflexivity | reflexivity | discriminate].
Defined.

Lemma default_profile_isdir (o : os_env) (support_base : string)
    (sections : list ini_section) (p : string) :
  default_profile o support_base sections = Return (Some p) → isdir o p = true.
Proof.
  induction sections as [|section later IH]; simpl; [done|].
  repeat case_match; try done; try (intros [= <-]); eauto using existing_directory_isdir.
Qed.

Lemma profile_under_isdir (o : os_env) (support_base p : string) :
  profile_under o support_base = Return (Some p) → isdir o p = true.
Proof.
  unfold profile_under. destruct (isdir o support_base); [|done]. simpl.
  assert (first_default_directory o support_base = Some p → isdir o p = true) as Hlast.
  { unfold first_default_directory. destruct (listdir o support_base); [|done].
    by intros (_ & _ & _ & ? & _)%find_spec. }
  destruct (isfile o (path_join o support_base "profiles.ini")).
  - destruct (read_profiles_ini o (path_join o support_base "profiles.ini"))
      as [sections|err]; [|done].
    destruct (default_profile o support_base sections) as [[found|]|err] eqn:Hfound;
      [|by intros [= ?]; apply Hlast | done].
    intros [= <-]. by eapply default_profile_isdir.
  - intros [= ?]. by apply Hlast.
Qed.

(** X16. [_resolve_profile_path] gives nothing but an existing directory.
    An explicit path that is not empty decides alone; without one, the
    default profile inside the bundle is taken when it is a directory,
    and on Windows nothing else is tried. *)
Theorem resolve_profile_path_gives_a_directory (o : os_env) (tbb_path : string)
    (explicit_profile_path : option string) :
  (∀ p, _resolve_profile_path o tbb_path explicit_profile_path = Return (Some p) →
        isdir o p = true)
  ∧ (∀ path, explicit_profile_path = Some path → path ≠ EmptyString →
       _resolve_profile_path o tbb_path explicit_profile_path
       = Return (existing_directory o path))
  ∧ (truthy explicit_profile_path = false → tbselenium_import_error o = None →
     isdir o (path_join o tbb_path (DEFAULT_TBB_PROFILE_PATH o)) = true →
     _resolve_profile_path o tbb_path explicit_profile_path
     = Return (Some (path_join o tbb_path (DEFAULT_TBB_PROFILE_PATH o))))
  ∧ (truthy explicit_profile_path = false → tbselenium_import_error o = None →
     isdir o (path_join o tbb_path (DEFAULT_TBB_PROFILE_PATH o)) = false →
     _is_windows o = true →
     _resolve_profile_path o tbb_path explicit_profile_path = Return None).
Proof.
  split; [|split; [|split]].
  - intros p. unfold _resolve_profile_path.
    destruct (truthy explicit_profile_path).
    { intros [= Hp]. by eapply existing_directory_isdir. }
    destruct (_ensure_tbselenium o); [|done].
    destruct (isdir o (path_join o tbb_path (DEFAULT_TBB_PROFILE_PATH o))) eqn:Hbundle.
    { by intros [= <-]. }
    destruct (_is_macos o); [apply profile_under_isdir|].
    destruct (_is_windows o); [done|]. apply profile_under_isdir.
  - intros path -> Hpath. unfold _resolve_profile_path.
    by rewrite (truthy_Some path Hpath).
  - intros Hexplicit Himport Hbundle. unfold _resolve_profile_path, _ensure_tbselenium.
    by rewrite Hexplicit, Himport, Hbundle.
  - intros Hexplicit Himport Hbundle Hwin.
    unfold _resolve_profile_path, _ensure_tbselenium.
    rewrite Hexplicit, Himport, Hbundle, Hwin.
    unfold _is_macos. unfold _is_windows in Hwin.
    apply String.eqb_eq in Hwin as ->. done.
Qed.

Lemma resolve_profile_path_gives_a_directory_witness :
  _resolve_profile_path demo_os "/srv/components/tor-browser" None
  = Return (Some "/srv/components/tor-browser/profile").
Proof.
  destruct (resolve_profile_path_gives_a_directory demo_os "/srv/components/tor-browser" None)
    as (_ & _ & Hbundle & _).
  apply Hbundle; reflexivity.
Defined.

(** ** The installer *)

Lemma string_app_assoc (a b c : string) : (a +:+ b) +:+ c = a +:+ (b +:+ c).
Proof.
  induction a as [|x a IH]; [done|].
  change (String x ((a +:+ b) +:+ c) = String x (a +:+ (b +:+ c))). by f_equal.
Qed.

Lemma detect_platform_return (os_name machine os' arch : string) :
  detect_platform os_name machine = Return (os', arch) →
  os' = os_name
  ∧ (arch = "x86_64" ∨ (os_name = "darwin" ∧ arch = "arm64")
     ∨ (os_name ≠ "darwin" ∧ arch = "aarch64")).
Proof.
  unfold detect_platform. case_bool_decide; [intros [= <- <-]; auto|].
  case_bool_decide; [|done]. intros [= <- <-]. split; [done|]. right.
  destruct (String.eqb_spec os_name "darwin"); auto.
Qed.

Lemma unsupported_platform (os_name : string) :
  os_name ∉ ["darwin"; "linux"; "win32"] →
  String.eqb os_name "darwin" = false ∧ String.eqb os_name "linux" = false
  ∧ String.eqb os_name "win32" = false.
Proof.
  intros Hos. repeat split; apply String.eqb_neq; intros ->; apply Hos; set_solver.
Qed.

(** X17. For every platform that [detect_platform] accepts: when
    [sys.platform] is [darwin], [linux] or [win32], [get_geckodriver_url],
    given a release tag, returns the download of that release whose file
    name carries the tag, the platform (aarch64 builds for ARM machines on
    macOS and Linux, win64 on Windows) and the suffix of the archive that
    the installer unpacks for that system; for any other [sys.platform],
    which [detect_platform] accepts as well, it raises the error of an
    unsupported platform. *)
Theorem geckodriver_asset_fits_the_platform (os_name machine os' arch version : string) :
  detect_platform os_name machine = Return (os', arch) →
  (os_name ∈ ["darwin"; "linux"; "win32"] →
   ∃ stem,
     get_geckodriver_url (Return version) os' arch
     = Return (version,
               "https://github.com/mozilla/geckodriver/releases/download/"
               +:+ version +:+ "/" +:+ stem +:+ archive_suffix (geckodriver_archive os'))
     ∧ stem = "geckodriver-" +:+ version +:+
              (if String.eqb os' "win32" then "-win64"
               else if String.eqb os' "darwin"
                    then (if String.eqb arch "arm64" then "-macos-aarch64" else "-macos")
                    else (if String.eqb arch "aarch64" then "-linux-aarch64" else "-linux64")))
  ∧ (os_name ∉ ["darwin"; "linux"; "win32"] →
     get_geckodriver_url (Return version) os' arch
     = Raise (RuntimeError ("Unsupported platform: " +:+ os_name))).
Proof.
  intros [-> Harch]%detect_platform_return. split.
  - intros Hos. eexists. split; [|reflexivity].
    unfold get_geckodriver_url, geckodriver_filename, geckodriver_archive.
    repeat (apply elem_of_cons in Hos as [->|Hos]); [| | |by apply elem_of_nil in Hos];
      cbn [String.eqb Ascii.eqb Bool.eqb andb]; cbv iota.
    + destruct (String.eqb arch "arm64"); cbn [archive_suffix];
        by rewrite ?string_app_assoc.
    + destruct (String.eqb arch "aarch64"); cbn [archive_suffix];
        by rewrite ?string_app_assoc.
    + cbn [archive_suffix]. by rewrite ?string_app_assoc.
  - intros (Hd & Hl & Hw)%unsupported_platform.
    unfold get_geckodriver_url, geckodriver_filename. by rewrite Hd, Hl, Hw.
Qed.

Lemma geckodriver_asset_fits_the_platform_witness :
  (∃ stem,
    get_geckodriver_url (Return "v0.36.0") "linux" "aarch64"
    = Return ("v0.36.0",
              "https://github.com/mozilla/geckodriver/releases/download/"
              +:+ "v0.36.0" +:+ "/" +:+ stem +:+ archive_suffix (geckodriver_archive "linux"))
    ∧ stem = "geckodriver-" +:+ "v0.36.0" +:+
             (if String.eqb "linux" "win32" then "-win64"
              else if String.eqb "linux" "darwin"
                   then (if String.eqb "aarch64" "arm64" then "-macos-aarch64" else "-macos")
                   else (if String.eqb "aarch64" "aarch64" then "-linux-aarch64"
                         else "-linux64")))
  ∧ get_geckodriver_url (Return "v0.36.0") "freebsd14" "x86_64"
    = Raise (RuntimeError "Unsupported platform: freebsd14").
Proof.
  split.
  - apply (geckodriver_asset_fits_the_platform "linux" "arm64" "linux" "aarch64" "v0.36.0").
    + reflexivity.
    + set_solver.
  - apply (geckodriver_asset_fits_the_platform "freebsd14" "amd64" "freebsd14" "x86_64"
             "v0.36.0").
    + reflexivity.
    + set_solver.
Defined.

Lemma or_else_cases (value : option string) (fallback : string) :
  fallback ≠ EmptyString →
  or_else value fallback ≠ EmptyString
  ∧ (truthy value = false → or_else value fallback = fallback)
  ∧ (∀ binary, value = Some binary → binary ≠ EmptyString → or_else value fallback = binary).
Proof.
  intros Hfallback. unfold or_else. destruct value as [v|]; simpl.
  - destruct (String.eqb_spec v EmptyString) as [->|Hv]; simpl.
    + split; [done|]. split; [done|]. by intros binary [= <-].
    + split; [done|]. split; [done|]. by intros binary [= <-].
  - done.
Qed.

(** X18. For every platform that [detect_platform] accepts: when
    [sys.platform] is [darwin], [linux] or [win32], [get_tor_browser_url]
    finds a key in its table and returns a URL that is not empty, namely
    the binary that the downloads file names for the platform (the x86_64
    build on every Windows machine), and, when the file names none, the
    URL under the distribution directory of that version, with the file
    suffix of the system; for any other [sys.platform] it raises the error
    of an unsupported platform. *)
Theorem tor_browser_url_for_every_detected_platform (os_name machine os' arch version : string)
    (d : downloads) :
  detect_platform os_name machine = Return (os', arch) →
  (os_name ∈ ["darwin"; "linux"; "win32"] →
   let platform :=
     if String.eqb os' "darwin" then "macos"
     else if String.eqb os' "linux" then "linux-" +:+ arch else "win64" in
   let stem :=
     if String.eqb os' "darwin" then "macos-"
     else if String.eqb os' "linux" then "linux-" +:+ arch +:+ "-"
          else "windows-x86_64-portable-" in
   let fallback :=
     "https://dist.torproject.org/torbrowser/" +:+ version
     +:+ "/tor-browser-" +:+ stem +:+ version +:+ tor_browser_suffix os' in
   ∃ url,
     get_tor_browser_url (Return (version, d)) os' arch = Return (version, url)
     ∧ url ≠ EmptyString
     ∧ (truthy (binary_for d platform) = false → url = fallback)
     ∧ (∀ binary, binary_for d platform = Some binary → binary ≠ EmptyString →
          url = binary))
  ∧ (os_name ∉ ["darwin"; "linux"; "win32"] →
     get_tor_browser_url (Return (version, d)) os' arch
     = Raise (RuntimeError ("Unsupported platform: " +:+ os_name))).
Proof.
  intros [-> Harch]%detect_platform_return. split.
  2:{ intros (Hd & Hl & Hw)%unsupported_platform.
      unfold get_tor_browser_url. by rewrite Hd, Hl, Hw. }
  intros Hos.
  assert (∀ platform fallback fallback',
            fallback ≠ EmptyString → fallback = fallback' →
            ∃ url,
              (if truthy (Some (or_else (binary_for d platform) fallback))
               then Return (version,
                            default EmptyString (Some (or_else (binary_for d platform) fallback)))
               else Raise (RuntimeError ("No Tor Browser download available for "
                                         +:+ os_name +:+ "/" +:+ arch)))
              = Return (version, url)
              ∧ url ≠ EmptyString
              ∧ (truthy (binary_for d platform) = false → url = fallback')
              ∧ (∀ binary, binary_for d platform = Some binary → binary ≠ EmptyString →
                   url = binary))
    as Hfound.
  { intros platform fallback ? Hfallback <-.
    destruct (or_else_cases (binary_for d platform) fallback Hfallback) as (Hne & Hno & Hyes).
    rewrite (truthy_Some _ Hne). eexists. split; [done|]. done. }
  unfold get_tor_browser_url, tor_browser_suffix, tor_browser_urls.
  repeat (apply elem_of_cons in Hos as [->|Hos]); [| | |by apply elem_of_nil in Hos];
    cbn [String.eqb Ascii.eqb Bool.eqb andb]; cbv iota zeta.
  - rewrite lookup_insert_eq.
    apply Hfound; [done | by rewrite !string_app_assoc].
  - destruct Harch as [-> | [[? _] | [_ ->]]]; [|done|].
    + change ("linux_" +:+ "x86_64") with "linux_x86_64".
      change ("linux-" +:+ "x86_64" +:+ "-") with "linux-x86_64-".
      change ("linux-" +:+ "x86_64") with "linux-x86_64".
      rewrite lookup_insert_ne by done. rewrite lookup_insert_eq.
      apply Hfound; [done | by rewrite !string_app_assoc].
    + change ("linux_" +:+ "aarch64") with "linux_aarch64".
      change ("linux-" +:+ "aarch64" +:+ "-") with "linux-aarch64-".
      change ("linux-" +:+ "aarch64") with "linux-aarch64".
      do 2 (rewrite lookup_insert_ne by done). rewrite lookup_insert_eq.
      apply Hfound; [done | by rewrite !string_app_assoc].
  - destruct Harch as [-> | [[? _] | [_ ->]]]; [|done|].
    + change ("win32_" +:+ "x86_64") with "win32_x86_64".
      do 3 (rewrite lookup_insert_ne by done). rewrite lookup_insert_eq.
      apply Hfound; [done | by rewrite !string_app_assoc].
    + change ("win32_" +:+ "aarch64") with "win32_aarch64".
      do 4 (rewrite lookup_insert_ne by done). rewrite lookup_insert_eq.
      apply Hfound; [done | by rewrite !string_app_assoc].
Qed.

Lemma tor_browser_url_for_every_detected_platform_witness :
  (∃ url,
     get_tor_browser_url (Return ("15.0", ∅)) "win32" "aarch64" = Return ("15.0", url)
     ∧ url ≠ EmptyString
     ∧ (truthy (binary_for ∅ "win64") = false →
        url = "https://dist.torproject.org/torbrowser/15.0/tor-browser-windows-x86_64-portable-15.0.exe")
     ∧ (∀ binary, binary_for ∅ "win64" = Some binary → binary ≠ EmptyString →
          url = binary))
  ∧ get_tor_browser_url (Return ("15.0", ∅)) "freebsd14" "x86_64"
    = Raise (RuntimeError "Unsupported platform: freebsd14").
Proof.
  split.
  - apply (tor_browser_url_for_every_detected_platform "win32" "arm64" "win32" "aarch64"
             "15.0" ∅).
    + reflexivity.
    + set_solver.
  - apply (tor_browser_url_for_every_detected_platform "freebsd14" "amd64" "freebsd14"
             "x86_64" "15.0" ∅).
    + reflexivity.
    + set_solver.
Defined.

Lemma file_lines_line (line rest : string) :
  one_line line = true →
  file_lines (line +:+ nl +:+ rest) = (line +:+ nl) :: file_lines rest.
Proof.
  induction line as [|c line IH]; intros Hline.
  - done.
  - simpl in Hline. apply andb_prop in Hline as [[Hc _]%andb_prop Hline].
    apply negb_true_iff in Hc.
    change (file_lines (String c (line +:+ nl +:+ rest))
            = String c (line +:+ nl) :: file_lines rest).
    cbn [file_lines]. rewrite Hc, (IH Hline). done.
Qed.

Lemma rstrip_with_cons (p : Ascii.ascii → bool) (c : Ascii.ascii) (s : string) :
  rstrip_with p s ≠ EmptyString ∨ p c = false →
  rstrip_with p (String c s) = String c (rstrip_with p s).
Proof.
  intros H. cbn [rstrip_with]. destruct (rstrip_with p s) eqn:Hs; [|done].
  destruct H as [?| ->]; done.
Qed.

Lemma strip_with_head (p : Ascii.ascii → bool) (c : Ascii.ascii) (s : string) :
  p c = false → strip_with p (String c s) = String c (rstrip_with p s).
Proof.
  intros Hc. unfold strip_with. cbn [lstrip_with]. rewrite Hc.
  apply rstrip_with_cons. by right.
Qed.

(** A line whose first character is neither white space nor the first
    character of [region] is not the line of the region. *)
Lemma not_region_line (c : Ascii.ascii) (s : string) :
  is_whitespace c = false → Ascii.eqb (Ascii.ascii_of_nat 114) c = false →
  String.prefix "region" (strip (String c s)) = false.
Proof.
  intros Hspace Hc. unfold strip. rewrite strip_with_head by done.
  cbn [String.prefix]. destruct (Ascii.ascii_dec _ c) as [Heq|]; [|done].
  rewrite <- Heq in Hc. by rewrite Ascii.eqb_refl in Hc.
Qed.

(** White space is stripped around a word, not in it. *)
Lemma rstrip_keeps_prefix (word s : string) :
  no_whitespace word = true →
  String.prefix word (rstrip_with is_whitespace (word +:+ s)) = true.
Proof.
  induction word as [|c word IH]; intros Hword.
  { by destruct (rstrip_with is_whitespace (EmptyString +:+ s)). }
  simpl in Hword. apply andb_prop in Hword as [Hc%negb_true_iff Hword].
  change (String.prefix (String c word)
            (rstrip_with is_whitespace (String c (word +:+ s))) = true).
  rewrite rstrip_with_cons by (by right). cbn [String.prefix].
  destruct (Ascii.ascii_dec c c); [by apply IH | done].
Qed.

Lemma rstrip_with_keep (p : Ascii.ascii → bool) (s : string) (c : Ascii.ascii) (t : string) :
  p c = false →
  rstrip_with p (s +:+ String c t) = s +:+ String c (rstrip_with p t).
Proof.
  intros Hc. induction s as [|x s IH].
  - apply rstrip_with_cons. by right.
  - change (rstrip_with p (String x (s +:+ String c t))
            = String x (s +:+ String c (rstrip_with p t))).
    rewrite rstrip_with_cons; [by rewrite IH|].
    left. rewrite IH. by destruct s.
Qed.

Lemma rstrip_with_drop (p : Ascii.ascii → bool) (s : string) (c : Ascii.ascii) :
  p c = true → rstrip_with p (s +:+ String c EmptyString) = rstrip_with p s.
Proof.
  intros Hc. induction s as [|x s IH].
  - change (rstrip_with p (String c EmptyString) = EmptyString).
    cbn [rstrip_with]. by rewrite Hc.
  - change (rstrip_with p (String x (s +:+ String c EmptyString))
            = rstrip_with p (String x s)).
    cbn [rstrip_with]. by rewrite IH.
Qed.

Lemma lstrip_with_snoc (p : Ascii.ascii → bool) (s : string) (c : Ascii.ascii) :
  p c = true →
  lstrip_with p (s +:+ String c EmptyString) = EmptyString ∧ lstrip_with p s = EmptyString
  ∨ lstrip_with p (s +:+ String c EmptyString) = lstrip_with p s +:+ String c EmptyString.
Proof.
  intros Hc. induction s as [|x s IH].
  - left. change (lstrip_with p (String c EmptyString) = EmptyString ∧ EmptyString = EmptyString).
    cbn [lstrip_with]. by rewrite Hc.
  - change (String x s +:+ String c EmptyString) with (String x (s +:+ String c EmptyString)).
    cbn [lstrip_with]. destruct (p x); [done|]. by right.
Qed.

(** Stripping a character off a value wrapped in that character strips it
    off the value. *)
Lemma strip_with_wrapped (p : Ascii.ascii → bool) (c : Ascii.ascii) (s : string) :
  p c = true →
  strip_with p (String c (s +:+ String c EmptyString)) = strip_with p s.
Proof.
  intros Hc. unfold strip_with. cbn [lstrip_with]. rewrite Hc.
  destruct (lstrip_with_snoc p s c Hc) as [[-> ->] | ->]; [done|].
  by apply rstrip_with_drop.
Qed.

Lemma strip_with_clean (p : Ascii.ascii → bool) (s : string) :
  lstrip_with p s = s → rstrip_with p s = s → strip_with p s = s.
Proof. intros Hl Hr. unfold strip_with. by rewrite Hl. Qed.

Lemma region_in_skip (line : string) (later : list string) :
  String.prefix "region" (strip line) = false → region_in (line :: later) = region_in later.
Proof. intros Hline. cbn [region_in]. by rewrite Hline. Qed.

Lemma region_in_config_head (os_name region : string) (later : list string) :
  one_line os_name = true → one_line region = true →
  region_in (file_lines (unlines (config_head os_name region ++ later)))
  = Some (strip_char quote_char (strip_char dquote_char region)).
Proof.
  intros Hos Hregion.
  assert (∀ a b, one_line a = true → one_line b = true → one_line (a +:+ b) = true) as Happ.
  { intros a b Ha Hb. induction a as [|x a IH]; [done|].
    change (one_line (String x (a +:+ b)) = true). simpl in Ha |- *.
    apply andb_prop in Ha as [-> Ha]. by rewrite IH. }
  unfold config_head. cbn [app unlines foldr].
  rewrite !file_lines_line
    by (repeat first [exact Hos | exact Hregion | reflexivity | apply Happ]).
  (* the eight lines before the region *)
  do 4 (rewrite region_in_skip by (vm_compute; reflexivity)).
  rewrite region_in_skip.
  2:{ change (("platform = " +:+ dquote +:+ os_name +:+ dquote) +:+ nl)
        with (String (Ascii.ascii_of_nat 112)
                (("latform = " +:+ dquote +:+ os_name +:+ dquote) +:+ nl)).
      apply not_region_line; reflexivity. }
  do 3 (rewrite region_in_skip by (vm_compute; reflexivity)).
  cbn [region_in].
  (* the line of the region *)
  match goal with |- context [String.prefix "region" (strip ?l)] =>
    replace (String.prefix "region" (strip l)) with true
  end.
  2:{ symmetry. unfold strip, strip_with.
      change (("region = " +:+ dquote +:+ region +:+ dquote) +:+ nl)
        with ("region" +:+ ((" = " +:+ dquote +:+ region +:+ dquote) +:+ nl)).
      replace (lstrip_with is_whitespace
                 ("region" +:+ ((" = " +:+ dquote +:+ region +:+ dquote) +:+ nl)))
        with ("region" +:+ ((" = " +:+ dquote +:+ region +:+ dquote) +:+ nl))
        by reflexivity.
      by apply rstrip_keeps_prefix. }
  cbv iota.
  change (split_once equals_char (("region = " +:+ dquote +:+ region +:+ dquote) +:+ nl))
    with (Some ("region ",
                String (Ascii.ascii_of_nat 32)
                  (String dquote_char ((region +:+ dquote) +:+ nl)))).
  cbv iota beta. do 2 f_equal.
  assert (strip (String (Ascii.ascii_of_nat 32)
                   (String dquote_char ((region +:+ dquote) +:+ nl)))
          = String dquote_char (region +:+ String dquote_char EmptyString)) as ->.
  { rewrite string_app_assoc. unfold strip, strip_with. cbn [lstrip_with].
    change (is_whitespace (Ascii.ascii_of_nat 32)) with true.
    change (is_whitespace dquote_char) with false.
    cbv iota.
    change (String dquote_char (region +:+ dquote +:+ nl))
      with ((String dquote_char region) +:+ String dquote_char nl).
    rewrite rstrip_with_keep by reflexivity.
    change (rstrip_with is_whitespace nl) with EmptyString. reflexivity. }
  apply strip_with_wrapped. reflexivity.
Qed.

(** X19. The region survives a second run of the installer.  From the
    config file that [write_config] wrote for a region of one line,
    [read_existing_region] reads the region back, up to the quotes at its
    ends; for a region without such quotes it reads the region itself, and
    then the installer writes the same file again, whatever the user would
    have typed at the prompt. *)
Theorem installer_rerun_keeps_the_region (component : string → string)
    (os_name region user_input : string) :
  one_line os_name = true → one_line region = true →
  read_existing_region (Some (write_config component os_name region))
  = Some (strip_char quote_char (strip_char dquote_char region))
  ∧ (unquoted region →
     read_existing_region (Some (write_config component os_name region)) = Some region
     ∧ (region ≠ EmptyString →
        configure component os_name (Some (write_config component os_name region)) user_input
        = write_config component os_name region)).
Proof.
  intros Hos Hregion.
  assert (read_existing_region (Some (write_config component os_name region))
          = Some (strip_char quote_char (strip_char dquote_char region))) as Hread.
  { unfold read_existing_region, write_config.
    destruct (String.eqb os_name "darwin"); [by apply region_in_config_head|].
    destruct (String.eqb os_name "linux"); by apply region_in_config_head. }
  split; [done|]. intros Hclean.
  assert (strip_char quote_char (strip_char dquote_char region) = region) as Hsame.
  { unfold strip_char.
    destruct (Hclean dquote_char) as [Hl Hr]; [by left|].
    rewrite (strip_with_clean _ region Hl Hr).
    destruct (Hclean quote_char) as [Hl' Hr']; [by right|].
    by apply strip_with_clean. }
  rewrite Hread, Hsame. split; [done|]. intros Hsome.
  unfold configure. rewrite Hread, Hsame. by rewrite (truthy_Some region Hsome).
Qed.

Lemma installer_rerun_keeps_the_region_witness :
  read_existing_region (Some (write_config (λ name, "/srv/components/" +:+ name) "linux" "de-de"))
  = Some "de-de"
  ∧ configure (λ name, "/srv/components/" +:+ name) "linux"
      (Some (write_config (λ name, "/srv/components/" +:+ name) "linux" "de-de")) "fr-fr"
    = write_config (λ name, "/srv/components/" +:+ name) "linux" "de-de".
Proof.
  destruct (installer_rerun_keeps_the_region (λ name, "/srv/components/" +:+ name)
              "linux" "de-de" "fr-fr") as [_ Hclean]; [reflexivity | reflexivity |].
  destruct Hclean as [Hread Hrerun].
  - intros c [-> | ->]; split; reflexivity.
  - split; [exact Hread|]. apply Hrerun. discriminate.
Defined.

(** X20. [_collect_batch] reports a [timeout] only when time ran out: if
    some URL of the batch gets the error [timeout], then the page timeout
    had passed since the collection began, or the overall deadline was
    over, when the collection ended. *)
Theorem timeout_is_reported_only_when_time_ran_out (script : nat → response)
    (tab_url_map : list (handle * string)) (tab_dispatch_times : gmap string Z)
    (page_timeout : Z) (deadline : option Z) (w w' : world)
    (res : gmap string content) (load_times : gmap string Z) (u msg : string) :
  _collect_batch script tab_url_map tab_dispatch_times page_timeout deadline w
  = (Return (res, load_times), w') →
  res !! u = Some (Failure timeout msg) →
  seconds page_timeout ≤ clock w' - clock w ∨ deadline_exceeded deadline w' = true.
Proof.
  unfold _collect_batch. unfold mbind, drv_bind at 1. unfold now at 1.
  unfold mbind, drv_bind at 1.
  destruct (total_poll (enough_sweeps page_timeout) script tab_url_map tab_dispatch_times
              page_timeout deadline (clock w)
              {| results := ∅; tab_load_times := ∅; pending := dict_keys tab_url_map |})
    with (w := w) as (st & w1 & Hpoll & Hst & Hsub).
  { intros h. apply dict_get_keys. }
  { split; [|by intros u' c; simpl; rewrite lookup_empty].
    intros h u' Hu' Hout. exfalso. apply Hout, dict_get_keys. by eexists. }
  rewrite Hpoll.
  pose proof (collect_batch_polls_to_the_end _ _ _ _ _ _ _ _ _ Hpoll) as Hstop.
  pose proof (keeps_last_chances script tab_url_map tab_dispatch_times (pending st) st w1)
    as [_ Hclock].
  unfold mbind, drv_bind at 1.
  destruct (last_chances script tab_url_map tab_dispatch_times (pending st) st w1)
    as [[st'|err] w2] eqn:Hlast; [|done].
  unfold mret, drv_ret. intros [= <- <- <-] Hu. simpl in Hclock.
  unfold keep_polling in Hstop.
  apply andb_false_iff in Hstop as [[Hnone|Htime]%andb_false_iff|Hdead].
  - apply negb_false_iff, bool_decide_eq_true in Hnone. rewrite Hnone in Hlast.
    simpl in Hlast. unfold mret, drv_ret in Hlast. simplify_eq.
    destruct Hst as [_ Hres]. by apply Hres in Hu as [_ ?].
  - left. apply Z.ltb_ge in Htime. lia.
  - right. apply negb_false_iff in Hdead. unfold deadline_exceeded in *.
    destruct deadline as [d|]; [|done]. apply Z.ltb_lt in Hdead. apply Z.ltb_lt. lia.
Qed.

Lemma timeout_is_reported_only_when_time_ran_out_witness :
  seconds 1 ≤ clock blank_tab_left - clock launched
  ∨ deadline_exceeded None blank_tab_left = true.
Proof.
  apply (timeout_is_reported_only_when_time_ran_out (λ _, blank_page)
           [(0%nat, "https://a.example/1")] (<["https://a.example/1" := 1000]> ∅) 1 None
           launched blank_tab_left
           (<["https://a.example/1" := Failure timeout page_load_timed_out]> ∅)
           (<["https://a.example/1" := 1050]> ∅)
           "https://a.example/1" page_load_timed_out).
  - vm_compute. reflexivity.
  - vm_compute. reflexivity.
Defined.

(** ** The batches of a whole run *)

Lemma succeeds_ret {A} (P : world → Prop) (a : A) (Q : A → world → Prop) :
  (∀ w, P w → Q a w) → succeeds P (mret a) Q.
Proof. intros HQ w Hw. exists a, w. split; [done | by apply HQ]. Qed.

Lemma succeeds_bind {A B} (P : world → Prop) (m : drv A) (Q : A → world → Prop)
    (f : A → drv B) (R : B → world → Prop) :
  succeeds P m Q → (∀ a, succeeds (Q a) (f a) R) → succeeds P (m ≫= f) R.
Proof.
  intros Hm Hf w Hw. destruct (Hm w Hw) as (a & w1 & Hrun & Ha).
  destruct (Hf a w1 Ha) as (b & w2 & Hrun' & Hb). exists b, w2. split; [|done].
  unfold mbind, drv_bind. by rewrite Hrun.
Qed.

Lemma succeeds_attempt {A} (P : world → Prop) (m : drv A) (Q : A → world → Prop) :
  succeeds P m Q → succeeds P (attempt m) (λ r w, ∃ a, r = Return a ∧ Q a w).
Proof.
  intros Hm w Hw. destruct (Hm w Hw) as (a & w1 & Hrun & Ha).
  exists (Return a), w1. unfold attempt. rewrite Hrun. split; [done | by exists a].
Qed.

Lemma succeeds_weaken {A} (P P' : world → Prop) (m : drv A) (Q Q' : A → world → Prop) :
  succeeds P m Q → (∀ w, P' w → P w) → (∀ a w, Q a w → Q' a w) → succeeds P' m Q'.
Proof.
  intros Hm HP HQ w Hw. destruct (Hm w (HP w Hw)) as (a & w1 & Hrun & Ha).
  exists a, w1. split; [done | by apply HQ].
Qed.

Lemma succeeds_unchanged {A} (P : world → Prop) (m : drv A) :
  (∀ w, ∃ a, m w = (Return a, w)) → succeeds P m (λ _, P).
Proof. intros Hm w Hw. destruct (Hm w) as [a Ha]. by exists a, w. Qed.

Section quiet.
Context (script : nat → response) (Hquiet : quiet script).

Lemma driver_call_quiet {A} (needs_window : bool) (k : response → world → A * world)
    (w : world) :
  needs_window = false ∨ focus_alive w = true →
  driver_call script needs_window k w
  = (Return (k (script (calls w)) (answered (script (calls w)) w)).1,
     (k (script (calls w)) (answered (script (calls w)) w)).2).
Proof.
  intros Hwin. unfold driver_call. rewrite Hquiet.
  assert (needs_window && negb (focus_alive (answered (script (calls w)) w)) = false) as ->.
  { destruct Hwin as [-> | Hw]; [done|]. unfold focus_alive in *. simpl.
    rewrite Hw. by destruct needs_window. }
  by destruct (k _ _).
Qed.

Lemma succeeds_driver_call {A} (needs_window : bool) (k : response → world → A * world)
    (ws : list handle) (c : handle) (Q : A → world → Prop) :
  needs_window = false ∨ c ∈ ws →
  (∀ r w, at_tabs ws c w → Q (k r w).1 (k r w).2) →
  succeeds (at_tabs ws c) (driver_call script needs_window k) Q.
Proof.
  intros Hwin Hk w [Hws Hc]. rewrite driver_call_quiet.
  - eexists _, _. split; [done|]. apply Hk. by split.
  - destruct Hwin as [?|Hin]; [by left | right].
    apply bool_decide_eq_true_2. by rewrite Hws, Hc.
Qed.

Lemma succeeds_switch_to_window (h : handle) (ws : list handle) (c : handle) :
  h ∈ ws →
  succeeds (at_tabs ws c) (switch_to_window script h) (λ _, at_tabs ws h).
Proof.
  intros Hh w [Hws Hc]. unfold switch_to_window. rewrite Hquiet.
  change (window_handles (answered (script (calls w)) w)) with (window_handles w).
  rewrite Hws. case_bool_decide; [|done]. eexists _, _. split; [done|].
  by split.
Qed.

Lemma succeeds_read_ready_state (ws : list handle) (c : handle) :
  c ∈ ws → succeeds (at_tabs ws c) (read_ready_state script) (λ _, at_tabs ws c).
Proof. intros Hc. apply succeeds_driver_call; [by right | by intros r w Hw]. Qed.

Lemma succeeds_get_page_source (ws : list handle) (c : handle) :
  c ∈ ws → succeeds (at_tabs ws c) (get_page_source script) (λ _, at_tabs ws c).
Proof. intros Hc. apply succeeds_driver_call; [by right | by intros r w Hw]. Qed.

Lemma succeeds_is_connection_error_page (ws : list handle) (c : handle) :
  c ∈ ws → succeeds (at_tabs ws c) (is_connection_error_page script) (λ _, at_tabs ws c).
Proof. intros Hc. apply succeeds_driver_call; [by right | by intros r w Hw]. Qed.

Lemma succeeds_get_window_handles (ws : list handle) (c : handle) :
  succeeds (at_tabs ws c) (get_window_handles script) (λ hs w, hs = ws ∧ at_tabs ws c w).
Proof.
  apply succeeds_driver_call; [by left|]. intros r w [Hws Hc]. simpl. by repeat split.
Qed.

Lemma succeeds_close_window (ws : list handle) (c : handle) :
  c ∈ ws →
  succeeds (at_tabs ws c) (close_window script)
    (λ _, at_tabs (filter (λ x, x ≠ c) ws) c).
Proof.
  intros Hc. apply succeeds_driver_call; [by right|]. intros r w [Hws Hcur].
  unfold at_tabs, close_focus. cbn [fst snd window_handles current_window].
  by rewrite Hws, Hcur.
Qed.

Lemma succeeds_record_load_time (P : world → Prop) (t : gmap string Z) (u : string)
    (lt : gmap string Z) :
  succeeds P (record_load_time t u lt) (λ _, P).
Proof.
  apply succeeds_unchanged. intros w. unfold record_load_time.
  destruct (t !! u); by eexists.
Qed.

Lemma succeeds_lookup_tab (P : world → Prop) (m : list (handle * string)) (h : handle)
    (u : string) :
  dict_get h m = Some u →
  succeeds P (lookup_tab m h) (λ u' w, u' = u ∧ P w).
Proof. intros Hu w Hw. unfold lookup_tab. rewrite Hu. by exists u, w. Qed.

Lemma succeeds_capture (u : string) (ws : list handle) (c : handle) :
  c ∈ ws → succeeds (at_tabs ws c) (capture script u) (λ _, at_tabs ws c).
Proof.
  intros Hc. unfold capture.
  eapply succeeds_bind.
  - apply (succeeds_attempt _ _ (λ _, at_tabs ws c)).
    eapply succeeds_bind; [by apply succeeds_is_connection_error_page|].
    intros []; [by apply succeeds_ret|].
    eapply succeeds_bind; [by apply succeeds_get_page_source|].
    intros html. destruct (String.eqb html EmptyString); by apply succeeds_ret.
  - intros r w (a & -> & Hw). by exists a, w.
Qed.

Lemma succeeds_close_if_not_last (ws : list handle) (c : handle) :
  c ∈ ws →
  succeeds (at_tabs ws c) (close_if_not_last script) (λ _, at_tabs (after_close ws c) c).
Proof.
  intros Hc. unfold close_if_not_last. eapply succeeds_bind.
  - apply (succeeds_attempt _ _ (λ _, at_tabs (after_close ws c) c)).
    eapply succeeds_bind; [apply succeeds_get_window_handles|].
    intros hs w [-> Hw]. revert w Hw. unfold after_close.
    destruct (1 <? length ws)%nat.
    + by apply succeeds_close_window.
    + by apply succeeds_ret.
  - intros r w (a & -> & Hw). by exists tt, w.
Qed.

(** One tab of a sweep: the tab is left as it is, or resolved and closed
    unless it is the last window. *)
Lemma succeeds_sweep_tab (m : list (handle * string)) (t : gmap string Z) (h : handle)
    (st : collecting) (ws : list handle) (c : handle) :
  h ∈ ws → is_Some (dict_get h m) →
  succeeds (at_tabs ws c) (sweep_tab script m t h st)
    (λ st' w',
       (pending st' = pending st ∧ at_tabs ws h w')
       ∨ (pending st' = remove_pending h (pending st) ∧ at_tabs (after_close ws h) h w')).
Proof.
  intros Hh [u Hu]. unfold sweep_tab.
  eapply succeeds_bind; [by apply succeeds_attempt, succeeds_switch_to_window|].
  intros r w ([] & -> & Hw). revert w Hw.
  eapply succeeds_bind; [by apply succeeds_lookup_tab|].
  intros u' w [-> Hw]. revert w Hw.
  eapply succeeds_bind; [by apply succeeds_attempt, succeeds_read_ready_state|].
  intros r w (ready & -> & Hw). revert w Hw.
  destruct (String.eqb ready "complete" || String.eqb ready "interactive").
  - eapply succeeds_bind; [apply succeeds_record_load_time|]. intros lt.
    eapply succeeds_bind; [by apply succeeds_capture|]. intros cnt.
    eapply succeeds_bind; [by apply succeeds_close_if_not_last|]. intros [].
    apply succeeds_ret. intros w Hw. by right.
  - apply succeeds_ret. intros w Hw. by left.
Qed.
End quiet.

Lemma visiting_nil (w : world) : visiting [] w → settled w.
Proof. by intros [_ [[? _] | [_ ?]]]. Qed.

Lemma visiting_tabs (todo : list handle) (w : world) (h : handle) :
  visiting todo w → h ∈ todo →
  NoDup todo ∧ todo ≠ [] ∧ window_handles w ≡ₚ todo ∧ h ∈ window_handles w.
Proof.
  intros [Hnd [[Hne Hperm] | [-> _]]] Hh; [|by apply elem_of_nil in Hh].
  split; [done|]. split; [done|]. split; [done|]. by rewrite Hperm.
Qed.

(** A visited window is closed unless it is the last one: the others are
    still to visit. *)
Lemma visiting_resolve (todo : list handle) (h : handle) (w w' : world) :
  visiting todo w → h ∈ todo →
  at_tabs (after_close (window_handles w) h) h w' →
  visiting (remove_pending h todo) w'.
Proof.
  intros Hvis Hh [Hws Hcur].
  destruct (visiting_tabs _ _ _ Hvis Hh) as (Hnd & Hne & Hperm & Hin).
  unfold remove_pending. split; [by apply NoDup_filter|].
  unfold after_close in Hws.
  destruct (Nat.ltb_spec 1 (length (window_handles w))) as [Hlong|Hshort].
  - left. split; [|by rewrite Hws, Hperm].
    rewrite Hperm in Hlong.
    destruct todo as [|a [|b rest]]; simpl in Hlong; [lia..|].
    apply NoDup_cons in Hnd as [Hab _].
    assert (a ≠ b) as Hne' by (intros ->; apply Hab; by left).
    destruct (decide (a = h)) as [->|Ha].
    + intros Hnil. assert (b ∈ filter (λ x, x ≠ h) (h :: b :: rest)) as Hb.
      { apply list_elem_of_filter. split; [done|]. right. by left. }
      rewrite Hnil in Hb. by apply elem_of_nil in Hb.
    + intros Hnil. assert (a ∈ filter (λ x, x ≠ h) (a :: b :: rest)) as Hb.
      { apply list_elem_of_filter. split; [done|]. by left. }
      rewrite Hnil in Hb. by apply elem_of_nil in Hb.
  - right. rewrite Hperm in Hshort.
    destruct todo as [|a [|b rest]]; simpl in Hshort; [done| |lia].
    apply list_elem_of_singleton in Hh as ->.
    apply Permutation_singleton_r in Hperm.
    split.
    + rewrite filter_cons. by case_decide.
    + unfold settled. by rewrite Hws, Hperm, Hcur.
Qed.

Lemma visiting_same (todo : list handle) (w w' : world) :
  visiting todo w → window_handles w' = window_handles w →
  current_window w' = current_window w → visiting todo w'.
Proof.
  intros [Hnd Hvis] Hws Hcur. split; [done|]. unfold settled. by rewrite Hws, Hcur.
Qed.

Lemma visiting_refocus (todo : list handle) (w w' : world) (h : handle) :
  visiting todo w → h ∈ todo → at_tabs (window_handles w) h w' → visiting todo w'.
Proof.
  intros Hvis Hh [Hws Hcur].
  destruct (visiting_tabs _ _ _ Hvis Hh) as (Hnd & Hne & Hperm & Hin).
  split; [done|]. left. split; [done|]. by rewrite Hws.
Qed.

Lemma remove_pending_fresh (h : handle) (l : list handle) :
  h ∉ l → remove_pending h l = l.
Proof.
  unfold remove_pending. induction l as [|x l IH]; [done|].
  intros [Hx Hl]%not_elem_of_cons. rewrite filter_cons. case_decide; [|done].
  f_equal. by apply IH.
Qed.

Section quiet.
Context (script : nat → response) (Hquiet : quiet script).
Context (m : list (handle * string)) (t : gmap string Z).

Lemma succeeds_sweep (snapshot : list handle) (st : collecting) :
  NoDup snapshot → snapshot ⊆ pending st →
  (∀ h, h ∈ pending st → is_Some (dict_get h m)) →
  succeeds (visiting (pending st)) (sweep script m t snapshot st)
    (λ st' w', visiting (pending st') w' ∧ pending st' ⊆ pending st).
Proof.
  revert st. induction snapshot as [|h rest IH]; intros st Hnd Hsub Hkeys; simpl.
  - by apply succeeds_ret.
  - apply NoDup_cons in Hnd as [Hfresh Hnd].
    assert (h ∈ pending st) as Hh by (apply Hsub; by left).
    intros w Hw.
    destruct (visiting_tabs _ _ _ Hw Hh) as (_ & _ & _ & Hin).
    destruct (succeeds_sweep_tab script Hquiet m t h st (window_handles w)
                (current_window w) Hin (Hkeys h Hh) w) as (st1 & w1 & Hrun & Hcases);
      [done|].
    assert (visiting (pending st1) w1 ∧ pending st1 ⊆ pending st
            ∧ rest ⊆ pending st1) as (Hvis1 & Hsub1 & Hrest).
    { destruct Hcases as [[Hp Hw1] | [Hp Hw1]]; rewrite Hp.
      - split; [by eapply visiting_refocus|]. split; [done|].
        intros x Hx. apply Hsub. by right.
      - split; [by eapply visiting_resolve|]. unfold remove_pending.
        split; [by intros x [_ ?]%list_elem_of_filter|].
        intros x Hx. apply list_elem_of_filter. split; [by intros ->|].
        apply Hsub. by right. }
    destruct (IH st1 Hnd Hrest) with (w := w1) as (st2 & w2 & Hrun2 & Hvis2 & Hsub2).
    { intros x Hx. apply Hkeys. by apply Hsub1. }
    { done. }
    exists st2, w2. unfold mbind, drv_bind. rewrite Hrun. split; [done|].
    split; [done|]. by etrans.
Qed.

Lemma succeeds_pause (deadline : option Z) (st : collecting) (todo : list handle) :
  succeeds (visiting todo) (pause deadline st) (λ _, visiting todo).
Proof.
  intros w Hw. unfold pause.
  destruct (negb _ && negb _); eexists _, _; (split; [done|]); [|done].
  by eapply visiting_same.
Qed.

Lemma succeeds_poll (fuel : nat) (page_timeout : Z) (deadline : option Z) (start : Z)
    (st : collecting) :
  NoDup (pending st) →
  (∀ h, h ∈ pending st → is_Some (dict_get h m)) →
  succeeds (visiting (pending st))
    (poll fuel script m t page_timeout deadline start st)
    (λ st' w', visiting (pending st') w' ∧ pending st' ⊆ pending st).
Proof.
  revert st. induction fuel as [|fuel IH]; intros st Hnd Hkeys w Hw; simpl.
  - destruct (keep_polling _ _ _ _ _); by exists st, w.
  - destruct (keep_polling _ _ _ _ _); [|by exists st, w].
    destruct (succeeds_sweep (pending st) st Hnd) with (w := w)
      as (st1 & w1 & Hrun1 & Hvis1 & Hsub1); [done..|].
    destruct (succeeds_pause deadline st1 (pending st1) w1 Hvis1)
      as ([] & w2 & Hrun2 & Hvis2).
    destruct (IH st1) with (w := w2) as (st3 & w3 & Hrun3 & Hvis3 & Hsub3).
    { by destruct Hvis1. }
    { intros h Hh. by apply Hkeys, Hsub1. }
    { done. }
    exists st3, w3. unfold mbind, drv_bind. rewrite Hrun1, Hrun2. split; [done|].
    split; [done|]. by etrans.
Qed.

Lemma succeeds_last_chance (h : handle) (st : collecting) (ws : list handle) (c : handle) :
  h ∈ ws → is_Some (dict_get h m) →
  succeeds (at_tabs ws c) (last_chance script m t h st)
    (λ _, at_tabs (after_close ws h) h).
Proof.
  intros Hh [u Hu]. unfold last_chance. eapply succeeds_bind.
  - apply (succeeds_attempt _ _ (λ _, at_tabs (after_close ws h) h)).
    eapply succeeds_bind; [by apply succeeds_switch_to_window|]. intros [].
    eapply succeeds_bind; [by apply succeeds_lookup_tab|].
    intros u' w [-> Hw]. revert w Hw.
    eapply succeeds_bind; [apply succeeds_record_load_time|]. intros lt.
    eapply succeeds_bind; [by apply succeeds_attempt, succeeds_get_page_source|].
    intros r w (html & -> & Hw). revert w Hw.
    eapply succeeds_bind; [by apply succeeds_close_if_not_last|]. intros [].
    by apply succeeds_ret.
  - intros r w (st' & -> & Hw). by exists st', w.
Qed.

Lemma succeeds_last_chances (snapshot : list handle) (st : collecting) :
  (∀ h, h ∈ snapshot → is_Some (dict_get h m)) →
  succeeds (visiting snapshot) (last_chances script m t snapshot st) (λ _, settled).
Proof.
  revert st. induction snapshot as [|h rest IH]; intros st Hkeys w Hw; simpl.
  - exists st, w. split; [done|]. by apply visiting_nil.
  - assert (h ∈ h :: rest) as Hh by (by left).
    destruct (visiting_tabs _ _ _ Hw Hh) as (Hnd & _ & _ & Hin).
    destruct (succeeds_last_chance h st (window_handles w) (current_window w) Hin
                (Hkeys h Hh) w) as (st1 & w1 & Hrun1 & Hw1); [done|].
    pose proof (visiting_resolve _ _ _ _ Hw Hh Hw1) as Hvis1.
    apply NoDup_cons in Hnd as [Hfresh _].
    unfold remove_pending in Hvis1. rewrite filter_cons in Hvis1.
    case_decide; [done|]. fold (remove_pending h rest) in Hvis1.
    rewrite remove_pending_fresh in Hvis1 by done.
    destruct (IH st1) with (w := w1) as (st2 & w2 & Hrun2 & Hw2).
    { intros x Hx. apply Hkeys. by right. }
    { done. }
    exists st2, w2. unfold mbind, drv_bind. by rewrite Hrun1.
Qed.

(** From the tabs of a batch, [_collect_batch] leaves one window, under
    focus. *)
Lemma succeeds_collect_batch (page_timeout : Z) (deadline : option Z) :
  succeeds (visiting (dict_keys m)) (_collect_batch script m t page_timeout deadline)
    (λ _, settled).
Proof.
  intros w Hw. unfold _collect_batch. unfold mbind, drv_bind at 1. unfold now at 1.
  destruct (succeeds_poll (enough_sweeps page_timeout) page_timeout deadline (clock w)
              {| results := ∅; tab_load_times := ∅; pending := dict_keys m |})
    with (w := w) as (st1 & w1 & Hrun1 & Hvis1 & Hsub1).
  { by destruct Hw. }
  { intros h. apply dict_get_keys. }
  { done. }
  unfold mbind, drv_bind at 1. rewrite Hrun1.
  destruct (succeeds_last_chances (pending st1) st1) with (w := w1)
    as (st2 & w2 & Hrun2 & Hw2).
  { intros h Hh. apply dict_get_keys. by apply Hsub1. }
  { done. }
  unfold mbind, drv_bind at 1. rewrite Hrun2. by eexists _, _.
Qed.
End quiet.

Section quiet.
Context (script : nat → response) (Hquiet : quiet script).

Lemma succeeds_dispatch_batch (urls : list string) :
  succeeds (λ w, settled w ∧ tidy w) (_dispatch_batch script urls)
    (λ mt w', visiting (dict_keys mt.1) w' ∧ tidy w').
Proof.
  intros w [Hset Htidy].
  pose proof (tidy_dispatch_batch script urls w Htidy) as Htidy'.
  destruct urls as [|u urls].
  { eexists ([], ∅), _. split; [reflexivity|]. split; [|done].
    split; [constructor|]. right. split; [done|]. apply Hset. }
  assert (returned (fst (_dispatch_batch script (u :: urls) w)) = true) as Hret.
  { apply dispatch_batch_succeeds.
    - apply bool_decide_eq_true_2. rewrite Hset. by left.
    - intros k _. left. apply Hquiet. }
  destruct (_dispatch_batch script (u :: urls) w) as [[[m t]|err] w'] eqn:Hrun;
    [|by simpl in Hret].
  destruct (dispatch_batch_returns _ _ _ _ _ _ Htidy Hrun)
    as (Hurls & Hnd & Hhead & Hwin & _).
  exists (m, t), w'. split; [done|]. cbn [fst]. split; [|done]. split; [done|]. left.
  simpl in Hhead. destruct (dict_keys m) as [|h hs] eqn:Hkeys; [done|].
  injection Hhead as ->. split; [done|].
  rewrite Hwin, Hset. done.
Qed.

Lemma succeeds_fetch_batches (cfg : config) (page_timeout : Z) (deadline : option Z)
    (urls : list string) (starts : list Z) (all_results : gmap string content) :
  succeeds (λ w, settled w ∧ tidy w)
    (fetch_batches cfg script page_timeout deadline urls starts all_results)
    (λ _ w', settled w' ∧ tidy w').
Proof.
  revert all_results. induction starts as [|i later IH]; intros all_results w Hw.
  - by exists all_results, w.
  - cbn [fetch_batches]. destruct (deadline_exceeded deadline w); [by eexists _, _|].
    destruct (succeeds_dispatch_batch (slice i (MAX_CONCURRENT_TABS cfg) urls) w Hw)
      as ([m t] & w1 & Hrun1 & Hvis1 & Htidy1).
    unfold mbind, drv_bind at 1. rewrite Hrun1. cbv beta iota.
    destruct (succeeds_collect_batch script Hquiet m t page_timeout deadline w1 Hvis1)
      as ([res lt] & w2 & Hrun2 & Hset2).
    pose proof (tidy_collect_batch script m t page_timeout deadline w1 Htidy1) as Htidy2.
    rewrite Hrun2 in Htidy2.
    unfold mbind, drv_bind at 1. rewrite Hrun2. cbv beta iota.
    by apply IH.
Qed.
End quiet.

Lemma loaded_browser_settled (e : browser_env) :
  settled (loaded_browser e) ∧ tidy (loaded_browser e).
Proof. split; [reflexivity|]. repeat constructor. Qed.

(** Once the display and the driver have started and the page-load timeout
    is set, a run of [_fetch_urls_with_browser] is the loop over the
    batches, the content extraction, the [except] clause and the
    cleanup. *)
Lemma fetch_body_launched (cfg : config) (e : browser_env) (urls : list string)
    (page_timeout overall_timeout : Z) (starts : list Z) :
  launches e → raises (driver_script e 0%nat) = None →
  py_range (Z.of_nat (length urls)) (MAX_CONCURRENT_TABS cfg) = Return starts →
  fetch_body cfg e urls page_timeout overall_timeout (before_launch e)
  = let '(r, w) := fetch_batches cfg (driver_script e) page_timeout
                     (overall_deadline e overall_timeout) urls starts ∅
                     (loaded_browser e) in
    (match r with
     | Return all' => Return (extraction_loop e all')
     | Raise err => Raise err
     end, w).
Proof.
  intros [Hdisplay Hlaunch] Hfirst Hrange. unfold fetch_body.
  unfold mbind, drv_bind at 1.
  assert (start_virtual_display e (before_launch e) = (Return tt, before_launch e)) as ->.
  { unfold start_virtual_display. by destruct Hdisplay as [-> | ->]. }
  unfold mbind, drv_bind at 1. unfold launch_driver at 1. rewrite Hlaunch.
  unfold mbind, drv_bind at 1.
  unfold set_page_load_timeout, driver_call.
  change (calls (fresh_browser (before_launch e))) with 0%nat. rewrite Hfirst.
  cbn [andb]. fold (loaded_browser e).
  unfold mbind, drv_bind at 1. rewrite Hrange.
  unfold mbind, drv_bind at 1. fold (overall_deadline e overall_timeout).
  by destruct (fetch_batches _ _ _ _ _ _ _ _) as [[all'|err] w].
Qed.

Lemma fetch_urls_with_browser_launched (cfg : config) (e : browser_env) (s : state)
    (urls : list string) (page_timeout overall_timeout : Z) (starts : list Z) :
  truthy (_tbb_path s) = true → truthy (_tbb_profile_path s) = true →
  launches e → raises (driver_script e 0%nat) = None →
  py_range (Z.of_nat (length urls)) (MAX_CONCURRENT_TABS cfg) = Return starts →
  let run := _fetch_urls_with_browser cfg e s urls page_timeout overall_timeout in
  let loop := fetch_batches cfg (driver_script e) page_timeout
                (overall_deadline e overall_timeout) urls starts ∅ (loaded_browser e) in
  fst run = Return (after_except urls
                      match fst loop with
                      | Return all' => Return (extraction_loop e all')
                      | Raise err => Raise err
                      end)
  ∧ dispatched (snd run) = dispatched (snd loop)
  ∧ navigations (snd run) = navigations (snd loop)
  ∧ clock (snd loop) ≤ clock (snd run).
Proof.
  intros Htbb Hprofile Hlaunch Hfirst Hrange run loop.
  destruct (fetch_urls_with_browser_cases cfg e s urls page_timeout overall_timeout
              Htbb Hprofile) as (r & w & Hbody & Hrun).
  rewrite (fetch_body_launched _ _ _ _ _ _ Hlaunch Hfirst Hrange) in Hbody.
  fold loop in Hbody. subst run. rewrite Hrun. cbn [fst snd].
  destruct loop as [r' w'] eqn:Hloop. cbn [fst snd].
  injection Hbody as <- <-.
  destruct (keeps_fetch_cleanup e w') as [Hlog Hclock].
  split; [done|]. split; [done|]. split; [apply fetch_cleanup_navigations | done].
Qed.

Lemma holds_text_false (all_results : gmap string content) :
  (∀ u c, all_results !! u = Some c → is_text c = false) → holds_text all_results = false.
Proof.
  intros Hnone. unfold holds_text. apply not_true_is_false.
  intros (c & Hc & Htext)%existsb_exists.
  apply list_elem_of_In, list_elem_of_fmap in Hc as ([u c'] & -> & Hc).
  apply elem_of_map_to_list in Hc. simpl in Htext. by rewrite (Hnone u c' Hc) in Htext.
Qed.

Lemma after_extraction_no_text (e : browser_env) (urls : list string)
    (all' : gmap string content) :
  (∀ u c, all' !! u = Some c → is_text c = false) →
  after_except urls (Return (extraction_loop e all')) = extract_all e all'.
Proof.
  intros Hnone. unfold extraction_loop. rewrite (holds_text_false _ Hnone).
  by destruct (trafilatura_import e).
Qed.

(** A run in which no call on the driver raises: no URL gets the browser
    error, the batches dispatched are the first ones, and the others, if
    any, were cut off by the deadline. *)
Lemma fetch_urls_with_browser_quiet (cfg : config) (e : browser_env) (s : state)
    (urls : list string) (page_timeout overall_timeout : Z) (starts : list Z) :
  truthy (_tbb_path s) = true → truthy (_tbb_profile_path s) = true →
  launches e → quiet (driver_script e) → trafilatura_import e = Imported →
  0 ≤ MAX_CONCURRENT_TABS cfg →
  py_range (Z.of_nat (length urls)) (MAX_CONCURRENT_TABS cfg) = Return starts →
  (∀ j i, starts !! j = Some i →
     slice_from i urls
     = concat (drop j ((λ i, slice i (MAX_CONCURRENT_TABS cfg) urls) <$> starts))) →
  let batches := (λ i, slice i (MAX_CONCURRENT_TABS cfg) urls) <$> starts in
  let run := _fetch_urls_with_browser cfg e s urls page_timeout overall_timeout in
  ∃ j fetched,
    (j ≤ length batches)%nat
    ∧ fst run = Return fetched
    ∧ dispatched (snd run) = take j batches
    ∧ (∀ u, is_Some (fetched !! u) ↔ u ∈ urls)
    ∧ (∀ u msg, fetched !! u ≠ Some (Failure browser_error msg))
    ∧ (j = length batches
       ∨ (0 < overall_timeout
          ∧ total_start e + seconds overall_timeout < clock (snd run)
          ∧ ∀ u, u ∈ concat (drop j batches) →
              fetched !! u = Some overall_timeout_reached)).
Proof.
  intros Htbb Hprofile Hlaunch Hquiet Himport Hbound Hrange Hslices batches run.
  destruct (fetch_urls_with_browser_launched cfg e s urls page_timeout overall_timeout
              starts Htbb Hprofile Hlaunch (Hquiet 0%nat) Hrange)
    as (Hfetched & Hlog & _ & Hclock).
  fold run in Hfetched, Hlog, Hclock.
  destruct (succeeds_fetch_batches (driver_script e) Hquiet cfg page_timeout
              (overall_deadline e overall_timeout) urls starts ∅ (loaded_browser e)
              (loaded_browser_settled e)) as (all' & w' & Hloop & _).
  destruct (fetch_batches_log cfg (driver_script e) page_timeout
              (overall_deadline e overall_timeout) urls starts ∅ (loaded_browser e))
    as (j & Hj & Hdisp & Hret).
  rewrite Hloop in Hfetched, Hlog, Hclock, Hdisp, Hret. cbn [fst snd] in *.
  rewrite after_extraction_imported in Hfetched by done.
  exists j, (extract_all e all'). subst batches. rewrite length_fmap.
  split; [done|]. split; [done|]. split; [by rewrite Hlog, Hdisp, fmap_take|].
  split.
  { destruct (fetch_urls_domain cfg e s urls page_timeout overall_timeout Htbb Hprofile
                Hbound) as (fetched & Hfetched' & Hdom).
    unfold fetch_urls in Hfetched'. fold run in Hfetched'. rewrite Hfetched in Hfetched'.
    by injection Hfetched' as <-. }
  split.
  { intros u msg. rewrite extract_all_lookup.
    destruct (all' !! u) as [c|] eqn:Hc; [|done]. simpl. intros [= Hex].
    destruct (fetch_batches_outcomes _ _ _ _ _ _ _ _ _ _ Hloop u _ Hc) as [Hin|Hout];
      [done|]. by apply extract_content_failure in Hex. }
  destruct (Hret all' eq_refl) as [-> | (i & before & Hi & Hcut & ->)]; [by left|].
  right. unfold overall_deadline, deadline_exceeded in Hcut.
  destruct (Z.ltb_spec 0 overall_timeout) as [Hpos|]; [|done].
  apply Z.ltb_lt in Hcut. split; [done|]. split; [lia|].
  intros u Hu. rewrite <- (Hslices j i Hi) in Hu.
  rewrite extract_all_lookup. by rewrite (mark_remaining_timeout _ _ _ Hu).
Qed.

(** A run whose deadline has passed when the first batch is due. *)
Lemma fetch_urls_with_browser_late (cfg : config) (e : browser_env) (s : state)
    (urls : list string) (page_timeout overall_timeout : Z) (starts : list Z) :
  truthy (_tbb_path s) = true → truthy (_tbb_profile_path s) = true →
  launches e → raises (driver_script e 0%nat) = None →
  0 < overall_timeout →
  seconds overall_timeout < Z.of_N (elapsed (driver_script e 0%nat)) →
  py_range (Z.of_nat (length urls)) (MAX_CONCURRENT_TABS cfg) = Return starts →
  (starts = [] → urls = []) → (∀ i later, starts = i :: later → i = 0) →
  let run := _fetch_urls_with_browser cfg e s urls page_timeout overall_timeout in
  ∃ fetched,
    fst run = Return fetched
    ∧ (∀ u, fetched !! u
            = if decide (u ∈ urls) then Some overall_timeout_reached else None)
    ∧ dispatched (snd run) = []
    ∧ navigations (snd run) = [].
Proof.
  intros Htbb Hprofile Hlaunch Hfirst Hpos Hslow Hrange Hnone Hzero run.
  destruct (fetch_urls_with_browser_launched cfg e s urls page_timeout overall_timeout
              starts Htbb Hprofile Hlaunch Hfirst Hrange)
    as (Hfetched & Hlog & Hnav & _).
  fold run in Hfetched, Hlog, Hnav.
  assert (deadline_exceeded (overall_deadline e overall_timeout) (loaded_browser e) = true)
    as Hcut.
  { unfold overall_deadline. destruct (Z.ltb_spec 0 overall_timeout); [|lia].
    apply Z.ltb_lt. simpl. lia. }
  destruct starts as [|i later].
  - rewrite (Hnone eq_refl) in *. cbn [fetch_batches mret drv_ret fst snd] in *.
    rewrite after_extraction_empty in Hfetched.
    eexists. split; [done|]. split; [|done].
    intros u. rewrite lookup_empty.
    case_decide as Hu; [by apply elem_of_nil in Hu | done].
  - rewrite (Hzero i later eq_refl) in *. cbn [fetch_batches] in *.
    rewrite Hcut in *. cbn [fst snd] in *.
    rewrite after_extraction_no_text in Hfetched.
    2:{ intros u c. unfold slice_from. rewrite drop_0.
        destruct (decide (u ∈ urls)) as [Hu|Hu].
        - rewrite (mark_remaining_timeout _ _ _ Hu). by intros [= <-].
        - by rewrite (mark_remaining_other _ _ _ Hu), lookup_empty. }
    eexists. split; [done|]. split; [|done].
    intros u. rewrite extract_all_lookup. unfold slice_from. rewrite drop_0.
    case_decide as Hu.
    + by rewrite (mark_remaining_timeout _ _ _ Hu).
    + by rewrite (mark_remaining_other _ _ _ Hu), lookup_empty.
Qed.

(** C3.  For a positive concurrency bound N the loop of
    [_fetch_urls_with_browser] runs over start indexes whose slices are
    consecutive batches of the URL list: put end to end they give the
    list back, and each has at least one and at most N URLs (five URLs
    and a bound of 2 give batches of 2, 2 and 1).  Whenever a batch
    starts with the clock past the overall deadline, the loop ends there
    and then: it returns in the very world it was in (no driver call, no
    dispatch), and every URL of that batch and of all the later ones is
    mapped to the timeout outcome, which the content extraction leaves as
    it is.  Over a whole run, the batches handed to [_dispatch_batch] are
    the first j batches, in order, once each; when the loop returns,
    either j is the number of batches or the loop stopped at batch j for
    the deadline and the URLs of the batches from j on are mapped to the
    timeout outcome.  Of a call of [_fetch_urls_with_browser] itself, with
    the browser paths set: when Trafilatura is imported, it returns a
    dict, has dispatched the first j batches and nothing else, and either
    j is the number of batches, or an exception ended the run (every URL
    then carries the browser error), or the deadline ended it and every
    URL of the batches from j on carries the timeout outcome.  When the
    display and the driver start and the page-load timeout is set, the
    call is that very loop, started in the browser just launched with the
    deadline [total_start + overall_timeout], followed by the content
    extraction, the [except] clause and the cleanup.  So when the
    deadline has already passed as the first batch is due, nothing is
    dispatched or navigated to and every URL has the timeout outcome; and
    when no call on the driver raises (and Trafilatura is imported), in a
    browser that lists a newly opened window last among its handles, the
    call dispatches the first j batches and nothing else, every URL has
    an outcome, none has the browser error, and either j is the number of
    batches or the deadline has passed and every URL of the batches from
    j on has the timeout outcome. *)
Theorem batches_and_overall_deadline (cfg : config) (e : browser_env) (page_timeout : Z)
    (deadline : option Z) (urls : list string) :
  0 < MAX_CONCURRENT_TABS cfg →
  ∃ starts,
    py_range (Z.of_nat (length urls)) (MAX_CONCURRENT_TABS cfg) = Return starts
    ∧ let batches := (λ i, slice i (MAX_CONCURRENT_TABS cfg) urls) <$> starts in
      let loop := fetch_batches cfg (driver_script e) page_timeout deadline urls in
      concat batches = urls
      ∧ Forall (λ b, (1 ≤ length b)%nat ∧ Z.of_nat (length b) ≤ MAX_CONCURRENT_TABS cfg)
          batches
      ∧ (MAX_CONCURRENT_TABS cfg = 2 → length urls = 5%nat →
         length <$> batches = [2; 2; 1]%nat)
      ∧ (∀ j all_results w,
           (j < length batches)%nat → deadline_exceeded deadline w = true →
           loop (drop j starts) all_results w
           = (Return (mark_remaining (concat (drop j batches)) all_results), w)
           ∧ ∀ u, u ∈ concat (drop j batches) →
               mark_remaining (concat (drop j batches)) all_results !! u
               = Some overall_timeout_reached
               ∧ extract_all e (mark_remaining (concat (drop j batches)) all_results) !! u
                 = Some overall_timeout_reached)
      ∧ (∀ all_results w,
           ∃ j, (j ≤ length batches)%nat
             ∧ dispatched (snd (loop starts all_results w)) = dispatched w ++ take j batches
             ∧ ∀ all', fst (loop starts all_results w) = Return all' →
                 j = length batches
                 ∨ (deadline_exceeded deadline (snd (loop starts all_results w)) = true
                    ∧ ∀ u, u ∈ concat (drop j batches) →
                        all' !! u = Some overall_timeout_reached
                        ∧ extract_all e all' !! u = Some overall_timeout_reached))
      ∧ (∀ s overall_timeout,
           truthy (_tbb_path s) = true → truthy (_tbb_profile_path s) = true →
           trafilatura_import e = Imported →
           let run := _fetch_urls_with_browser cfg e s urls page_timeout overall_timeout in
           ∃ j fetched,
             (j ≤ length batches)%nat
             ∧ fst run = Return fetched
             ∧ dispatched (snd run) = take j batches
             ∧ (j = length batches
                ∨ (∃ msg, ∀ u, u ∈ urls → fetched !! u = Some (Failure browser_error msg))
                ∨ (0 < overall_timeout
                   ∧ total_start e + seconds overall_timeout < clock (snd run)
                   ∧ ∀ u, u ∈ concat (drop j batches) →
                       fetched !! u = Some overall_timeout_reached)))
      ∧ (∀ s overall_timeout,
           truthy (_tbb_path s) = true → truthy (_tbb_profile_path s) = true →
           launches e → raises (driver_script e 0%nat) = None →
           let run := _fetch_urls_with_browser cfg e s urls page_timeout overall_timeout in
           let from_launch :=
             fetch_batches cfg (driver_script e) page_timeout
               (overall_deadline e overall_timeout) urls starts ∅ (loaded_browser e) in
           fst run = Return (after_except urls
                               match fst from_launch with
                               | Return all' => Return (extraction_loop e all')
                               | Raise err => Raise err
                               end)
           ∧ dispatched (snd run) = dispatched (snd from_launch)
           ∧ navigations (snd run) = navigations (snd from_launch))
      ∧ (∀ s overall_timeout,
           truthy (_tbb_path s) = true → truthy (_tbb_profile_path s) = true →
           launches e → raises (driver_script e 0%nat) = None →
           0 < overall_timeout →
           seconds overall_timeout < Z.of_N (elapsed (driver_script e 0%nat)) →
           let run := _fetch_urls_with_browser cfg e s urls page_timeout overall_timeout in
           ∃ fetched,
             fst run = Return fetched
             ∧ (∀ u, fetched !! u
                     = if decide (u ∈ urls) then Some overall_timeout_reached else None)
             ∧ dispatched (snd run) = []
             ∧ navigations (snd run) = [])
      ∧ (∀ s overall_timeout,
           truthy (_tbb_path s) = true → truthy (_tbb_profile_path s) = true →
           launches e → quiet (driver_script e) → trafilatura_import e = Imported →
           let run := _fetch_urls_with_browser cfg e s urls page_timeout overall_timeout in
           ∃ j fetched,
             (j ≤ length batches)%nat
             ∧ fst run = Return fetched
             ∧ dispatched (snd run) = take j batches
             ∧ (∀ u, is_Some (fetched !! u) ↔ u ∈ urls)
             ∧ (∀ u msg, fetched !! u ≠ Some (Failure browser_error msg))
             ∧ (j = length batches
                ∨ (0 < overall_timeout
                   ∧ total_start e + seconds overall_timeout < clock (snd run)
                   ∧ ∀ u, u ∈ concat (drop j batches) →
                       fetched !! u = Some overall_timeout_reached))).
Proof.
  intros Hpos.
  destruct (batches_are_chunks cfg urls Hpos) as (Hrange & Hchunks & Hall & Hsome & Hstart).
  set (n := Z.to_nat (MAX_CONCURRENT_TABS cfg)) in *.
  set (m := Z.to_nat ((Z.of_nat (length urls) + MAX_CONCURRENT_TABS cfg - 1)
                      `div` MAX_CONCURRENT_TABS cfg)) in *.
  set (starts := (λ k : nat, Z.of_nat k * MAX_CONCURRENT_TABS cfg) <$> seq 0 m) in *.
  exists starts. split; [done|]. simpl. rewrite Hchunks.
  assert (length starts = m) as Hlen by (subst starts; by rewrite length_fmap, length_seq).
  assert (∀ j, (j ≤ m)%nat →
            concat (drop j (chunk n urls <$> seq 0 m)) = drop (j * n) urls) as Hrest.
  { intros j Hj. by apply concat_chunks_rest. }
  assert (∀ (all_results : gmap string content) j u,
            u ∈ drop (j * n) urls →
            mark_remaining (drop (j * n) urls) all_results !! u = Some overall_timeout_reached
            ∧ extract_all e (mark_remaining (drop (j * n) urls) all_results) !! u
              = Some overall_timeout_reached) as Hmarked.
  { intros all_results j u Hu. rewrite extract_all_lookup.
    by rewrite (mark_remaining_timeout _ _ _ Hu). }
  assert (∀ j i, starts !! j = Some i →
            slice_from i urls
            = concat (drop j ((λ i, slice i (MAX_CONCURRENT_TABS cfg) urls) <$> starts)))
    as Hslices.
  { intros j i Hi.
    assert (j < m)%nat as Hjm.
    { apply lookup_lt_Some in Hi. lia. }
    rewrite Hstart in Hi by done. injection Hi as <-.
    rewrite Hchunks, Hrest by lia. by apply slice_from_chunk. }
  split; [|split; [|split; [|split; [|split; [|split; [|split; [|split]]]]]]].
  - apply (Hrest 0%nat). lia.
  - apply Forall_fmap, Forall_forall. intros k [_ Hk]%elem_of_seq. simpl in *.
    specialize (Hsome k Hk). rewrite chunk_length. subst n. lia.
  - intros Htwo Hfive.
    assert (length <$> (chunk n urls <$> seq 0 m)
            = (λ k, n `min` (length urls - k * n))%nat <$> seq 0 m) as ->.
    { rewrite <- list_fmap_compose. apply list_fmap_ext. intros i k _. simpl.
      apply chunk_length. }
    subst n m. rewrite Htwo, Hfive. reflexivity.
  - intros j all_results w Hj Hcut. rewrite length_fmap, length_seq in Hj.
    rewrite Hrest by lia.
    assert (drop j starts = (Z.of_nat j * MAX_CONCURRENT_TABS cfg) :: drop (S j) starts)
      as ->.
    { apply drop_S. by apply Hstart. }
    simpl. rewrite Hcut. rewrite slice_from_chunk by done. split; [done|]. apply Hmarked.
  - intros all_results w.
    destruct (fetch_batches_log cfg (driver_script e) page_timeout deadline urls starts
                all_results w) as (j & Hj & Hdisp & Hret).
    simpl in Hdisp, Hret. exists j. rewrite length_fmap, length_seq.
    split; [lia|]. split.
    + rewrite Hdisp, <- Hchunks. by rewrite fmap_take.
    + intros all' Hall'. destruct (Hret all' Hall') as [-> | (i & before & Hi & Hcut & ->)];
        [by left|]. right. split; [done|].
      assert (j < m)%nat as Hjm.
      { apply lookup_lt_Some in Hi. lia. }
      rewrite Hstart in Hi by done. injection Hi as <-.
      rewrite Hrest by lia. rewrite slice_from_chunk by done. apply Hmarked.
  - intros s overall_timeout Htbb Hprofile Himport. rewrite <- Hchunks.
    by apply fetch_urls_with_browser_batches.
  - intros s overall_timeout Htbb Hprofile Hlaunch Hfirst.
    destruct (fetch_urls_with_browser_launched cfg e s urls page_timeout overall_timeout
                starts Htbb Hprofile Hlaunch Hfirst Hrange) as (? & ? & ? & _).
    done.
  - intros s overall_timeout Htbb Hprofile Hlaunch Hfirst Hpositive Hslow.
    apply (fetch_urls_with_browser_late cfg e s urls page_timeout overall_timeout starts);
      try done.
    + intros Hnil. destruct urls as [|u urls]; [done|].
      rewrite Hnil in Hlen. rewrite <- Hlen in Hall. simpl in Hall. lia.
    + intros i later Hstarts.
      assert (0 < m)%nat as Hm by (rewrite <- Hlen, Hstarts; simpl; lia).
      specialize (Hstart 0%nat Hm). rewrite Hstarts in Hstart. simpl in Hstart.
      injection Hstart as ->. lia.
  - intros s overall_timeout Htbb Hprofile Hlaunch Hquiet Himport. rewrite <- Hchunks.
    apply fetch_urls_with_browser_quiet; try done. lia.
Qed.

Lemma batches_and_overall_deadline_witness :
  ∃ starts,
    py_range 5 2 = Return starts
    ∧ length <$> ((λ i, slice i 2 five_urls) <$> starts) = [2; 2; 1]%nat
    ∧ ∃ j fetched,
        fst (_fetch_urls_with_browser two_tabs (demo_browser (λ _, slow_page))
               demo_searched five_urls 10 60) = Return fetched
        ∧ dispatched (snd (_fetch_urls_with_browser two_tabs
                             (demo_browser (λ _, slow_page)) demo_searched five_urls 10 60))
          = take j ((λ i, slice i 2 five_urls) <$> starts)
        ∧ ∀ u msg, fetched !! u ≠ Some (Failure browser_error msg).
Proof.
  destruct (batches_and_overall_deadline two_tabs (demo_browser (λ _, slow_page)) 10
              (Some 61000) five_urls)
    as (starts & Hrange & _ & _ & Hsizes & _ & _ & _ & _ & _ & Hquiet).
  - simpl. lia.
  - exists starts. split; [exact Hrange|].
    split; [apply Hsizes; vm_compute; reflexivity|].
    destruct (Hquiet demo_searched 60) as (j & fetched & _ & Hrun & Hlog & _ & Hnone & _).
    + reflexivity.
    + reflexivity.
    + split; [by left | reflexivity].
    + intros k. reflexivity.
    + reflexivity.
    + exists j, fetched. split; [exact Hrun|]. split; [exact Hlog | exact Hnone].
Defined.

